(** * PubMed phrase comparison: combination generator and overlap reports

    A shallow embedding of [pubmed_compare.py].  Python [str] values are
    modelled as [string] (one [ascii] per character), [int] as [Z], a
    [set] of PMIDs as [gset string], the insertion-ordered [dict] of
    results as an association list with in-place update, and raised
    exceptions as the [Raise] branch of [result]. *)

From Stdlib Require Import ZArith QArith Ascii String List Lia Bool.
From Stdlib Require Import Floats.SpecFloat.
From stdpp Require Import gmap strings list sets pretty sorting.

Local Open Scope Z_scope.

(** ** Exceptions and fallible results *)

Inductive exception : Type :=
  | AssertionError (msg : string)
  | ValueError (msg : string)
  | RequestException (msg : string)
  | HTTPError (msg : string)
  | JSONDecodeError (msg : string)
  | KeyError (key : string)
  | TypeError (msg : string)
  | ZeroDivisionError (msg : string)
  | OverflowError (msg : string).

Inductive result (A : Type) : Type :=
  | Ok (a : A)
  | Raise (e : exception).

Arguments Ok {A} a.
Arguments Raise {A} e.

#[global] Instance result_bind : MBind result :=
  fun A B k m =>
    match m with
    | Ok a => k a
    | Raise e => Raise e
    end.

(** [for x in xs: acc = body acc x], stopping at the first exception. *)
Fixpoint for_each {A S : Type} (xs : list A) (acc : S)
    (body : S → A → result S) : result S :=
  match xs with
  | [] => Ok acc
  | x :: rest => acc' ← body acc x; for_each rest acc' body
  end.

(** ** Python built-ins used by the script *)

Module Py.

Definition dquote : ascii := ascii_of_nat 34.

(** [c.upper()] for one ASCII character. *)
Definition upper_char (c : ascii) : ascii :=
let n := N_of_ascii c in
if ((97 <=? n) && (n <=? 122))%N then ascii_of_N (n - 32) else c.

(** [s.upper()] *)
Fixpoint upper (s : string) : string :=
match s with
| EmptyString => EmptyString
| String c rest => String (upper_char c) (upper rest)
end.

(** [sep.join(items)] *)
Fixpoint join (sep : string) (items : list string) : string :=
match items with
| [] => ""
| [x] => x
| x :: rest => x +:+ sep +:+ join sep rest
end.

(** [range(lo, hi)] *)
Definition range (lo hi : Z) : list Z :=
map (fun i => lo + Z.of_nat i) (seq 0 (Z.to_nat (hi - lo))).

(** The [r]-length subsequences of [pool], in the order
  [itertools.combinations] yields them. *)
Fixpoint subsequences {A : Type} (pool : list A) (r : nat) : list (list A) :=
match r, pool with
| O, _ => [[]]
| S _, [] => []
| S r', x :: rest => map (cons x) (subsequences rest r') ++ subsequences rest r
end.

(** [itertools.combinations(pool, r)]: a negative [r] is a [ValueError]. *)
Definition combinations {A : Type} (pool : list A) (r : Z) : result (list (list A)) :=
if r <? 0 then Raise (ValueError "r must be non-negative")
else Ok (subsequences pool (Z.to_nat r)).

End Py.

(** ** The combination generator *)

(** [f'"{p}"'] *)
Definition quoted (p : string) : string :=
  String Py.dquote (p +:+ String Py.dquote "").

(** [f' {operator} '] *)
Definition spaced (operator : string) : string :=
  " " +:+ operator +:+ " ".

Definition valid_operator (operator : string) : bool :=
  bool_decide (operator = "AND") || bool_decide (operator = "OR").

Definition Combo : Type := string * list string.

Definition generate_phrase_combinations
    (phrases : list string) (max_combination_size : Z) (operator : string)
    : result (list Combo) :=
  let operator := Py.upper operator in
  if negb (valid_operator operator)
  then Raise (AssertionError "Operator must be 'AND' or 'OR'.")
  else
    for_each (Py.range 1 (max_combination_size + 1)) []
      (fun all_combos r =>
         combos ← Py.combinations phrases r;
         Ok (fold_left
               (fun all_combos combo =>
                  let combined := Py.join (spaced operator) (map quoted combo) in
                  all_combos ++ [(combined, combo)])
               combos all_combos)).


(** ** The outside world

    Everything the script does to its environment is recorded, in order,
    as a trace of events. *)

Inductive value : Type :=
  | Str (s : string)
  | Int (n : Z).

Definition Row : Type := list value.

Inductive event : Type :=
  | Printed (text : string)
  | Requested (url : string) (params : list (string * value))
  | Slept (seconds : Q)
  | Wrote (filename : string) (rows : list Row).

Definition World : Type := list event.

(** The [requests] library, the JSON decoder and the remote service are
    external: they are an interface the script is run against.  A GET
    may answer differently each time, so it sees the trace so far. *)
Class Service : Type := {
  response : Type;
  pyobj : Type;
  requests_get : World → string → list (string * value) → result response;
  raise_for_status : response → result unit;
  response_json : response → result pyobj;
  getitem : pyobj → string → result pyobj;
  set_of : pyobj → result (gset string);
}.

(** The USER CONFIGURATION block. *)
Record Config : Type := {
  PHRASES : list string;
  TOOL_NAME : string;
  EMAIL : string;
  USE_API_KEY : bool;
  API_KEY : string;
  MAX_COMBO_SIZE : Z;
  OPERATOR : string;
  SLEEP_BETWEEN_CALLS : Q;
  OUTPUT_PREFIX : string;
}.

Definition default_config : Config := {|
  PHRASES := [
    "pediatric tracheostomy";
    "mechanical ventilation";
    "chronic respiratory failure";
    "home ventilator support";
    "children with tracheostomy";
    "prolonged mechanical ventilation";
    "technology-dependent children";
    "pediatric home ventilation";
    "respiratory technology dependence";
    "long-term ventilation in children";
    "ventilator-dependent children";
    "chronic lung disease in pediatrics";
    "pediatric respiratory support";
    "invasive mechanical ventilation";
    "non-invasive ventilation";
    "tracheostomy-dependent children";
    "pediatric intensive care";
    "children with chronic illness";
    "pediatric pulmonary disease";
    "children with tracheostomy and ventilator";
    "long-term tracheostomy care"
  ];
  TOOL_NAME := "term_overlap_analyzer";
  EMAIL := "your_email@example.com";
  USE_API_KEY := false;
  API_KEY := "your_api_key_here";
  MAX_COMBO_SIZE := 2;
  OPERATOR := "AND";
  SLEEP_BETWEEN_CALLS := (34 # 100)%Q;
  OUTPUT_PREFIX := "pubmed_term_analysis";
|}.

Definition newline : string := String (ascii_of_nat 10) "".

(** [str(e)] *)
Definition exception_str (e : exception) : string :=
  match e with
  | AssertionError msg | ValueError msg | RequestException msg
  | HTTPError msg | JSONDecodeError msg | TypeError msg
  | ZeroDivisionError msg | OverflowError msg => msg
  | KeyError key => "'" +:+ key +:+ "'"
  end.

(** ** The query client *)

(** Lines 111 to 114, the body of the [try]. *)
Definition esearch_idlist `{Service} (w : World) (base_url : string)
    (params : list (string * value)) : result (gset string) :=
  response ← requests_get w base_url params;
  _ ← raise_for_status response;
  data ← response_json response;
  esearchresult ← getitem data "esearchresult";
  idlist ← getitem esearchresult "idlist";
  set_of idlist.

Definition base_url : string :=
  "https://eutils.ncbi.nlm.nih.gov/entrez/eutils/esearch.fcgi".

Definition request_params (cfg : Config) (search_term : string)
    : list (string * value) :=
  let params := [
    ("db", Str "pubmed");
    ("term", Str search_term);
    ("retmax", Int 1000);
    ("retmode", Str "json");
    ("tool", Str (TOOL_NAME cfg));
    ("email", Str (EMAIL cfg))
  ] in
  if USE_API_KEY cfg then params ++ [("api_key", Str (API_KEY cfg))]
  else params.

Definition fetch_error (search_term : string) (e : exception) : event :=
  Printed ("Error fetching for term: " +:+ search_term
             +:+ newline +:+ exception_str e).

Definition fetch_pmids `{Service} (cfg : Config) (search_term : string)
    (w : World) : World * result (gset string) :=
  let params := request_params cfg search_term in
  let w := w ++ [Requested base_url params] in
  match esearch_idlist w base_url params with
  | Ok pmids => (w, Ok pmids)
  | Raise e => (w ++ [fetch_error search_term e], Ok ∅)
  end.

(** ** Numbers: [int], and [float] as IEEE 754 binary64 *)

Module Float.

Definition prec : Z := 53.
Definition emax : Z := 1024.

(** The integer [n] as the unrounded value [n * 2^0]. *)
Definition exact (n : Z) : spec_float :=
match n with
| Z0 => S754_zero false
| Zpos p => S754_finite false p 0
| Zneg p => S754_finite true p 0
end.

(** [float(n)] *)
Definition of_int (n : Z) : result spec_float :=
match binary_normalize prec emax n 0 false with
| S754_infinity _ => Raise (OverflowError "int too large to convert to float")
| x => Ok x
end.

(** [a / b] on two [int]s: the quotient rounded once, to nearest even. *)
Definition true_divide (a b : Z) : result spec_float :=
if b =? 0 then Raise (ZeroDivisionError "division by zero")
else
  match SFdiv prec emax (exact a) (exact b) with
  | S754_infinity _ =>
      Raise (OverflowError "integer division result too large for a float")
  | x => Ok x
  end.

(** [num / den] rounded to the nearest integer, ties to even. *)
Definition round_half_even (num den : Z) : Z :=
let q := num / den in
match 2 * (num mod den) ?= den with
| Lt => q
| Gt => q + 1
| Eq => if Z.even q then q else q + 1
end.

(** [m * 2^e] in tenths, rounded to the nearest tenth, ties to even. *)
Definition tenths (m : positive) (e : Z) : Z :=
if 0 <=? e then 10 * Z.pos m * 2 ^ e
else round_half_even (10 * Z.pos m) (2 ^ (- e)).

Definition fixed1 (negative : bool) (n : Z) : string :=
(if negative then "-" else "")
  +:+ pretty (n / 10) +:+ "." +:+ pretty (n mod 10).

(** [f"{x:.1f}"] for a float [x] *)
Definition format_1f (x : spec_float) : string :=
match x with
| S754_zero s => fixed1 s 0
| S754_finite s m e => fixed1 s (tenths m e)
| S754_infinity s => (if s then "-" else "") +:+ "inf"
| S754_nan => "nan"
end.

(** The tenths [format_1f] prints. *)
Definition tenths_of (x : spec_float) : Z :=
match x with
| S754_finite _ m e => tenths m e
| _ => 0
end.

(** The value of a finite float, as a fraction. *)
Definition to_Q (x : spec_float) : Q :=
match x with
| S754_finite s m e =>
    let v := if 0 <=? e then inject_Z (Z.pos m * 2 ^ e)
             else Z.pos m # Z.to_pos (2 ^ (- e)) in
    if s then Qopp v else v
| _ => 0%Q
end.

End Float.

Inductive number : Type :=
  | PyInt (n : Z)
  | PyFloat (x : spec_float).

(** [f"{x:.1f}"]: an [int] is converted to [float] first. *)
Definition format_1f (x : number) : result string :=
  match x with
  | PyInt n => x ← Float.of_int n; Ok (Float.format_1f x)
  | PyFloat x => Ok (Float.format_1f x)
  end.

(** ** The result store: an insertion-ordered [dict] *)

Record Entry : Type := {
  components : list string;
  pmids : gset string;
}.

Abbreviation Dict := (list (string * Entry)).

(** [d[k] = v]: an existing key keeps its position. *)
Fixpoint dict_setitem (d : Dict) (k : string) (v : Entry) : Dict :=
  match d with
  | [] => [(k, v)]
  | (k', v') :: rest =>
      if decide (k = k') then (k, v) :: rest
      else (k', v') :: dict_setitem rest k v
  end.

(** [d[k]] *)
Fixpoint dict_getitem (d : Dict) (k : string) : result Entry :=
  match d with
  | [] => Raise (KeyError k)
  | (k', v') :: rest => if decide (k = k') then Ok v' else dict_getitem rest k
  end.

Definition keys (d : Dict) : list string := map fst d.

Definition len (s : gset string) : Z := Z.of_nat (size s).

(** ** The counts reporter *)

Definition counts_header : Row :=
  [Str "Search Term"; Str "Component Phrases"; Str "Result Count"].

Definition overlap_header : Row :=
  [Str "Term 1"; Str "Term 2"; Str "Shared Count"; Str "Union Count"; Str "Jaccard %"].

Definition save_term_counts (results_dict : Dict) (filename : string)
    (w : World) : World :=
  let written := [counts_header] in
  let written :=
    fold_left
      (fun written '(term, data) =>
         written ++ [[Str term;
                      Str (Py.join "; " (components data));
                      Int (len (pmids data))]])
      results_dict written in
  w ++ [Wrote filename written].

(** ** The overlap reporter *)

(** Lines 141 to 144: the last three cells of a row. *)
Definition overlap (s1 s2 : gset string) : result Row :=
  let shared := s1 ∩ s2 in
  let union := s1 ∪ s2 in
  jaccard ← (if bool_decide (union ≠ ∅)
             then x ← Float.true_divide (100 * len shared) (len union); Ok (PyFloat x)
             else Ok (PyInt 0));
  text ← format_1f jaccard;
  Ok [Int (len shared); Int (len union); Str text].

Definition overlap_row (results_dict : Dict) (t1_t2 : list string) : result Row :=
  match t1_t2 with
  | [t1; t2] =>
      e1 ← dict_getitem results_dict t1;
      e2 ← dict_getitem results_dict t2;
      cells ← overlap (pmids e1) (pmids e2);
      Ok ([Str t1; Str t2] ++ cells)
  | _ => Raise (ValueError "not enough values to unpack")
  end.

(** The loop of line 139: rows written before an exception stay written. *)
Fixpoint write_overlap_rows (results_dict : Dict) (pairs : list (list string))
    (written : list Row) : list Row * option exception :=
  match pairs with
  | [] => (written, None)
  | t1_t2 :: rest =>
      match overlap_row results_dict t1_t2 with
      | Ok row => write_overlap_rows results_dict rest (written ++ [row])
      | Raise e => (written, Some e)
      end
  end.

Definition save_overlap_matrix (results_dict : Dict) (filename : string)
    (w : World) : World * option exception :=
  let terms := keys results_dict in
  let written := [overlap_header] in
  match Py.combinations terms 2 with
  | Raise e => (w ++ [Wrote filename written], Some e)
  | Ok pairs =>
      let '(written, raised) := write_overlap_rows results_dict pairs written in
      (w ++ [Wrote filename written], raised)
  end.

(** ** The main script *)

(** [time.sleep(seconds)]: the length is taken as a signed 64-bit count
    of nanoseconds, rounded away from zero.  A length that does not fit
    is an [OverflowError], a negative one a [ValueError]; nothing is
    slept then. *)
Definition longest_sleep : Q := (9223372036854775807 # 1000000000)%Q.
Definition shortest_sleep : Q := (-9223372036854775808 # 1000000000)%Q.

Definition time_sleep (seconds : Q) (w : World) : World * result unit :=
  if Qle_bool shortest_sleep seconds && Qle_bool seconds longest_sleep
  then
    if Qle_bool 0 seconds then (w ++ [Slept seconds], Ok ())
    else (w, Raise (ValueError "sleep length must be non-negative"))
  else (w, Raise (OverflowError "timestamp too large to convert to C _PyTime_t")).

(** The loop of lines 155 to 159.  The store is updated in place, so
    what was stored before an exception stays stored. *)
Fixpoint query_loop `{Service} (cfg : Config) (all_combos : list Combo)
    (results : Dict) (w : World) : World * Dict * option exception :=
  match all_combos with
  | [] => (w, results, None)
  | (search_term, components) :: rest =>
      match fetch_pmids cfg search_term w with
      | (w, Raise e) => (w, results, Some e)
      | (w, Ok pmids) =>
          let results :=
            dict_setitem results search_term
              {| components := components; pmids := pmids |} in
          let w := w ++ [Printed ("✓ " +:+ search_term +:+ " → "
                                   +:+ pretty (len pmids) +:+ " results")] in
          match time_sleep (SLEEP_BETWEEN_CALLS cfg) w with
          | (w, Raise e) => (w, results, Some e)
          | (w, Ok _) => query_loop cfg rest results w
          end
      end
  end.

Definition main `{Service} (cfg : Config) (w : World) : World * option exception :=
  let w := w ++ [Printed "🔍 Generating search phrase combinations..."] in
  match generate_phrase_combinations
          (PHRASES cfg) (MAX_COMBO_SIZE cfg) (OPERATOR cfg) with
  | Raise e => (w, Some e)
  | Ok all_combos =>
      let w := w ++ [Printed ("🔎 Running "
                               +:+ pretty (Z.of_nat (length all_combos))
                               +:+ " PubMed searches...")] in
      match query_loop cfg all_combos [] w with
      | (w, _, Some e) => (w, Some e)
      | (w, results, None) =>
          let w := w ++ [Printed "💾 Saving term counts..."] in
          let w := save_term_counts results (OUTPUT_PREFIX cfg +:+ "_counts.csv") w in
          let w := w ++ [Printed "💾 Saving overlap matrix..."] in
          match save_overlap_matrix results (OUTPUT_PREFIX cfg +:+ "_overlap.csv") w with
          | (w, Some e) => (w, Some e)
          | (w, None) =>
              let w := w ++ [Printed (newline +:+ "✅ Done! You can now explore:")] in
              let w := w ++ [Printed ("  • " +:+ OUTPUT_PREFIX cfg
                                       +:+ "_counts.csv — Number of results per phrase")] in
              let w := w ++ [Printed ("  • " +:+ OUTPUT_PREFIX cfg
                                       +:+ "_overlap.csv — Overlap between search results (pairwise)")] in
              (w, None)
          end
      end
  end.

(** ** Notions the properties below are stated with *)

(** Binomial coefficients, by Pascal's rule. *)
Fixpoint binomial (n k : nat) : nat :=
  match n, k with
  | _, O => 1
  | O, S _ => 0
  | S n', S k' => binomial n' k' + binomial n' k
  end.

(** Strict lexicographic order on lists of index positions. *)
Fixpoint lex_lt (a b : list nat) : Prop :=
  match a, b with
  | _, [] => False
  | [], _ :: _ => True
  | i :: a', j :: b' => (i < j)%nat ∨ (i = j ∧ lex_lt a' b')
  end.

(** The index positions of the [r]-element combinations of [n] items. *)
Definition index_combinations (n r : nat) : list (list nat) :=
  Py.subsequences (seq 0 n) r.

(** The elements of [pool] at the index positions [idx]. *)
Definition pick {A : Type} (d : A) (pool : list A) (idx : list nat) : list A :=
  map (fun i => nth i pool d) idx.

(** The query string of a combination, as line 89 builds it. *)
Definition query_of (operator : string) (combo : list string) : string :=
  Py.join (spaced operator) (map quoted combo).

(** The pairs the generator appends for one size [r]. *)
Definition combos_of_size (operator : string) (phrases : list string) (r : nat)
    : list Combo :=
  map (fun combo => (query_of operator combo, combo)) (Py.subsequences phrases r).

(** The Jaccard percentage of two result sets, in tenths of a percent,
    as the overlap report prints it. *)
Definition jaccard_tenths (s1 s2 : gset string) : Z :=
  if bool_decide (s1 ∪ s2 ≠ ∅)
  then match Float.true_divide (100 * len (s1 ∩ s2)) (len (s1 ∪ s2)) with
       | Ok x => Float.tenths_of x
       | Raise _ => 0
       end
  else 0.

(** The row of the overlap report for two entries of the store. *)
Definition overlap_cells_row (first second : string * Entry) : Row :=
  [Str first.1; Str second.1;
   Int (len (pmids first.2 ∩ pmids second.2));
   Int (len (pmids first.2 ∪ pmids second.2));
   Str (Float.fixed1 false (jaccard_tenths (pmids first.2) (pmids second.2)))].

Definition no_item : string * Entry := ("", {| components := []; pmids := ∅ |}).

(** The row for the entries at the two index positions [idx]. *)
Definition overlap_row_at (results_dict : Dict) (idx : list nat) : Row :=
  match pick no_item results_dict idx with
  | [first; second] => overlap_cells_row first second
  | _ => []
  end.

(** The row of the counts report for one entry of the store. *)
Definition counts_row (item : string * Entry) : Row :=
  [Str item.1; Str (Py.join "; " (components item.2)); Int (len (pmids item.2))].

(** Reversing the quote-and-join format of a query string. *)
Module Recover.

(** [sub in s] *)
Fixpoint contains (sub s : string) : bool :=
String.prefix sub s ||
match s with
| EmptyString => false
| String _ rest => contains sub rest
end.

Fixpoint drop (n : nat) (s : string) : string :=
match n, s with
| O, _ => s
| S _, EmptyString => EmptyString
| S n', String _ rest => drop n' rest
end.

(** [s.partition(sep)]: the text before the first [sep], and the text
  after it when there is one. *)
Fixpoint partition (sep s : string) : string * option string :=
if String.prefix sep s then (EmptyString, Some (drop (String.length sep) s))
else
  match s with
  | EmptyString => (EmptyString, None)
  | String c rest =>
      let '(before, after) := partition sep rest in (String c before, after)
  end.

(** [sep] matches at no position of [u] when [u] is followed by [tail]. *)
Fixpoint clear_of (sep u tail : string) : Prop :=
match u with
| EmptyString => True
| String _ u' => String.prefix sep (u +:+ tail) = false ∧ clear_of sep u' tail
end.

Fixpoint split_fuel (fuel : nat) (sep s : string) : list string :=
match partition sep s with
| (before, None) => [before]
| (before, Some after) =>
    match fuel with
    | O => [before]
    | S fuel' => before :: split_fuel fuel' sep after
    end
end.

(** [s.split(sep)] for a non-empty [sep] *)
Definition split (sep s : string) : list string :=
split_fuel (String.length s) sep s.

Fixpoint drop_closing_quote (s : string) : string :=
match s with
| EmptyString => EmptyString
| String c EmptyString => if Ascii.eqb c Py.dquote then EmptyString else s
| String c rest => String c (drop_closing_quote rest)
end.

(** Take away the one double quote on each side. *)
Definition unquote (s : string) : string :=
match s with
| String c rest =>
    if Ascii.eqb c Py.dquote then drop_closing_quote rest
    else drop_closing_quote s
| EmptyString => EmptyString
end.

(** Split on the space-surrounded operator, then strip the quotes. *)
Definition recover (operator query : string) : list string :=
map unquote (split (spaced operator) query).

End Recover.

(** A phrase without any double-quote character. *)
Fixpoint quote_free (p : string) : bool :=
  match p with
  | EmptyString => true
  | String c rest => negb (Ascii.eqb c Py.dquote) && quote_free rest
  end.

(** Where [rem / den], a fraction in [0, 1), lies with respect to one half. *)
Definition position (rem den : Z) : location :=
  if rem =? 0 then loc_Exact else loc_Inexact (2 * rem ?= den).

(** A shift record that holds the integer part of [num / den] and the
    position of its fractional part. *)
Definition represents (mrs : shr_record) (num den : Z) : Prop :=
  shr_m mrs = num / den ∧ loc_of_shr_record mrs = position (num mod den) den.

(** [num / den * 2^e] rounded to a float of precision [prec]: the closed
    form of what [binary_round_aux] computes by shifting. *)
Definition rounded (prec emax : Z) (sx : bool) (num den e : Z) : spec_float :=
  let n1 := Z.max 0 (fexp prec emax (Zdigits2 (num / den) + e) - e) in
  let m2 := Float.round_half_even num (den * 2 ^ n1) in
  let e1 := e + n1 in
  let n2 := Z.max 0 (fexp prec emax (Zdigits2 m2 + e1) - e1) in
  match m2 / 2 ^ n2 with
  | Z0 => S754_zero sx
  | Zpos m =>
      if e1 + n2 <=? emax - prec then S754_finite sx m (e1 + n2)
      else S754_infinity sx
  | Zneg _ => S754_nan
  end.

(** A float between 0 and 100: positive zero, or [m * 2^e] with
    [e <= 0] and [m <= 100 * 2^(-e)]. *)
Definition percent_float (x : spec_float) : Prop :=
  x = S754_zero false
  ∨ ∃ m e, x = S754_finite false m e ∧ e <= 0 ∧ Z.pos m <= 100 * 2 ^ (- e).

(** ** A canned service, to run the client on concrete answers *)

Module Canned.

#[local] Unset Elimination Schemes.
Inductive json : Type :=
| JStr (s : string)
| JArr (items : list json)
| JObj (members : list (string * json)).
#[local] Set Elimination Schemes.

Fixpoint member (members : list (string * json)) (key : string) : result json :=
match members with
| [] => Raise (KeyError key)
| (k, v) :: rest => if decide (k = key) then Ok v else member rest key
end.

Fixpoint strings (items : list json) : result (gset string) :=
match items with
| [] => Ok ∅
| JStr s :: rest => ids ← strings rest; Ok ({[ s ]} ∪ ids)
| _ :: rest => Raise (TypeError "unhashable type")
end.

Fixpoint term_of (params : list (string * value)) : string :=
match params with
| [] => ""
| (k, v) :: rest =>
    if decide (k = "term")
    then match v with Str s => s | Int _ => "" end
    else term_of rest
end.

(** What the service sends back: a status line, the address that
was asked, and a body that decodes or does not. *)
Record reply : Type := {
status : Z;
reason : string;
url : string;
body : result json;
}.

(** [response.raise_for_status()], with the text the library gives
the error. *)
Definition check_status (r : reply) : result unit :=
if (400 <=? status r) && (status r <? 500)
then Raise (HTTPError (pretty (status r) +:+ " Client Error: " +:+ reason r
                         +:+ " for url: " +:+ url r))
else if (500 <=? status r) && (status r <? 600)
then Raise (HTTPError (pretty (status r) +:+ " Server Error: " +:+ reason r
                         +:+ " for url: " +:+ url r))
else Ok ().

(** The service answers a term with a transport failure or a reply. *)
Definition service (answer : string → result reply) : Service := {|
response := reply;
pyobj := json;
requests_get := fun _ _ params => answer (term_of params);
raise_for_status := check_status;
response_json := body;
getitem := fun v key =>
  match v with
  | JObj members => member members key
  | _ => Raise (TypeError "indices must be integers")
  end;
set_of := fun v =>
  match v with
  | JArr items => strings items
  | JStr s => Ok (list_to_set ((fun c => String c "") <$> list_ascii_of_string s))
  | JObj members => Ok (list_to_set (fst <$> members))
  end;
|}.

Definition esearch (ids : list string) : json :=
JObj [("header", JObj []);
      ("esearchresult", JObj [("count", JStr "2"); ("idlist", JArr (JStr <$> ids))])].

Definition found (body : result json) : result reply :=
Ok {| status := 200; reason := "OK"; url := base_url; body := body |}.

Definition answers (term : string) : result reply :=
if decide (term = quoted "a") then found (Ok (esearch ["11"; "12"; "13"]))
else if decide (term = quoted "b") then found (Ok (esearch ["12"; "13"; "14"]))
else if decide (term = quoted "down") then Raise (RequestException "connection refused")
else if decide (term = quoted "busy")
then Ok {| status := 429; reason := "Too Many Requests";
           url := base_url +:+ "?db=pubmed&term=%22busy%22&retmax=1000&retmode=json"
                    +:+ "&tool=term_overlap_analyzer&email=your_email%40example.com";
           body := Ok (esearch []) |}
else if decide (term = quoted "html")
then found (Raise (JSONDecodeError "Expecting value: line 1 column 1 (char 0)"))
else if decide (term = quoted "bare") then found (Ok (JObj [("esearchresult", JObj [])]))
else found (Ok (esearch [])).

End Canned.

(** ** Views of a trace *)

(** The requests and the pauses of a trace, in the order they happen. *)
Definition calls (w : World) : list event :=
  List.filter
    (fun ev => match ev with Requested _ _ | Slept _ => true | _ => false end) w.

(** The files of a trace, in the order they are written. *)
Definition files (w : World) : list (string * list Row) :=
  flat_map (fun ev => match ev with Wrote f rows => [(f, rows)] | _ => [] end) w.

(** What one turn of the query loop asks of the outside world. *)
Definition call_of (cfg : Config) (c : Combo) : list event :=
  [Requested base_url (request_params cfg c.1); Slept (SLEEP_BETWEEN_CALLS cfg)].

(** The combination made of the phrase [p] alone. *)
Definition single (p : string) : Combo := (quoted p, [p]).

(** The characters of the phrases of a combination, counted together. *)
Definition phrase_chars (combo : list string) : nat :=
  sum_list (map String.length combo).


(** * Properties *)

(** ** Loops that only append *)

Section loops.
Context {A B : Type}.

Lemma fold_left_snoc (h : A → B) (xs : list A) (acc : list B) :
fold_left (fun acc x => acc ++ [h x]) xs acc = acc ++ map h xs.
Proof.
revert acc. induction xs as [|x xs IH]; intros acc; simpl.
- by rewrite app_nil_r.
- rewrite IH. by rewrite <- app_assoc.
Qed.

Lemma for_each_collect (g : A → list B) (body : list B → A → result (list B))
  (xs : list A) (acc : list B) :
(∀ acc x, x ∈ xs → body acc x = Ok (acc ++ g x)) →
for_each xs acc body = Ok (acc ++ flat_map g xs).
Proof.
revert acc. induction xs as [|x xs IH]; intros acc Hbody; simpl.
- by rewrite app_nil_r.
- rewrite Hbody by left. simpl. rewrite IH.
  + by rewrite app_assoc.
  + intros acc' y Hy. apply Hbody. by right.
Qed.
End loops.

(** ** The generator as a comprehension *)

Lemma range_from_1 (k : Z) :
  Py.range 1 (k + 1) = map Z.of_nat (seq 1 (Z.to_nat k)).
Proof.
  unfold Py.range. replace (k + 1 - 1) with k by lia.
  rewrite <- seq_shift, map_map. apply map_ext. intros i. lia.
Qed.

Lemma generate_unfold phrases k operator :
  valid_operator (Py.upper operator) = true →
  generate_phrase_combinations phrases k operator
  = Ok (flat_map (combos_of_size (Py.upper operator) phrases) (seq 1 (Z.to_nat k))).
Proof.
  intros Hop. unfold generate_phrase_combinations. rewrite Hop. simpl negb. cbv iota.
  rewrite range_from_1.
  rewrite (for_each_collect (fun r => combos_of_size (Py.upper operator) phrases (Z.to_nat r))).
  - simpl. f_equal. rewrite flat_map_concat_map, map_map, <- flat_map_concat_map.
    apply flat_map_ext. intros r. by rewrite Nat2Z.id.
  - intros acc r Hr. apply list_elem_of_fmap in Hr as (i & -> & Hi).
    unfold Py.combinations.
    destruct (Z.ltb_spec (Z.of_nat i) 0) as [?|_]; [lia|].
    simpl. f_equal. apply fold_left_snoc.
Qed.

Lemma generate_invalid phrases k operator :
  valid_operator (Py.upper operator) = false →
  generate_phrase_combinations phrases k operator
  = Raise (AssertionError "Operator must be 'AND' or 'OR'.").
Proof. intros Hop. unfold generate_phrase_combinations. by rewrite Hop. Qed.

Lemma valid_operator_spec operator :
  valid_operator operator = true ↔ operator = "AND" ∨ operator = "OR".
Proof.
  unfold valid_operator. rewrite orb_true_iff, !bool_decide_eq_true. tauto.
Qed.

Lemma upper_char_idemp c : Py.upper_char (Py.upper_char c) = Py.upper_char c.
Proof. by destruct c as [[] [] [] [] [] [] [] []]. Qed.

Lemma upper_idemp s : Py.upper (Py.upper s) = Py.upper s.
Proof. induction s as [|c s IH]; simpl; [done|]. by rewrite upper_char_idemp, IH. Qed.

Lemma generate_upper phrases k operator :
  generate_phrase_combinations phrases k (Py.upper operator)
  = generate_phrase_combinations phrases k operator.
Proof. unfold generate_phrase_combinations. by rewrite upper_idemp. Qed.

(** C4: the operator is read through [upper()], so any spelling of AND
    or OR is accepted and the queries carry the uppercase form; any other
    operator raises the assertion, and the script then stops with no
    request on its trace. *)
Theorem operator_normalized_or_rejected (phrases : list string) (k : Z) (operator : string) :
  generate_phrase_combinations phrases k operator
    = generate_phrase_combinations phrases k (Py.upper operator)
  ∧ (Py.upper operator = "AND" ∨ Py.upper operator = "OR" →
       generate_phrase_combinations phrases k operator
       = Ok (flat_map (combos_of_size (Py.upper operator) phrases) (seq 1 (Z.to_nat k))))
  ∧ (Py.upper operator ≠ "AND" → Py.upper operator ≠ "OR" →
       generate_phrase_combinations phrases k operator
         = Raise (AssertionError "Operator must be 'AND' or 'OR'.")
       ∧ ∀ (S : Service) (cfg : Config) (w : World),
           PHRASES cfg = phrases → MAX_COMBO_SIZE cfg = k → OPERATOR cfg = operator →
           main cfg w
           = (w ++ [Printed "🔍 Generating search phrase combinations..."],
              Some (AssertionError "Operator must be 'AND' or 'OR'."))).
Proof.
  split; [by rewrite generate_upper|]. split.
  - intros Hop. apply generate_unfold. by apply valid_operator_spec.
  - intros Hand Hor.
    assert (valid_operator (Py.upper operator) = false) as Hbad.
    { apply not_true_is_false. rewrite valid_operator_spec. tauto. }
    split; [by apply generate_invalid|].
    intros S cfg w <- <- <-. unfold main.
    by rewrite generate_invalid.
Qed.

Lemma operator_normalized_or_rejected_witness :
  generate_phrase_combinations ["a"; "b"] 2 "Or"
    = Ok [ (quoted "a", ["a"]); (quoted "b", ["b"]);
           (quoted "a" +:+ " OR " +:+ quoted "b", ["a"; "b"]) ]
  ∧ generate_phrase_combinations ["a"; "b"] 2 "xor"
    = Raise (AssertionError "Operator must be 'AND' or 'OR'.").
Proof.
  split.
  - destruct (operator_normalized_or_rejected ["a"; "b"] 2 "Or") as (_ & Hok & _).
    rewrite Hok; [reflexivity | right; reflexivity].
  - destruct (operator_normalized_or_rejected ["a"; "b"] 2 "xor") as (_ & _ & Hbad).
    apply Hbad; discriminate.
Defined.

(** C10: with a valid operator and a maximum size of zero or less the
    range of sizes is empty and the generator returns the empty list. *)
Theorem no_sizes_no_combinations (phrases : list string) (k : Z) (operator : string) :
  Py.upper operator = "AND" ∨ Py.upper operator = "OR" →
  k <= 0 →
  generate_phrase_combinations phrases k operator = Ok [].
Proof.
  intros Hop Hk. rewrite generate_unfold by by apply valid_operator_spec.
  replace (Z.to_nat k) with O by lia. reflexivity.
Qed.

Lemma no_sizes_no_combinations_witness :
  generate_phrase_combinations ["a"; "b"] (-3) "and" = Ok [].
Proof.
  apply (no_sizes_no_combinations ["a"; "b"] (-3) "and").
  - left. reflexivity.
  - lia.
Defined.

(** ** The query client *)

Lemma fetch_pmids_ok `{Service} cfg term w :
  ∃ w' ids, fetch_pmids cfg term w = (w', Ok ids).
Proof.
  unfold fetch_pmids.
  destruct (esearch_idlist _ _ _) as [ids|e]; eauto.
Qed.

(** One call of the client: the request it records, what it says when
    the request fails, and the set it returns. *)
Lemma fetch_pmids_trace `{Service} cfg term w :
  let params := request_params cfg term in
  ∃ ids said,
    fetch_pmids cfg term w = (w ++ Requested base_url params :: said, Ok ids)
    ∧ (said = [] ∧ esearch_idlist (w ++ [Requested base_url params]) base_url params = Ok ids
       ∨ ∃ e, said = [fetch_error term e] ∧ ids = ∅
              ∧ esearch_idlist (w ++ [Requested base_url params]) base_url params
                = Raise e).
Proof.
  intros params. unfold fetch_pmids. fold params.
  destruct (esearch_idlist _ _ _) as [ids|e] eqn:E.
  - exists ids, []. split; [done|]. by left.
  - exists ∅, [fetch_error term e]. rewrite <- app_assoc. split; [done|].
    right. by exists e.
Qed.

Lemma dict_setitem_keys d k v :
  keys (dict_setitem d k v) = if decide (k ∈ keys d) then keys d else keys d ++ [k].
Proof.
  unfold keys. induction d as [|[k' v'] d IH]; [done|].
  cbn [dict_setitem]. destruct (decide (k = k')) as [->|Hne]; cbn [map fst].
  - by rewrite decide_True by left.
  - rewrite IH. destruct (decide (k ∈ map fst d)) as [Hin|Hnin].
    + by rewrite decide_True by by right.
    + rewrite decide_False; [done|]. rewrite elem_of_cons. tauto.
Qed.

Lemma dict_setitem_fresh d k v :
  k ∉ keys d → dict_setitem d k v = d ++ [(k, v)].
Proof.
  unfold keys. induction d as [|[k' v'] d IH]; [done|].
  cbn [dict_setitem map fst]. intros Hk. apply not_elem_of_cons in Hk as [Hne Hk].
  rewrite decide_False by done. by rewrite IH.
Qed.

(** ** The pause *)

Lemma time_sleep_ok seconds w :
  (0 <= seconds)%Q → (seconds <= longest_sleep)%Q →
  time_sleep seconds w = (w ++ [Slept seconds], Ok ()).
Proof.
  intros Hlo Hhi. unfold time_sleep.
  assert (shortest_sleep <= seconds)%Q as Hmin.
  { apply Qle_trans with 0%Q; [by vm_compute|done]. }
  apply Qle_bool_iff in Hlo, Hhi, Hmin. by rewrite Hlo, Hhi, Hmin.
Qed.

Lemma time_sleep_raises seconds :
  ¬ ((0 <= seconds)%Q ∧ (seconds <= longest_sleep)%Q) →
  ∃ e, ∀ w, time_sleep seconds w = (w, Raise e).
Proof.
  intros Hbad. unfold time_sleep.
  destruct (Qle_bool shortest_sleep seconds && Qle_bool seconds longest_sleep) eqn:Hfit;
    [|by eexists].
  destruct (Qle_bool 0 seconds) eqn:Hlo; [|by eexists].
  exfalso. apply Hbad. apply andb_true_iff in Hfit as [_ Hhi].
  by split; apply Qle_bool_iff.
Qed.

Lemma pause_cases seconds :
  ((0 <= seconds)%Q ∧ (seconds <= longest_sleep)%Q)
  ∨ ¬ ((0 <= seconds)%Q ∧ (seconds <= longest_sleep)%Q).
Proof.
  destruct (Qlt_le_dec seconds 0) as [Hneg|Hlo].
  { right. intros [Hlo _]. by apply Qle_not_lt in Hlo. }
  destruct (Qlt_le_dec longest_sleep seconds) as [Hbig|Hhi].
  { right. intros [_ Hhi]. by apply Qle_not_lt in Hhi. }
  by left.
Qed.

(** ** The query loop *)

(** One turn of the loop, up to the pause. *)
Lemma query_loop_turn `{Service} cfg q c rest results w :
  let params := request_params cfg q in
  ∃ ids said,
    fetch_pmids cfg q w = (w ++ Requested base_url params :: said, Ok ids)
    ∧ (said = [] ∧ esearch_idlist (w ++ [Requested base_url params]) base_url params = Ok ids
       ∨ ∃ e, said = [fetch_error q e] ∧ ids = ∅
              ∧ esearch_idlist (w ++ [Requested base_url params]) base_url params
                = Raise e)
    ∧ query_loop cfg ((q, c) :: rest) results w
      = match time_sleep (SLEEP_BETWEEN_CALLS cfg)
                (w ++ Requested base_url params
                   :: said ++ [Printed ("✓ " +:+ q +:+ " → "
                                         +:+ pretty (len ids) +:+ " results")]) with
        | (w2, Raise e) =>
            (w2, dict_setitem results q {| components := c; pmids := ids |}, Some e)
        | (w2, Ok _) =>
            query_loop cfg rest
              (dict_setitem results q {| components := c; pmids := ids |}) w2
        end.
Proof.
  intros params.
  destruct (fetch_pmids_trace cfg q w) as (ids & said & Hfetch & Hsaid).
  fold params in Hfetch, Hsaid.
  exists ids, said. split; [done|]. split; [done|].
  simpl. rewrite Hfetch. by rewrite <- app_assoc.
Qed.

(** One turn when the pause is accepted. *)
Lemma query_loop_cons `{Service} cfg q c rest results w :
  (0 <= SLEEP_BETWEEN_CALLS cfg)%Q → (SLEEP_BETWEEN_CALLS cfg <= longest_sleep)%Q →
  let params := request_params cfg q in
  ∃ ids said,
    fetch_pmids cfg q w = (w ++ Requested base_url params :: said, Ok ids)
    ∧ (said = [] ∧ esearch_idlist (w ++ [Requested base_url params]) base_url params = Ok ids
       ∨ ∃ e, said = [fetch_error q e] ∧ ids = ∅
              ∧ esearch_idlist (w ++ [Requested base_url params]) base_url params
                = Raise e)
    ∧ query_loop cfg ((q, c) :: rest) results w
      = query_loop cfg rest
          (dict_setitem results q {| components := c; pmids := ids |})
          (w ++ Requested base_url params
                :: said ++ [Printed ("✓ " +:+ q +:+ " → "
                                      +:+ pretty (len ids) +:+ " results");
                            Slept (SLEEP_BETWEEN_CALLS cfg)]).
Proof.
  intros Hlo Hhi params.
  destruct (query_loop_turn cfg q c rest results w) as (ids & said & Hfetch & Hsaid & Hturn).
  exists ids, said. split; [done|]. split; [done|].
  etrans; [exact Hturn|]. rewrite time_sleep_ok by done.
  f_equal. rewrite <- app_assoc. cbn [app]. by rewrite <- app_assoc.
Qed.

(** One turn when the pause is refused: the loop stops there. *)
Lemma query_loop_stops `{Service} cfg q c rest results w :
  ¬ ((0 <= SLEEP_BETWEEN_CALLS cfg)%Q ∧ (SLEEP_BETWEEN_CALLS cfg <= longest_sleep)%Q) →
  let params := request_params cfg q in
  ∃ ids said e,
    fetch_pmids cfg q w = (w ++ Requested base_url params :: said, Ok ids)
    ∧ (said = [] ∨ ∃ e', said = [fetch_error q e'])
    ∧ (∀ w0, time_sleep (SLEEP_BETWEEN_CALLS cfg) w0 = (w0, Raise e))
    ∧ query_loop cfg ((q, c) :: rest) results w
      = (w ++ Requested base_url params
           :: said ++ [Printed ("✓ " +:+ q +:+ " → "
                                 +:+ pretty (len ids) +:+ " results")],
         dict_setitem results q {| components := c; pmids := ids |},
         Some e).
Proof.
  intros Hbad params.
  destruct (query_loop_turn cfg q c rest results w) as (ids & said & Hfetch & Hsaid & Hturn).
  destruct (time_sleep_raises _ Hbad) as [e He].
  exists ids, said, e. split; [done|]. split.
  { destruct Hsaid as [[-> _]|(e' & -> & _)]; [by left|right; by exists e']. }
  split; [done|]. etrans; [exact Hturn|]. by rewrite He.
Qed.

Lemma query_loop_ok `{Service} cfg all_combos results w :
  (0 <= SLEEP_BETWEEN_CALLS cfg)%Q → (SLEEP_BETWEEN_CALLS cfg <= longest_sleep)%Q →
  ∃ w' results',
    query_loop cfg all_combos results w = (w', results', None)
    ∧ keys results'
      = fold_left (fun seen x => if decide (x ∈ seen) then seen else seen ++ [x])
          (map fst all_combos) (keys results)
    ∧ (NoDup (keys results ++ map fst all_combos) →
       ∃ fetched,
         map fst fetched = all_combos
         ∧ results'
           = results ++ map (fun '(search_term, combo, ids) =>
                               (search_term, {| components := combo; pmids := ids |}))
                          fetched).
Proof.
  intros Hlo Hhi. revert results w.
  induction all_combos as [|[search_term combo] rest IH]; intros results w.
  - exists w, results. split; [done|]. split; [done|].
    intros _. exists []. by rewrite app_nil_r.
  - destruct (query_loop_cons cfg search_term combo rest results w Hlo Hhi)
      as (ids & said & _ & _ & Hstep).
    edestruct IH as (w' & results' & Hrest & Hkeys & Hfresh).
    exists w', results'. split; [exact (eq_trans Hstep Hrest)|]. split.
    + rewrite Hkeys. cbn [map fold_left fst]. by rewrite dict_setitem_keys.
    + intros Hnd. cbn [map fst] in Hnd.
      assert (search_term ∉ keys results) as Hnew.
      { apply NoDup_app in Hnd as (_ & Hdisj & _). intros Hin.
        apply (Hdisj _ Hin). left. }
      rewrite dict_setitem_fresh in Hfresh by done.
      destruct Hfresh as (fetched & Hfst & ->).
      { unfold keys. rewrite map_app. cbn [map fst]. rewrite <- app_assoc. exact Hnd. }
      exists ((search_term, combo, ids) :: fetched). cbn [map fst].
      split; [by rewrite Hfst|]. by rewrite <- app_assoc.
Qed.

(** The loop stops early for one reason only: the pause was refused. *)
Lemma query_loop_raised `{Service} cfg all_combos results w :
  ∃ w' results' raised,
    query_loop cfg all_combos results w = (w', results', raised)
    ∧ ∀ e, raised = Some e →
           ∀ w0, time_sleep (SLEEP_BETWEEN_CALLS cfg) w0 = (w0, Raise e).
Proof.
  destruct (pause_cases (SLEEP_BETWEEN_CALLS cfg)) as [[Hlo Hhi]|Hbad].
  - destruct (query_loop_ok cfg all_combos results w Hlo Hhi) as (w' & results' & Hrun & _).
    by exists w', results', None.
  - destruct all_combos as [|[q c] rest]; [by exists w, results, None|].
    destruct (query_loop_stops cfg q c rest results w Hbad)
      as (ids & said & e & _ & _ & He & Hrun).
    eexists _, _, _. split; [exact Hrun|]. by intros ? [= <-].
Qed.

Lemma seen_keeps (query : string) (l seen : list string) :
  query ∈ seen ∨ query ∈ l →
  query ∈ fold_left (fun seen x => if decide (x ∈ seen) then seen else seen ++ [x]) l seen.
Proof.
  revert seen. induction l as [|x l IH]; intros seen Hin; cbn [fold_left].
  - destruct Hin as [Hin|Hin]; [done|by apply elem_of_nil in Hin].
  - apply IH. destruct Hin as [Hin|Hin].
    + left. destruct (decide (x ∈ seen)); [done|]. apply elem_of_app. by left.
    + apply elem_of_cons in Hin as [->|Hin]; [|by right].
      left. destruct (decide (x ∈ seen)); [done|].
      apply elem_of_app. right. apply list_elem_of_here.
Qed.

(** C5: the client always returns a set.  When every step of the [try]
    body succeeds it is the set made from the id list; when the request,
    the status check, the decoding, either lookup or the conversion
    raises, it prints the line "Error fetching for term: ", the term, a
    line break and the text of the exception, and returns the empty set.
    The query loop therefore never stops because of a query: it stops
    early only when the pause is refused, and otherwise runs through
    every combination. *)
Theorem fetch_pmids_never_raises (S : Service) (cfg : Config) (search_term : string) (w : World) :
  let params := request_params cfg search_term in
  let w1 := w ++ [Requested base_url params] in
  (∃ w' ids, fetch_pmids cfg search_term w = (w', Ok ids))
  ∧ (∀ r data esearchresult idlist ids,
       requests_get w1 base_url params = Ok r →
       raise_for_status r = Ok () →
       response_json r = Ok data →
       getitem data "esearchresult" = Ok esearchresult →
       getitem esearchresult "idlist" = Ok idlist →
       set_of idlist = Ok ids →
       fetch_pmids cfg search_term w = (w1, Ok ids))
  ∧ (∀ e,
       requests_get w1 base_url params = Raise e
       ∨ (∃ r, requests_get w1 base_url params = Ok r
               ∧ (raise_for_status r = Raise e
                  ∨ raise_for_status r = Ok ()
                    ∧ (response_json r = Raise e
                       ∨ ∃ data, response_json r = Ok data
                           ∧ (getitem data "esearchresult" = Raise e
                              ∨ ∃ esearchresult,
                                  getitem data "esearchresult" = Ok esearchresult
                                  ∧ (getitem esearchresult "idlist" = Raise e
                                     ∨ ∃ idlist,
                                         getitem esearchresult "idlist" = Ok idlist
                                         ∧ set_of idlist = Raise e))))) →
       fetch_pmids cfg search_term w
       = (w1 ++ [Printed ("Error fetching for term: " +:+ search_term
                            +:+ String (ascii_of_nat 10) (exception_str e))],
          Ok ∅))
  ∧ (∀ msg key,
       exception_str (RequestException msg) = msg
       ∧ exception_str (HTTPError msg) = msg
       ∧ exception_str (JSONDecodeError msg) = msg
       ∧ exception_str (TypeError msg) = msg
       ∧ exception_str (ValueError msg) = msg
       ∧ exception_str (KeyError key) = "'" +:+ key +:+ "'")
  ∧ (∀ all_combos results,
       ∃ w' results' raised,
         query_loop cfg all_combos results w = (w', results', raised)
         ∧ (∀ e, raised = Some e →
                 ∀ w0, time_sleep (SLEEP_BETWEEN_CALLS cfg) w0 = (w0, Raise e))
         ∧ ((0 <= SLEEP_BETWEEN_CALLS cfg)%Q →
            (SLEEP_BETWEEN_CALLS cfg <= 9223372036854775807 # 1000000000)%Q →
            raised = None
            ∧ ∀ query, query ∈ map fst all_combos → query ∈ keys results')).
Proof.
  intros params w1. split; [apply fetch_pmids_ok|]. split; [|split; [|split]].
  - intros r data es idlist ids Hget Hst Hjs Hes Hid Hset.
    unfold fetch_pmids, esearch_idlist. fold params w1.
    unfold mbind, result_bind. by rewrite Hget, Hst, Hjs, Hes, Hid, Hset.
  - intros e Hfail. unfold fetch_pmids, esearch_idlist. fold params w1.
    unfold mbind, result_bind.
    destruct Hfail as [->|(r & -> & Hfail)]; [done|].
    destruct Hfail as [->|(-> & Hfail)]; [done|].
    destruct Hfail as [->|(data & -> & Hfail)]; [done|].
    destruct Hfail as [->|(es & -> & Hfail)]; [done|].
    destruct Hfail as [->|(idlist & -> & ->)]; done.
  - done.
  - intros all_combos results.
    destruct (query_loop_raised cfg all_combos results w)
      as (w' & results' & raised & Hrun & Hraised).
    exists w', results', raised. split; [done|]. split; [done|].
    intros Hlo Hhi.
    destruct (query_loop_ok cfg all_combos results w Hlo Hhi)
      as (w'' & results'' & Hrun' & Hkeys & _).
    rewrite Hrun in Hrun'. injection Hrun' as -> -> ->.
    split; [done|]. intros query Hin. rewrite Hkeys.
    apply seen_keeps. by right.
Qed.

Lemma fetch_pmids_never_raises_witness :
  let S := Canned.service Canned.answers in
  let q := String (ascii_of_nat 34) "" in
  let nl := String (ascii_of_nat 10) "" in
  let asked := fun term =>
    Requested "https://eutils.ncbi.nlm.nih.gov/entrez/eutils/esearch.fcgi"
      [("db", Str "pubmed"); ("term", Str (q +:+ term +:+ q)); ("retmax", Int 1000);
       ("retmode", Str "json"); ("tool", Str "term_overlap_analyzer");
       ("email", Str "your_email@example.com")] in
  fetch_pmids default_config (q +:+ "a" +:+ q) []
    = ([asked "a"], Ok ({[ "11" ]} ∪ ({[ "12" ]} ∪ ({[ "13" ]} ∪ ∅))))
  ∧ fetch_pmids default_config (q +:+ "down" +:+ q) []
    = ([asked "down";
        Printed ("Error fetching for term: " +:+ q +:+ "down" +:+ q +:+ nl
                   +:+ "connection refused")],
       Ok ∅)
  ∧ fetch_pmids default_config (q +:+ "busy" +:+ q) []
    = ([asked "busy";
        Printed ("Error fetching for term: " +:+ q +:+ "busy" +:+ q +:+ nl
                   +:+ "429 Client Error: Too Many Requests for url: "
                   +:+ "https://eutils.ncbi.nlm.nih.gov/entrez/eutils/esearch.fcgi"
                   +:+ "?db=pubmed&term=%22busy%22&retmax=1000&retmode=json"
                   +:+ "&tool=term_overlap_analyzer&email=your_email%40example.com")],
       Ok ∅)
  ∧ fetch_pmids default_config (q +:+ "html" +:+ q) []
    = ([asked "html";
        Printed ("Error fetching for term: " +:+ q +:+ "html" +:+ q +:+ nl
                   +:+ "Expecting value: line 1 column 1 (char 0)")],
       Ok ∅)
  ∧ fetch_pmids default_config (q +:+ "bare" +:+ q) []
    = ([asked "bare";
        Printed ("Error fetching for term: " +:+ q +:+ "bare" +:+ q +:+ nl
                   +:+ "'idlist'")],
       Ok ∅)
  ∧ ∃ w' results',
      query_loop default_config
        [(q +:+ "down" +:+ q, ["down"]); (q +:+ "a" +:+ q, ["a"])] [] []
      = (w', results', None)
      ∧ keys results' = [q +:+ "down" +:+ q; q +:+ "a" +:+ q].
Proof.
  intros S q nl asked. split; [|split; [|split; [|split; [|split]]]].
  - destruct (fetch_pmids_never_raises S default_config (quoted "a") [])
      as (_ & Hok & _).
    eapply Hok; reflexivity.
  - destruct (fetch_pmids_never_raises S default_config (quoted "down") [])
      as (_ & _ & Hfail & _).
    apply (Hfail (RequestException "connection refused")). left. reflexivity.
  - destruct (fetch_pmids_never_raises S default_config (quoted "busy") [])
      as (_ & _ & Hfail & _).
    eapply (Hfail (HTTPError _)). right. eexists. split; [reflexivity|].
    left. reflexivity.
  - destruct (fetch_pmids_never_raises S default_config (quoted "html") [])
      as (_ & _ & Hfail & _).
    eapply (Hfail (JSONDecodeError _)). right. eexists. split; [reflexivity|].
    right. split; [reflexivity|]. left. reflexivity.
  - destruct (fetch_pmids_never_raises S default_config (quoted "bare") [])
      as (_ & _ & Hfail & _).
    apply (Hfail (KeyError "idlist")). right. eexists. split; [reflexivity|].
    right. split; [reflexivity|]. right. eexists. split; [reflexivity|].
    right. eexists. split; [reflexivity|]. left. reflexivity.
  - destruct (fetch_pmids_never_raises S default_config (quoted "down") [])
      as (_ & _ & _ & _ & Hloop).
    destruct (Hloop [(quoted "down", ["down"]); (quoted "a", ["a"])] [])
      as (w' & results' & raised & Hrun & _ & Hdone).
    destruct Hdone as [-> Hkeys]; [by vm_compute|by vm_compute|].
    exists w', results'. split; [exact Hrun|].
    vm_compute in Hrun. injection Hrun as _ <-. reflexivity.
Defined.

(** ** The store and the trace after the loop *)

Lemma calls_app w1 w2 : calls (w1 ++ w2) = calls w1 ++ calls w2.
Proof. unfold calls. apply List.filter_app. Qed.

Lemma files_app w1 w2 : files (w1 ++ w2) = files w1 ++ files w2.
Proof. unfold files. apply flat_map_app. Qed.

Lemma dict_getitem_setitem (d : Dict) k v :
  dict_getitem (dict_setitem d k v) k = Ok v.
Proof.
  induction d as [|[k' v'] d IH]; simpl.
  - by rewrite decide_True.
  - destruct (decide (k = k')) as [->|Hne]; simpl.
    + by rewrite decide_True.
    + by rewrite decide_False.
Qed.

Lemma dict_getitem_setitem_ne (d : Dict) k k' v :
  k ≠ k' → dict_getitem (dict_setitem d k v) k' = dict_getitem d k'.
Proof.
  intros Hne. induction d as [|[k0 v0] d IH]; simpl.
  - by rewrite decide_False.
  - destruct (decide (k = k0)) as [->|Hne0]; simpl.
    + by rewrite !decide_False.
    + by rewrite IH.
Qed.

Lemma dict_setitem_NoDup (d : Dict) (k : string) (v : Entry) :
  NoDup (keys d) → NoDup (keys (dict_setitem d k v)).
Proof.
  intros Hnd. rewrite dict_setitem_keys. destruct (decide (k ∈ keys d)); [done|].
  apply NoDup_app. split; [done|]. split; [|apply NoDup_singleton].
  intros x Hx Hx'. apply list_elem_of_singleton in Hx'. by subst.
Qed.

Lemma seen_NoDup (l seen : list string) :
  NoDup seen →
  NoDup (fold_left (fun seen x => if decide (x ∈ seen) then seen else seen ++ [x])
           l seen).
Proof.
  revert seen. induction l as [|x l IH]; intros seen Hnd; [done|].
  cbn [fold_left]. apply IH. destruct (decide (x ∈ seen)); [done|].
  apply NoDup_app. split; [done|]. split; [|apply NoDup_singleton].
  intros y Hy Hy'. apply list_elem_of_singleton in Hy'. by subst.
Qed.

(** Keeping the first occurrence of every element, by [remove_dups],
    which keeps the last. *)
Lemma seen_first_occurrences (l : list string) :
  fold_left (fun seen x => if decide (x ∈ seen) then seen else seen ++ [x]) l []
  = rev (remove_dups (rev l)).
Proof.
  induction l as [|x l IH] using rev_ind; [done|].
  rewrite fold_left_app, IH, rev_app_distr. cbn [fold_left rev app remove_dups].
  assert (x ∈ rev (remove_dups (rev l)) ↔ x ∈ rev l) as Hsame.
  { rewrite list_elem_of_In, <- in_rev, <- list_elem_of_In.
    apply elem_of_remove_dups. }
  destruct (decide_rel elem_of x (rev l)) as [Hin|Hout].
  - rewrite decide_True; [done|]. by apply Hsame.
  - rewrite decide_False; [done|]. intros Hin. by apply Hsame in Hin.
Qed.

Lemma time_sleep_cases seconds w :
  time_sleep seconds w = (w ++ [Slept seconds], Ok ())
  ∨ ∃ e, time_sleep seconds w = (w, Raise e)
         ∧ (e = ValueError "sleep length must be non-negative"
            ∨ e = OverflowError "timestamp too large to convert to C _PyTime_t").
Proof.
  unfold time_sleep.
  destruct (Qle_bool shortest_sleep seconds && Qle_bool seconds longest_sleep);
    [destruct (Qle_bool 0 seconds)|]; [by left|right..]; eexists; split; eauto.
Qed.

(** Whether the loop stops early or not, the keys stay distinct. *)
Lemma query_loop_NoDup `{Service} cfg all_combos results w w' results' raised :
  NoDup (keys results) →
  query_loop cfg all_combos results w = (w', results', raised) →
  NoDup (keys results').
Proof.
  revert results w. induction all_combos as [|[q c] rest IH]; intros results w Hnd Hrun.
  - cbn [query_loop] in Hrun. by injection Hrun as <- <- <-.
  - cbn [query_loop] in Hrun. destruct (fetch_pmids cfg q w) as [w1 [ids|e]].
    + destruct (time_sleep _ _) as [w2 [[]|e]].
      * eapply IH; [|exact Hrun]. by apply dict_setitem_NoDup.
      * injection Hrun as <- <- <-. by apply dict_setitem_NoDup.
    + by injection Hrun as <- <- <-.
Qed.

(** Whether the loop stops early or not, it leaves alone what the store
    holds for a query it does not search. *)
Lemma query_loop_keeps `{Service} cfg all_combos results w w' results' raised q :
  q ∉ map fst all_combos →
  query_loop cfg all_combos results w = (w', results', raised) →
  dict_getitem results' q = dict_getitem results q.
Proof.
  revert results w. induction all_combos as [|[q' c] rest IH]; intros results w Hq Hrun.
  - cbn [query_loop] in Hrun. by injection Hrun as <- <- <-.
  - cbn [query_loop] in Hrun. cbn [map fst] in Hq.
    apply not_elem_of_cons in Hq as [Hne Hq].
    destruct (fetch_pmids cfg q' w) as [w1 [ids|e]].
    + destruct (time_sleep _ _) as [w2 [[]|e]].
      * rewrite (IH _ _ Hq Hrun). by apply dict_getitem_setitem_ne.
      * injection Hrun as <- <- <-. by apply dict_getitem_setitem_ne.
    + by injection Hrun as <- <- <-.
Qed.

(** Whether the loop stops early or not, every request it adds is the
    request of one of the combinations. *)
Lemma query_loop_requests `{Service} cfg all_combos results w w' results' raised
    url params :
  query_loop cfg all_combos results w = (w', results', raised) →
  Requested url params ∈ w' →
  Requested url params ∈ w
  ∨ ∃ c : Combo, c ∈ all_combos ∧ url = base_url ∧ params = request_params cfg c.1.
Proof.
  revert results w. induction all_combos as [|[q c] rest IH]; intros results w Hrun Hin.
  - cbn [query_loop] in Hrun. injection Hrun as <- <- <-. by left.
  - destruct (query_loop_turn cfg q c rest results w) as (ids & said & _ & Hsaid & Hturn).
    assert (Hturn' := eq_trans (eq_sym Hturn) Hrun). clear Hturn Hrun.
    assert (∀ tail, (tail = [] ∨ tail = [Slept (SLEEP_BETWEEN_CALLS cfg)]) →
              Requested url params
                ∈ (w ++ Requested base_url (request_params cfg q)
                      :: said ++ [Printed ("✓ " +:+ q +:+ " → "
                                            +:+ pretty (len ids) +:+ " results")])
                  ++ tail →
              Requested url params ∈ w
              ∨ ∃ c0 : Combo, c0 ∈ (q, c) :: rest ∧ url = base_url
                              ∧ params = request_params cfg c0.1) as Hhere.
    { intros tail Htail Hev. apply elem_of_app in Hev as [Hev|Hev].
      2: { destruct Htail as [->| ->]; [by apply elem_of_nil in Hev|].
           by apply list_elem_of_singleton in Hev. }
      apply elem_of_app in Hev as [Hev|Hev]; [by left|].
      apply elem_of_cons in Hev as [Hev|Hev].
      - right. injection Hev as -> ->.
        exists (q, c). split; [apply list_elem_of_here|done].
      - exfalso. apply elem_of_app in Hev as [Hev|Hev].
        + destruct Hsaid as [[-> _]|(e & -> & _)]; [by apply elem_of_nil in Hev|].
          by apply list_elem_of_singleton in Hev.
        + by apply list_elem_of_singleton in Hev. }
    destruct (time_sleep_cases (SLEEP_BETWEEN_CALLS cfg)
                (w ++ Requested base_url (request_params cfg q)
                   :: said ++ [Printed ("✓ " +:+ q +:+ " → "
                                         +:+ pretty (len ids) +:+ " results")]))
      as [Hsleep|(e & Hsleep & _)]; rewrite Hsleep in Hturn'.
    + destruct (IH _ _ Hturn' Hin) as [Hbefore|(c0 & Hc0 & Hurl & Hparams)].
      * apply (Hhere [Slept (SLEEP_BETWEEN_CALLS cfg)]); [by right|done].
      * right. exists c0. split; [by apply elem_of_cons; right|done].
    + injection Hturn' as <- <- <-.
      apply (Hhere []); [by left|]. by rewrite app_nil_r.
Qed.

Lemma query_loop_views `{Service} cfg all_combos results w :
  (0 <= SLEEP_BETWEEN_CALLS cfg)%Q → (SLEEP_BETWEEN_CALLS cfg <= longest_sleep)%Q →
  ∃ w' results',
    query_loop cfg all_combos results w = (w', results', None)
    ∧ calls w' = calls w ++ flat_map (call_of cfg) all_combos
    ∧ files w' = files w
    ∧ ∃ tail, w' = w ++ tail.
Proof.
  intros Hlo Hhi.
  revert results w. induction all_combos as [|[q c] rest IH]; intros results w.
  - exists w, results. simpl. rewrite !app_nil_r. repeat split; try done.
    exists []. by rewrite app_nil_r.
  - destruct (query_loop_cons cfg q c rest results w Hlo Hhi)
      as (ids & said & _ & Hsaid & Hstep).
    destruct (IH (dict_setitem results q {| components := c; pmids := ids |})
                 (w ++ Requested base_url (request_params cfg q)
                    :: said ++ [Printed ("✓ " +:+ q +:+ " → "
                                          +:+ pretty (len ids) +:+ " results");
                                Slept (SLEEP_BETWEEN_CALLS cfg)]))
      as (w' & results' & Hrest & Hcalls & Hfiles & tail & ->).
    eexists _, _. split; [exact (eq_trans Hstep Hrest)|].
    rewrite Hcalls, Hfiles, calls_app, files_app.
    split; [|split].
    + cbn [flat_map]. rewrite <- app_assoc. f_equal.
      destruct Hsaid as [[-> _] | (e & -> & _)]; done.
    + destruct Hsaid as [[-> _] | (e & -> & _)]; simpl; by rewrite app_nil_r.
    + eexists. by rewrite <- app_assoc.
Qed.


Lemma query_loop_app `{Service} cfg l1 l2 results w w1 r1 :
  query_loop cfg l1 results w = (w1, r1, None) →
  query_loop cfg (l1 ++ l2) results w = query_loop cfg l2 r1 w1.
Proof.
  revert results w. induction l1 as [|[q c] l1 IH]; intros results w Hrun.
  - cbn [query_loop] in Hrun. by injection Hrun as <- <-.
  - cbn [query_loop app] in Hrun |- *.
    destruct (fetch_pmids cfg q w) as [w2 [ids|e]]; [|done].
    destruct (time_sleep _ _) as [w3 [[]|e]]; [|done].
    by apply IH.
Qed.

Lemma last_occurrence (all_combos : list Combo) q :
  q ∈ map fst all_combos →
  ∃ before c after, all_combos = before ++ (q, c) :: after ∧ q ∉ map fst after.
Proof.
  induction all_combos as [|[q' c'] rest IH]; simpl; intros Hin.
  - by apply elem_of_nil in Hin.
  - destruct (decide (q ∈ map fst rest)) as [Hrest|Hrest].
    + destruct (IH Hrest) as (before & c & after & -> & Hafter).
      by exists ((q', c') :: before), c, after.
    + apply elem_of_cons in Hin as [->|Hin]; [|done].
      by exists [], c', rest.
Qed.

(** The turn that decides what the store holds for a query: the last
    one that searches it. *)
Lemma query_loop_last `{Service} cfg before q c after results w :
  (0 <= SLEEP_BETWEEN_CALLS cfg)%Q → (SLEEP_BETWEEN_CALLS cfg <= longest_sleep)%Q →
  q ∉ map fst after →
  let params := request_params cfg q in
  ∃ w1 results1 w' results' ids said,
    query_loop cfg before results w = (w1, results1, None)
    ∧ query_loop cfg (before ++ (q, c) :: after) results w = (w', results', None)
    ∧ dict_getitem results' q = Ok {| components := c; pmids := ids |}
    ∧ fetch_pmids cfg q w1 = (w1 ++ Requested base_url params :: said, Ok ids)
    ∧ (said = []
       ∧ esearch_idlist (w1 ++ [Requested base_url params]) base_url params = Ok ids
       ∨ ∃ e, said = [fetch_error q e] ∧ ids = ∅
              ∧ esearch_idlist (w1 ++ [Requested base_url params]) base_url params
                = Raise e)
    ∧ ∃ tail, w' = w1 ++ Requested base_url params :: said ++ tail.
Proof.
  intros Hlo Hhi Hafter params.
  destruct (query_loop_views cfg before results w Hlo Hhi) as (w1 & r1 & Hbefore & _).
  destruct (query_loop_cons cfg q c after r1 w1 Hlo Hhi)
    as (ids & said & Hfetch & Hsaid & Hstep).
  fold params in Hfetch, Hsaid, Hstep.
  destruct (query_loop_views cfg after
              (dict_setitem r1 q {| components := c; pmids := ids |})
              (w1 ++ Requested base_url params
                  :: said ++ [Printed ("✓ " +:+ q +:+ " → "
                                        +:+ pretty (len ids) +:+ " results");
                              Slept (SLEEP_BETWEEN_CALLS cfg)]) Hlo Hhi)
    as (w' & results' & Hrest & _ & _ & tail & Hw').
  exists w1, r1, w', results', ids, said.
  split; [done|]. split.
  { rewrite (query_loop_app cfg before _ results w w1 r1 Hbefore).
    exact (eq_trans Hstep Hrest). }
  split.
  { rewrite (query_loop_keeps cfg after _ _ _ _ _ q Hafter Hrest).
    apply dict_getitem_setitem. }
  split; [done|]. split; [done|].
  eexists. rewrite Hw'. rewrite <- !app_assoc. cbn [app].
  by rewrite <- !app_assoc.
Qed.

Lemma dict_getitem_elem (d : Dict) (k : string) (v : Entry) :
  dict_getitem d k = Ok v → (k, v) ∈ d.
Proof.
  induction d as [|[k' v'] d IH]; cbn [dict_getitem]; [done|].
  destruct (decide (k = k')) as [->|Hne].
  - intros [= ->]. apply list_elem_of_here.
  - intros Hget. apply elem_of_cons. right. by apply IH.
Qed.

(** ** The counts reporter *)

Lemma save_term_counts_rows results_dict filename w :
  save_term_counts results_dict filename w
  = w ++ [Wrote filename (counts_header :: map counts_row results_dict)].
Proof.
  unfold save_term_counts. do 2 f_equal.
  change (counts_header :: map counts_row results_dict)
    with ([counts_header] ++ map counts_row results_dict).
  generalize [counts_header].
  induction results_dict as [|[term data] rest IH]; intros written; simpl.
  - by rewrite app_nil_r.
  - rewrite IH. by rewrite <- app_assoc.
Qed.

(** C9, the claim as stated fails.  The store is keyed by the query, so
    a query generated twice has one entry and one row: for the phrases
    a, b and a" AND "b six combinations are generated and five rows
    written, and the row at the place of the third combination shows the
    components of the fourth; for the phrase a given twice, two
    combinations give one row. *)
Lemma fewer_rows_than_combinations :
  let S := Canned.service Canned.answers in
  let long := "a" +:+ quoted " AND " +:+ "b" in
  (∃ combos w' results rows,
     generate_phrase_combinations ["a"; "b"; long] 2 "AND" = Ok combos
     ∧ query_loop default_config combos [] [] = (w', results, None)
     ∧ save_term_counts results "counts.csv" [] = [Wrote "counts.csv" rows]
     ∧ length combos = 6%nat
     ∧ length rows = 6%nat
     ∧ keys results ≠ map fst combos
     ∧ combos !! 2%nat = Some (quoted long, [long])
     ∧ combos !! 3%nat = Some (quoted long, ["a"; "b"])
     ∧ rows !! 3%nat = Some [Str (quoted long); Str "a; b"; Int 0])
  ∧ (∃ combos w' results,
       generate_phrase_combinations ["a"; "a"] 1 "AND" = Ok combos
       ∧ query_loop default_config combos [] [] = (w', results, None)
       ∧ map fst combos = [quoted "a"; quoted "a"]
       ∧ save_term_counts results "counts.csv" []
         = [Wrote "counts.csv"
              [[Str "Search Term"; Str "Component Phrases"; Str "Result Count"];
               [Str (quoted "a"); Str "a"; Int 3]]]).
Proof.
  intros S long. split.
  - let combos := eval vm_compute in
        (flat_map (combos_of_size "AND" ["a"; "b"; long]) (seq 1 2)) in
    let run := eval vm_compute in (query_loop default_config combos [] []) in
    match run with
    | (?w', ?results, _) =>
        let rows := eval vm_compute in
              (counts_header :: map counts_row results) in
        exists combos, w', results, rows
    end.
    split; [by vm_compute|]. split; [by vm_compute|]. split; [by vm_compute|].
    split; [done|]. split; [done|]. split; [|done].
    intros Heq. apply (f_equal length) in Heq. by vm_compute in Heq.
  - let combos := eval vm_compute in
        (flat_map (combos_of_size "AND" ["a"; "a"]) (seq 1 1)) in
    let run := eval vm_compute in (query_loop default_config combos [] []) in
    match run with
    | (?w', ?results, _) => exists combos, w', results
    end.
    split; [by vm_compute|]. split; [by vm_compute|]. split; by vm_compute.
Qed.

(** C9, amended: the counts file is the fixed header followed by one
    row per entry of the store, in the order the store iterates; a row
    holds the query, the component phrases joined by "; " in the order of
    the combination, and the size of the result set.  After a completed
    query loop the store lists the distinct generated queries in the
    order in which each was generated first, and holds for a query the
    components of the last combination generated with it.  When no two
    generated queries are equal, that is one row per combination, in
    generation order, each with the components of its combination. *)
Theorem counts_report_rows (results_dict : Dict) (filename : string) (w : World) :
  save_term_counts results_dict filename w
    = w ++ [Wrote filename
              ([Str "Search Term"; Str "Component Phrases"; Str "Result Count"]
               :: map (fun item : string * Entry =>
                         [Str item.1;
                          Str (Py.join "; " (components item.2));
                          Int (Z.of_nat (size (pmids item.2)))])
                    results_dict)]
  ∧ (Py.join "; " [] = ""
     ∧ (∀ p, Py.join "; " [p] = p)
     ∧ (∀ p p' rest,
          Py.join "; " (p :: p' :: rest) = p +:+ "; " +:+ Py.join "; " (p' :: rest)))
  ∧ (∀ (S : Service) (cfg : Config) (all_combos : list Combo),
       (0 <= SLEEP_BETWEEN_CALLS cfg)%Q →
       (SLEEP_BETWEEN_CALLS cfg <= 9223372036854775807 # 1000000000)%Q →
       ∃ w' results,
         query_loop cfg all_combos [] w = (w', results, None)
         ∧ keys results = rev (remove_dups (rev (map fst all_combos)))
         ∧ NoDup (keys results)
         ∧ (∀ before query combo after,
              all_combos = before ++ (query, combo) :: after →
              query ∉ map fst after →
              ∃ ids, (query, {| components := combo; pmids := ids |}) ∈ results)
         ∧ (NoDup (map fst all_combos) →
            keys results = map fst all_combos
            ∧ map (fun item => components item.2) results = map snd all_combos)).
Proof.
  split; [apply save_term_counts_rows|]. split; [done|].
  intros S cfg all_combos Hlo Hhi.
  destruct (query_loop_ok cfg all_combos [] w Hlo Hhi)
    as (w' & results & Hrun & Hkeys & Hfresh).
  exists w', results. split; [done|].
  assert (NoDup (keys results)) as Hnd.
  { rewrite Hkeys. apply seen_NoDup. constructor. }
  split; [rewrite Hkeys; apply seen_first_occurrences|]. split; [done|]. split.
  { intros before query combo after -> Hafter.
    destruct (query_loop_last cfg before query combo after [] w Hlo Hhi Hafter)
      as (w1 & r1 & w'' & results'' & ids & said & _ & Hrun' & Hget & _).
    assert (Hsame := eq_trans (eq_sym Hrun) Hrun'). injection Hsame as <- <-.
    exists ids. by apply dict_getitem_elem. }
  intros Hdistinct. destruct (Hfresh Hdistinct) as (fetched & Hfst & ->).
  rewrite <- Hfst. unfold keys. cbn [app]. rewrite !map_map. split.
  - apply map_ext. by intros [[??]?].
  - apply map_ext. by intros [[??]?].
Qed.

Lemma counts_report_rows_witness :
  let S := Canned.service Canned.answers in
  let store : Dict :=
    [ ("q1", {| components := ["x"]; pmids := {[ "1"; "2" ]} |});
      ("q2", {| components := ["a"; "b"; "c"]; pmids := ∅ |});
      ("q3", {| components := []; pmids := {[ "7" ]} |}) ] in
  let all_combos : list Combo :=
    [(quoted "a", ["first"]); (quoted "b", ["b"]); (quoted "a", ["second"])] in
  save_term_counts store "counts.csv" []
  = [Wrote "counts.csv"
       [ [Str "Search Term"; Str "Component Phrases"; Str "Result Count"];
         [Str "q1"; Str "x"; Int 2];
         [Str "q2"; Str "a; b; c"; Int 0];
         [Str "q3"; Str ""; Int 1] ]]
  ∧ ∃ w' results ids,
      query_loop default_config all_combos [] [] = (w', results, None)
      ∧ keys results = [quoted "a"; quoted "b"]
      ∧ (quoted "a", {| components := ["second"]; pmids := ids |}) ∈ results.
Proof.
  intros S store all_combos.
  destruct (counts_report_rows store "counts.csv" []) as (Hrows & _ & Hloop).
  split.
  - rewrite Hrows. vm_compute. reflexivity.
  - destruct (Hloop S default_config all_combos)
      as (w' & results & Hrun & Hkeys & _ & Hlast & _);
      [by vm_compute|by vm_compute|].
    destruct (Hlast [(quoted "a", ["first"]); (quoted "b", ["b"])]
                (quoted "a") ["second"] []) as [ids Hids];
      [reflexivity|apply not_elem_of_nil|].
    exists w', results, ids. split; [exact Hrun|]. split; [|exact Hids].
    rewrite Hkeys. vm_compute. reflexivity.
Defined.

(** ** The overlap statistics *)

(** C7: exchanging the two result sets changes neither the shared
    count, nor the union count, nor the rendered Jaccard percentage. *)
Theorem overlap_symmetric (s1 s2 : gset string) :
  len (s1 ∩ s2) = len (s2 ∩ s1)
  ∧ len (s1 ∪ s2) = len (s2 ∪ s1)
  ∧ overlap s1 s2 = overlap s2 s1.
Proof.
  unfold overlap.
  by rewrite (comm_L (∩) s1 s2), (comm_L (∪) s1 s2).
Qed.

(** ** Binary64 division, from the shift-and-round algorithm to a closed form *)

Section rounding.

Lemma iter_pos_nat {A : Type} (f : A → A) (p : positive) (x : A) :
SpecFloat.iter_pos f p x = Nat.iter (Pos.to_nat p) f x.
Proof.
revert x. induction p as [p IH|p IH|]; intros x; cbn [SpecFloat.iter_pos].
- rewrite !IH, Pos2Nat.inj_xI.
  replace (S (2 * Pos.to_nat p)) with (Pos.to_nat p + (Pos.to_nat p + 1))%nat by lia.
  rewrite !Nat.iter_add. reflexivity.
- rewrite !IH, Pos2Nat.inj_xO.
  replace (2 * Pos.to_nat p)%nat with (Pos.to_nat p + Pos.to_nat p)%nat by lia.
  by rewrite Nat.iter_add.
- reflexivity.
Qed.

Lemma position_exact rem den : position rem den = loc_Exact ↔ rem = 0.
Proof.
unfold position. destruct (Z.eqb_spec rem 0); split; intros; done.
Qed.

Lemma represents_start q r den :
0 < den → 0 <= r < den →
represents (shr_record_of_loc q (position r den)) (q * den + r) den.
Proof.
intros Hden Hr. unfold represents.
replace ((q * den + r) / den) with q by (apply Z.div_unique with r; lia).
replace ((q * den + r) mod den) with r by (apply Z.mod_unique with q; lia).
split.
- unfold position. destruct (r =? 0); [done|]. by destruct (2 * r ?= den).
- unfold position. destruct (r =? 0); [done|]. by destruct (2 * r ?= den).
Qed.

Lemma shr_1_represents mrs num den :
0 <= num → 0 < den →
represents mrs num den → represents (shr_1 mrs) num (2 * den).
Proof.
intros Hnum Hden [Hm Hloc].
pose proof (Z.div_pos num den Hnum Hden) as Hq.
pose proof (Z.mod_pos_bound num den Hden) as Hrem.
pose proof (Z.div_mod num den ltac:(lia)) as Hsplit.
set (q := num / den) in *. set (rem := num mod den) in *.
assert (num / (2 * den) = q / 2) as Hdiv.
{ unfold q. rewrite Z.div_div by lia. f_equal. lia. }
assert (num mod (2 * den) = (q mod 2) * den + rem) as Hmod.
{ pose proof (Z.div_mod q 2 ltac:(lia)). pose proof (Z.mod_pos_bound q 2 ltac:(lia)).
  symmetry. apply Z.mod_unique with (q / 2); nia. }
unfold represents. rewrite Hdiv, Hmod.
destruct mrs as [m r s]. cbn [shr_m] in Hm. subst m.
assert (r || s = negb (rem =? 0)) as Hsticky.
{ unfold position in Hloc. destruct (Z.eqb_spec rem 0) as [?|?]; cbn [negb];
    destruct r, s; try done; cbn in Hloc; discriminate. }
pose proof (Z.mod_pos_bound q 2 ltac:(lia)) as Hbit.
pose proof (Z.div_mod q 2 ltac:(lia)) as Hq2.
destruct q as [|p|p]; [| |lia].
- cbn [shr_1 shr_m loc_of_shr_record]. rewrite Hsticky. split; [done|].
  change (0 mod 2) with 0. unfold position. rewrite Z.mul_0_l, Z.add_0_l.
  destruct (Z.eqb_spec rem 0) as [?|?]; cbn [negb]; [done|].
  f_equal. symmetry. apply Z.compare_lt_iff. lia.
- destruct p as [p|p|]; cbn [shr_1 shr_m loc_of_shr_record]; rewrite Hsticky.
  + split; [by rewrite Pos2Z.inj_xI; apply Z.div_unique with 1; lia|].
    replace (Z.pos p~1 mod 2) with 1
      by (rewrite Pos2Z.inj_xI; apply Z.mod_unique with (Z.pos p); lia).
    unfold position.
    destruct (Z.eqb_spec rem 0) as [->|?]; cbn [negb].
    * destruct (Z.eqb_spec (1 * den + 0) 0); [lia|].
      f_equal. symmetry. apply Z.compare_eq_iff. lia.
    * destruct (Z.eqb_spec (1 * den + rem) 0); [lia|].
      f_equal. symmetry. apply Z.compare_gt_iff. lia.
  + split; [by rewrite Pos2Z.inj_xO; apply Z.div_unique with 0; lia|].
    replace (Z.pos p~0 mod 2) with 0
      by (rewrite Pos2Z.inj_xO; apply Z.mod_unique with (Z.pos p); lia).
    unfold position. rewrite Z.mul_0_l, Z.add_0_l.
    destruct (Z.eqb_spec rem 0) as [?|?]; cbn [negb]; [done|].
    f_equal. symmetry. apply Z.compare_lt_iff. lia.
  + split; [done|]. change (1 mod 2) with 1.
    unfold position.
    destruct (Z.eqb_spec rem 0) as [->|?]; cbn [negb].
    * destruct (Z.eqb_spec (1 * den + 0) 0); [lia|].
      f_equal. symmetry. apply Z.compare_eq_iff. lia.
    * destruct (Z.eqb_spec (1 * den + rem) 0); [lia|].
      f_equal. symmetry. apply Z.compare_gt_iff. lia.
Qed.

Lemma shr_represents mrs e n num den :
0 <= num → 0 < den →
represents mrs num den →
represents (shr mrs e n).1 num (den * 2 ^ Z.max 0 n)
∧ (shr mrs e n).2 = e + Z.max 0 n.
Proof.
intros Hnum Hden Hrep. destruct n as [|p|p]; cbn [shr fst snd].
- rewrite Z.max_l by lia. rewrite Z.mul_1_r, Z.add_0_r. done.
- rewrite Z.max_r by lia. split; [|done].
  rewrite iter_pos_nat. rewrite <- (positive_nat_Z p).
  induction (Pos.to_nat p) as [|k IH]; cbn [Nat.iter].
  + by rewrite Z.mul_1_r.
  + rewrite Nat2Z.inj_succ, Z.pow_succ_r by lia.
    replace (den * (2 * 2 ^ Z.of_nat k)) with (2 * (den * 2 ^ Z.of_nat k)) by lia.
    apply shr_1_represents; [done| |done].
    pose proof (Z.pow_pos_nonneg 2 (Z.of_nat k)). lia.
- rewrite Z.max_l by lia. rewrite Z.mul_1_r, Z.add_0_r. done.
Qed.

Lemma round_nearest_even_represents mrs num den :
0 < den →
represents mrs num den →
round_nearest_even (shr_m mrs) (loc_of_shr_record mrs)
= Float.round_half_even num den.
Proof.
intros Hden [-> ->]. unfold Float.round_half_even, position.
pose proof (Z.mod_pos_bound num den Hden).
destruct (Z.eqb_spec (num mod den) 0) as [Hz|Hnz]; cbn [round_nearest_even].
- rewrite Hz. by replace (2 * 0 ?= den) with Lt by (symmetry; apply Z.compare_lt_iff; lia).
- by destruct (2 * (num mod den) ?= den).
Qed.

Lemma new_location_position den r :
0 < den → 0 <= r < den → new_location den r = position r den.
Proof.
intros Hden Hr. unfold new_location, new_location_even, new_location_odd, position.
destruct (Z.even den) eqn:Heven; destruct (Z.eqb_spec r 0) as [?|?]; try done.
f_equal.
assert (2 * r ≠ den) as Hne.
{ intros Heq. rewrite <- Heq, Z.even_mul in Heven. done. }
destruct (Z.compare_spec (2 * r + 1) den), (Z.compare_spec (2 * r) den); try done; lia.
Qed.

Lemma round_half_even_bounds num den :
0 < den → num / den <= Float.round_half_even num den <= num / den + 1.
Proof.
intros Hden. unfold Float.round_half_even.
destruct (2 * (num mod den) ?= den); [destruct (Z.even _)| |]; lia.
Qed.

Lemma binary_round_aux_closed prec emax sx num den e :
0 <= num → 0 < den →
binary_round_aux prec emax sx (num / den) e (position (num mod den) den)
= rounded prec emax sx num den e.
Proof.
intros Hnum Hden. unfold binary_round_aux, rounded, shr_fexp.
pose proof (Z.mod_pos_bound num den Hden) as Hrem.
pose proof (represents_start (num / den) (num mod den) den Hden Hrem) as Hrep.
replace (num / den * den + num mod den) with num in Hrep
  by (rewrite (Z.div_mod num den) at 1; lia).
set (n1 := fexp prec emax (Zdigits2 (num / den) + e) - e).
destruct (shr_represents _ e n1 num den Hnum Hden Hrep) as [Hrep1 He1].
destruct (shr _ e n1) as [mrs1 e1]. cbn [fst snd] in Hrep1, He1. subst e1.
assert (0 < den * 2 ^ Z.max 0 n1) as Hden1.
{ pose proof (Z.pow_pos_nonneg 2 (Z.max 0 n1)). lia. }
rewrite (round_nearest_even_represents _ _ _ Hden1 Hrep1).
set (m2 := Float.round_half_even num (den * 2 ^ Z.max 0 n1)).
assert (0 <= m2) as Hm2.
{ pose proof (round_half_even_bounds num (den * 2 ^ Z.max 0 n1) Hden1).
  pose proof (Z.div_pos num (den * 2 ^ Z.max 0 n1)). fold m2 in H. lia. }
assert (represents (shr_record_of_loc m2 loc_Exact) m2 1) as Hrep2.
{ split; cbn; [by rewrite Z.div_1_r|]. by rewrite Z.mod_1_r. }
set (n2 := fexp prec emax (Zdigits2 m2 + (e + Z.max 0 n1)) - (e + Z.max 0 n1)).
destruct (shr_represents _ (e + Z.max 0 n1) n2 m2 1 Hm2 ltac:(lia) Hrep2) as [[Hm3 _] He2].
destruct (shr _ (e + Z.max 0 n1) n2) as [mrs2 e2]. cbn [fst snd] in Hm3, He2. subst e2.
rewrite Hm3, Z.mul_1_l. reflexivity.
Qed.

Lemma SFdiv_closed prec emax (a b : positive) :
SFdiv prec emax (S754_finite false a 0) (S754_finite false b 0)
= let e := Z.min (fexp prec emax (Zdigits2 (Z.pos a) - Zdigits2 (Z.pos b))) 0 in
  rounded prec emax false (Z.pos a * 2 ^ (- e)) (Z.pos b) e.
Proof.
cbn zeta. unfold SFdiv, SFdiv_core_binary.
rewrite !Z.add_0_r, Z.sub_diag.
set (e := Z.min (fexp prec emax (Zdigits2 (Z.pos a) - Zdigits2 (Z.pos b))) 0).
assert (e <= 0) as He by (unfold e; lia).
assert (match 0 - e with
        | 0 => Z.pos a
        | Z.pos _ => Z.shiftl (Z.pos a) (0 - e)
        | Z.neg _ => 0
        end = Z.pos a * 2 ^ (- e)) as ->.
{ destruct (0 - e) as [|p|p] eqn:Hs.
  - replace (- e) with 0 by lia. lia.
  - rewrite Z.shiftl_mul_pow2 by lia. do 2 f_equal. lia.
  - lia. }
set (num := Z.pos a * 2 ^ (- e)).
assert (0 <= num) as Hnum.
{ pose proof (Z.pow_pos_nonneg 2 (- e)). unfold num. lia. }
assert (Z.div_eucl num (Z.pos b) = (num / Z.pos b, num mod Z.pos b)) as ->.
{ unfold Z.div, Z.modulo. by destruct (Z.div_eucl num (Z.pos b)). }
rewrite new_location_position by (pose proof (Z.mod_pos_bound num (Z.pos b)); lia).
apply binary_round_aux_closed; lia.
Qed.

End rounding.

(** ** Percentages as binary64 values *)

Lemma digits_bounds (p : positive) :
  2 ^ (Zdigits2 (Z.pos p) - 1) <= Z.pos p < 2 ^ Zdigits2 (Z.pos p).
Proof.
  cbn [Zdigits2]. induction p as [p IH|p IH|]; cbn [digits2_pos].
  - rewrite Pos2Z.inj_succ. pose proof (Pos2Z.inj_xI p).
    replace (Z.succ (Z.pos (digits2_pos p)) - 1) with (Z.succ (Z.pos (digits2_pos p) - 1)) by lia.
    rewrite !Z.pow_succ_r by lia. lia.
  - rewrite Pos2Z.inj_succ. pose proof (Pos2Z.inj_xO p).
    replace (Z.succ (Z.pos (digits2_pos p)) - 1) with (Z.succ (Z.pos (digits2_pos p) - 1)) by lia.
    rewrite !Z.pow_succ_r by lia. lia.
  - done.
Qed.

Lemma digits_nonneg n : 0 <= n → 0 <= Zdigits2 n.
Proof. destruct n; cbn; lia. Qed.

Lemma digits_upper n k : 0 <= k → 0 <= n < 2 ^ k → Zdigits2 n <= k.
Proof.
  intros Hk [Hn Hlt]. destruct n as [|p|p]; [done| |lia].
  pose proof (digits_bounds p) as [Hlo _].
  destruct (Z.le_gt_cases (Zdigits2 (Z.pos p)) k) as [|Hgt]; [done|].
  pose proof (Z.pow_le_mono_r 2 k (Zdigits2 (Z.pos p) - 1)). lia.
Qed.

Lemma digits_lower n k : 0 <= k → 2 ^ k <= n → k < Zdigits2 n.
Proof.
  intros Hk Hle. pose proof (Z.pow_pos_nonneg 2 k).
  destruct n as [|p|p]; [lia| |lia].
  pose proof (digits_bounds p) as [_ Hhi].
  destruct (Z.lt_ge_cases k (Zdigits2 (Z.pos p))) as [|Hge]; [done|].
  pose proof (Z.pow_le_mono_r 2 (Zdigits2 (Z.pos p)) k).
  pose proof (digits_nonneg (Z.pos p)). lia.
Qed.

Lemma fexp64 x : fexp Float.prec Float.emax x = Z.max (x - 53) (-1074).
Proof. reflexivity. Qed.

Lemma round_half_even_le num den c :
  0 < den → num <= c * den → Float.round_half_even num den <= c.
Proof.
  intros Hden Hle. unfold Float.round_half_even.
  pose proof (Z.div_mod num den ltac:(lia)) as Hsplit.
  pose proof (Z.mod_pos_bound num den Hden) as Hrem.
  assert (num / den <= c) as Hq by (apply Z.div_le_upper_bound; lia).
  destruct (Z.eq_dec (num / den) c) as [Heq|Hne].
  - assert (num mod den = 0) as -> by nia.
    replace (2 * 0 ?= den) with Lt by (symmetry; apply Z.compare_lt_iff; lia). done.
  - destruct (2 * (num mod den) ?= den); [destruct (Z.even _)| |]; lia.
Qed.

Lemma round_half_even_nonneg num den :
  0 <= num → 0 < den → 0 <= Float.round_half_even num den.
Proof.
  intros Hnum Hden. pose proof (round_half_even_bounds num den Hden).
  pose proof (Z.div_pos num den). lia.
Qed.

Lemma pow2_split x y : 0 <= x → 0 <= y → 2 ^ (x + y) = 2 ^ x * 2 ^ y.
Proof. intros. by apply Z.pow_add_r. Qed.

Lemma percent_digits m k : 0 <= k → 0 <= m <= 100 * 2 ^ k → Zdigits2 m <= 7 + k.
Proof.
  intros Hk Hm. apply digits_upper; [lia|].
  rewrite pow2_split by lia. pose proof (Z.pow_pos_nonneg 2 k).
  change (2 ^ 7) with 128. lia.
Qed.

Lemma rounded_percent num den e :
  0 <= num → 0 < den → e <= 0 → num <= 100 * den * 2 ^ (- e) →
  percent_float (rounded Float.prec Float.emax false num den e).
Proof.
  intros Hnum Hden He Hle. unfold rounded. rewrite !fexp64.
  pose proof (Z.pow_pos_nonneg 2 (- e) ltac:(lia) ltac:(lia)) as Hpe.
  assert (0 <= num / den <= 100 * 2 ^ (- e)) as Hq.
  { split; [by apply Z.div_pos|]. apply Z.div_le_upper_bound; lia. }
  pose proof (percent_digits (num / den) (- e) ltac:(lia) Hq) as Hdq.
  set (n1 := Z.max 0 (Z.max (Zdigits2 (num / den) + e - 53) (-1074) - e)).
  set (e1 := e + n1).
  assert (0 <= n1) as Hn1 by (unfold n1; lia).
  assert (e1 <= 0) as He1 by (unfold e1, n1; lia).
  pose proof (Z.pow_pos_nonneg 2 n1 ltac:(lia) Hn1) as Hpn1.
  pose proof (Z.pow_pos_nonneg 2 (- e1) ltac:(lia) ltac:(lia)) as Hpe1.
  assert (2 ^ (- e) = 2 ^ (- e1) * 2 ^ n1) as Hsplit1.
  { rewrite <- pow2_split by lia. f_equal. unfold e1. lia. }
  set (m2 := Float.round_half_even num (den * 2 ^ n1)).
  assert (0 <= m2 <= 100 * 2 ^ (- e1)) as Hm2.
  { split; [apply round_half_even_nonneg; nia|].
    apply round_half_even_le; [nia|]. rewrite Hsplit1 in Hle. nia. }
  pose proof (percent_digits m2 (- e1) ltac:(lia) Hm2) as Hdm2.
  set (n2 := Z.max 0 (Z.max (Zdigits2 m2 + e1 - 53) (-1074) - e1)).
  assert (0 <= n2) as Hn2 by (unfold n2; lia).
  assert (e1 + n2 <= 0) as He2 by (unfold n2; lia).
  pose proof (Z.pow_pos_nonneg 2 n2 ltac:(lia) Hn2) as Hpn2.
  pose proof (Z.pow_pos_nonneg 2 (- (e1 + n2)) ltac:(lia) ltac:(lia)) as Hpe2.
  assert (2 ^ (- e1) = 2 ^ (- (e1 + n2)) * 2 ^ n2) as Hsplit2.
  { rewrite <- pow2_split by lia. f_equal. lia. }
  assert (0 <= m2 / 2 ^ n2 <= 100 * 2 ^ (- (e1 + n2))) as Hm3.
  { split; [apply Z.div_pos; lia|]. apply Z.div_le_upper_bound; [lia|].
    rewrite Hsplit2 in Hm2. nia. }
  destruct (m2 / 2 ^ n2) as [|m|m] eqn:Hm; [by left| |lia].
  right. exists m, (e1 + n2).
  replace (e1 + n2 <=? Float.emax - Float.prec) with true; [split; [done|lia]|].
  symmetry. apply Z.leb_le. unfold Float.emax, Float.prec. lia.
Qed.

Lemma true_divide_percent (shared union : Z) :
  0 <= shared <= union → 0 < union →
  ∃ x, Float.true_divide (100 * shared) union = Ok x ∧ percent_float x.
Proof.
  intros Hs Hu. unfold Float.true_divide.
  destruct (Z.eqb_spec union 0) as [?|_]; [lia|].
  destruct union as [|b|b]; [lia| |lia].
  destruct (100 * shared) as [|a|a] eqn:Ha; [| |lia].
  - exists (S754_zero false). split; [done|]. by left.
  - cbn [Float.exact]. rewrite SFdiv_closed. cbn zeta. rewrite fexp64.
    set (e := Z.min _ 0).
    assert (e <= 0) as He by (unfold e; lia).
    pose proof (Z.pow_pos_nonneg 2 (- e) ltac:(lia) ltac:(lia)) as Hpe.
    pose proof (rounded_percent (Z.pos a * 2 ^ (- e)) (Z.pos b) e
                  ltac:(lia) ltac:(lia) He ltac:(nia)) as Hp.
    destruct Hp as [->|(m & e' & -> & Hp)].
    + exists (S754_zero false). split; [done|]. by left.
    + exists (S754_finite false m e'). split; [done|]. right. eauto.
Qed.

Lemma digits_unique n d :
  0 < d → 2 ^ (d - 1) <= n < 2 ^ d → Zdigits2 n = d.
Proof.
  intros Hd [Hlo Hhi]. pose proof (Z.pow_pos_nonneg 2 (d - 1) ltac:(lia) ltac:(lia)).
  pose proof (digits_upper n d ltac:(lia) ltac:(lia)).
  pose proof (digits_lower n (d - 1) ltac:(lia) Hlo). lia.
Qed.

Lemma round_half_even_exact c den :
  0 < den → Float.round_half_even (c * den) den = c.
Proof.
  intros Hden. unfold Float.round_half_even.
  rewrite Z.div_mul, Z.mod_mul by lia.
  by replace (2 * 0 ?= den) with Lt by (symmetry; apply Z.compare_lt_iff; lia).
Qed.

Lemma round_half_even_nearest num den :
  0 < den → Z.abs (2 * Float.round_half_even num den * den - 2 * num) <= den.
Proof.
  intros Hden. unfold Float.round_half_even.
  pose proof (Z.div_mod num den ltac:(lia)) as Hsplit.
  pose proof (Z.mod_pos_bound num den Hden) as Hrem.
  destruct (Z.compare_spec (2 * (num mod den)) den); [destruct (Z.even _)| |]; nia.
Qed.

(** Dividing [100 * n] by [n] gives exactly 100. *)
Lemma true_divide_whole (n : Z) :
  0 < n →
  Float.true_divide (100 * n) n = Ok (S754_finite false (Z.to_pos (100 * 2 ^ 46)) (-46)).
Proof.
  intros Hn. unfold Float.true_divide.
  destruct (Z.eqb_spec n 0) as [?|_]; [lia|].
  destruct n as [|b|b]; [lia| |lia].
  change (100 * Z.pos b) with (Z.pos (100 * b)). cbn [Float.exact].
  rewrite SFdiv_closed. cbn zeta. unfold rounded. rewrite !fexp64.
  pose proof (digits_bounds b) as [Hblo Hbhi].
  pose proof (digits_nonneg (Z.pos b) ltac:(lia)) as Hdb0.
  set (db := Zdigits2 (Z.pos b)) in *.
  assert (0 < db) as Hdb by (destruct (Z.eq_dec db 0) as [Hz|]; [rewrite Hz in Hbhi; cbn in Hbhi|]; lia).
  assert (db + 6 <= Zdigits2 (Z.pos (100 * b)) <= db + 7) as Hda.
  { split.
    - assert (2 ^ (db + 5) <= Z.pos (100 * b)) as Hlo.
      { replace (db + 5) with ((db - 1) + 6) by lia.
        rewrite pow2_split by lia. change (2 ^ 6) with 64. lia. }
      pose proof (digits_lower _ (db + 5) ltac:(lia) Hlo). lia.
    - apply digits_upper; [lia|]. rewrite pow2_split by lia.
      change (2 ^ 7) with 128. lia. }
  set (da := Zdigits2 (Z.pos (100 * b))) in *.
  replace (Z.min (Z.max (da - db - 53) (-1074)) 0) with (da - db - 53) by lia.
  set (e := da - db - 53).
  pose proof (Z.pow_pos_nonneg 2 (- e) ltac:(lia) ltac:(lia)) as Hpe.
  assert (Z.pos (100 * b) * 2 ^ (- e) = (100 * 2 ^ (- e)) * Z.pos b) as Hnum by lia.
  rewrite Hnum, Z.div_mul by lia.
  assert (Zdigits2 (100 * 2 ^ (- e)) = 7 + - e) as ->.
  { apply digits_unique; [lia|]. replace (7 + - e - 1) with (6 + - e) by lia.
    rewrite !pow2_split by lia. change (2 ^ 6) with 64. change (2 ^ 7) with 128. lia. }
  replace (Z.max 0 (Z.max (7 + - e + e - 53) (-1074) - e)) with (- 46 - e) by lia.
  assert (2 ^ (- e) = 2 ^ 46 * 2 ^ (- 46 - e)) as Hsplit.
  { rewrite <- pow2_split by lia. f_equal. lia. }
  replace (100 * 2 ^ (- e) * Z.pos b)
    with ((100 * 2 ^ 46) * (Z.pos b * 2 ^ (-46 - e))) by (rewrite Hsplit; lia).
  rewrite round_half_even_exact
    by (pose proof (Z.pow_pos_nonneg 2 (-46 - e) ltac:(lia) ltac:(lia)); lia).
  replace (e + (-46 - e)) with (-46) by lia.
  reflexivity.
Qed.

Lemma digits_bounds_Z n :
  0 < n → 2 ^ (Zdigits2 n - 1) <= n < 2 ^ Zdigits2 n.
Proof. intros Hn. destruct n as [|p|p]; [lia| |lia]. apply digits_bounds. Qed.

(** Below 2^41 the quotient is a normal binary64 number, within half a
    unit in the last place of the exact percentage. *)
Lemma true_divide_nearest (shared union : Z) :
  1 <= shared <= union → union <= 2 ^ 41 →
  ∃ m e,
    Float.true_divide (100 * shared) union = Ok (S754_finite false m e)
    ∧ e <= 0
    ∧ 2 ^ 52 <= Z.pos m
    ∧ Z.abs (2 * Z.pos m * union - 200 * shared * 2 ^ (- e)) <= union.
Proof.
  intros Hs Hu. unfold Float.true_divide.
  destruct (Z.eqb_spec union 0) as [?|_]; [lia|].
  destruct union as [|b|b]; [lia| |lia].
  destruct (100 * shared) as [|a|a] eqn:Ha; [lia| |lia].
  assert (Z.pos a <= 100 * Z.pos b) as Hab by lia.
  assert (100 <= Z.pos a) as Ha100 by lia.
  cbn [Float.exact]. rewrite SFdiv_closed. cbn zeta. unfold rounded. rewrite !fexp64.
  pose proof (digits_bounds a) as [Halo Hahi].
  pose proof (digits_bounds b) as [Hblo Hbhi].
  set (da := Zdigits2 (Z.pos a)) in *. set (db := Zdigits2 (Z.pos b)) in *.
  assert (6 < da) as Hda6 by (apply digits_lower; [lia|]; change (2 ^ 6) with 64; lia).
  assert (0 < db) as Hdb.
  { pose proof (digits_nonneg (Z.pos b) ltac:(lia)). fold db in H.
    destruct (Z.eq_dec db 0) as [Hz|]; [rewrite Hz in Hbhi; cbn in Hbhi|]; lia. }
  assert (db <= 42) as Hdb42.
  { apply digits_upper; [lia|]. change (2 ^ 42) with (2 * 2 ^ 41). lia. }
  assert (da <= db + 7) as Hda7.
  { apply digits_upper; [lia|]. rewrite pow2_split by lia.
    change (2 ^ 7) with 128. lia. }
  replace (Z.min (Z.max (da - db - 53) (-1074)) 0) with (da - db - 53) by lia.
  set (e := da - db - 53).
  pose proof (Z.pow_pos_nonneg 2 (- e) ltac:(lia) ltac:(lia)) as Hpe.
  set (num := Z.pos a * 2 ^ (- e)).
  assert (2 ^ 52 * Z.pos b <= num < 2 ^ 54 * Z.pos b) as Hnum.
  { unfold num. split.
    - assert (2 ^ (da - 1) * 2 ^ (- e) = 2 ^ 52 * 2 ^ db) as Heq.
      { rewrite <- !pow2_split by lia. f_equal. unfold e. lia. }
      nia.
    - assert (2 ^ da * 2 ^ (- e) = 2 ^ 54 * 2 ^ (db - 1)) as Heq.
      { rewrite <- !pow2_split by lia. f_equal. unfold e. lia. }
      nia. }
  assert (2 ^ 52 <= num / Z.pos b < 2 ^ 54) as Hq.
  { split; [apply Z.div_le_lower_bound; lia|apply Z.div_lt_upper_bound; lia]. }
  pose proof (digits_bounds_Z (num / Z.pos b) ltac:(lia)) as Hqd.
  assert (52 < Zdigits2 (num / Z.pos b) <= 54) as Hdq.
  { split; [apply digits_lower; lia|apply digits_upper; lia]. }
  set (q := num / Z.pos b) in *. set (dq := Zdigits2 q) in *.
  replace (Z.max 0 (Z.max (dq + e - 53) (-1074) - e)) with (dq - 53) by lia.
  set (n1 := dq - 53).
  assert (0 <= n1 <= 1) as Hn1 by (unfold n1; lia).
  pose proof (Z.pow_pos_nonneg 2 n1 ltac:(lia) ltac:(lia)) as Hpn1.
  set (m2 := Float.round_half_even num (Z.pos b * 2 ^ n1)).
  assert (num / (Z.pos b * 2 ^ n1) = q / 2 ^ n1) as Hm1.
  { unfold q. by rewrite Z.div_div by lia. }
  assert (2 ^ 52 <= q / 2 ^ n1 < 2 ^ 53) as Hm1b.
  { assert (2 ^ dq = 2 ^ 53 * 2 ^ n1) as Hd1.
    { rewrite <- pow2_split by lia. f_equal. unfold n1. lia. }
    assert (2 ^ (dq - 1) = 2 ^ 52 * 2 ^ n1) as Hd0.
    { rewrite <- pow2_split by lia. f_equal. unfold n1. lia. }
    split; [apply Z.div_le_lower_bound; lia|apply Z.div_lt_upper_bound; lia]. }
  pose proof (round_half_even_bounds num (Z.pos b * 2 ^ n1) ltac:(lia)) as Hm2.
  fold m2 in Hm2. rewrite Hm1 in Hm2.
  pose proof (round_half_even_nearest num (Z.pos b * 2 ^ n1) ltac:(lia)) as Hnear.
  fold m2 in Hnear.
  assert (0 <= - (e + n1)) as He1 by (unfold e, n1; lia).
  pose proof (Z.pow_pos_nonneg 2 (- (e + n1)) ltac:(lia) He1) as Hpe1.
  assert (2 ^ (- e) = 2 ^ (- (e + n1)) * 2 ^ n1) as Hsplit.
  { rewrite <- pow2_split by lia. f_equal. lia. }
  assert (Z.abs (2 * m2 * Z.pos b - 2 * Z.pos a * 2 ^ (- (e + n1))) <= Z.pos b) as Hhalf.
  { unfold num in Hnear. rewrite Hsplit in Hnear. nia. }
  clearbody m2. clear Hnear Hm1 Hnum.
  destruct (Z.eq_dec m2 (2 ^ 53)) as [->|Hne].
  - change (Zdigits2 (2 ^ 53)) with 54.
    replace (Z.max 0 (Z.max (54 + (e + n1) - 53) (-1074) - (e + n1))) with 1 by lia.
    change (2 ^ 53 / 2 ^ 1) with (Z.pos (Z.to_pos (2 ^ 52))).
    replace (e + n1 + 1 <=? Float.emax - Float.prec) with true
      by (symmetry; apply Z.leb_le; unfold Float.emax, Float.prec; lia).
    eexists _, _. split; [reflexivity|]. split; [lia|]. split; [done|].
    assert (2 ^ (- (e + n1)) = 2 * 2 ^ (- (e + n1 + 1))) as Hstep.
    { rewrite <- Z.pow_succ_r by lia. f_equal. lia. }
    rewrite Hstep in Hhalf. change (Z.pos (Z.to_pos (2 ^ 52))) with (2 ^ 52).
    change (2 ^ 53) with (2 * 2 ^ 52) in Hhalf. lia.
  - assert (Zdigits2 m2 = 53) as ->.
    { apply digits_unique; [lia|]. change (53 - 1) with 52. lia. }
    replace (Z.max 0 (Z.max (53 + (e + n1) - 53) (-1074) - (e + n1))) with 0 by lia.
    rewrite Z.pow_0_r, Z.div_1_r, Z.add_0_r.
    destruct m2 as [|m|m]; [lia| |lia].
    replace (e + n1 <=? Float.emax - Float.prec) with true
      by (symmetry; apply Z.leb_le; unfold Float.emax, Float.prec; lia).
    exists m, (e + n1). split; [done|]. split; [lia|]. split; [lia|]. lia.
Qed.

(** ** The Jaccard cell *)

Lemma tenths_nonpos m e :
  e <= 0 → Float.tenths m e = Float.round_half_even (10 * Z.pos m) (2 ^ (- e)).
Proof.
  intros He. unfold Float.tenths. destruct (Z.leb_spec 0 e) as [H0|_]; [|done].
  assert (e = 0) as -> by lia. change (2 ^ (- 0)) with 1. change (2 ^ 0) with 1.
  pose proof (round_half_even_exact (10 * Z.pos m) 1 ltac:(lia)) as Hex.
  rewrite Z.mul_1_r in Hex. rewrite Hex. lia.
Qed.

Lemma percent_tenths x :
  percent_float x →
  0 <= Float.tenths_of x <= 1000
  ∧ Float.format_1f x = Float.fixed1 false (Float.tenths_of x).
Proof.
  intros [->|(m & e & -> & He & Hm)]; [done|].
  cbn [Float.tenths_of Float.format_1f]. split; [|done].
  rewrite tenths_nonpos by done.
  pose proof (Z.pow_pos_nonneg 2 (- e) ltac:(lia) ltac:(lia)).
  split; [apply round_half_even_nonneg; lia|apply round_half_even_le; lia].
Qed.

Lemma len_shared_union (s1 s2 : gset string) :
  0 <= len (s1 ∩ s2) <= len (s1 ∪ s2).
Proof.
  unfold len. pose proof (subseteq_size (s1 ∩ s2) (s1 ∪ s2)) as Hle.
  split; [lia|]. apply inj_le, Hle.
  etrans; [apply intersection_subseteq_l|apply union_subseteq_l].
Qed.

Lemma intersection_self (s : gset string) : s ∩ s = s.
Proof. apply (idemp_L (∩)). Qed.

Lemma union_self (s : gset string) : s ∪ s = s.
Proof. apply (idemp_L (∪)). Qed.

Lemma len_positive (s : gset string) : s ≠ ∅ ↔ 0 < len s.
Proof.
  unfold len. split.
  - intros Hne. destruct (size s) eqn:Hsz; [|lia].
    apply size_empty_inv in Hsz. by apply leibniz_equiv in Hsz.
  - intros Hpos ->. rewrite size_empty in Hpos. lia.
Qed.

Lemma overlap_cells (s1 s2 : gset string) :
  overlap s1 s2
  = Ok [Int (len (s1 ∩ s2)); Int (len (s1 ∪ s2));
        Str (Float.fixed1 false (jaccard_tenths s1 s2))]
  ∧ 0 <= jaccard_tenths s1 s2 <= 1000.
Proof.
  unfold overlap, jaccard_tenths.
  destruct (bool_decide_reflect (s1 ∪ s2 ≠ ∅)) as [Hne|_]; [|done].
  apply len_positive in Hne.
  destruct (true_divide_percent _ _ (len_shared_union s1 s2) Hne) as (x & -> & Hx).
  destruct (percent_tenths x Hx) as [Hbound Hfmt].
  cbn. by rewrite Hfmt.
Qed.

Lemma fixed1_unsigned n :
  Float.fixed1 false n = pretty (n / 10) +:+ "." +:+ pretty (n mod 10).
Proof. reflexivity. Qed.

Lemma tenths_nearest (shared union : Z) m e :
  1 <= shared <= union → union <= 2 ^ 41 →
  e <= 0 → 2 ^ 52 <= Z.pos m <= 100 * 2 ^ (- e) →
  Z.abs (2 * Z.pos m * union - 200 * shared * 2 ^ (- e)) <= union →
  Z.abs (2 * Float.tenths m e * union - 2000 * shared) <= union.
Proof.
  intros Hs Hu He Hm Hhalf. rewrite tenths_nonpos by done.
  pose proof (Z.pow_pos_nonneg 2 (- e) ltac:(lia) ltac:(lia)) as Hp.
  pose proof (round_half_even_nearest (10 * Z.pos m) (2 ^ (- e)) Hp) as Hnear.
  set (t := Float.round_half_even (10 * Z.pos m) (2 ^ (- e))) in *.
  set (P := 2 ^ (- e)) in *.
  assert (10 * union < P) as Hbig.
  { change (2 ^ 52) with 4503599627370496 in Hm.
    change (2 ^ 41) with 2199023255552 in Hu. lia. }
  assert (P * (2 * t * union - 2000 * shared)
          = union * (2 * t * P - 2 * (10 * Z.pos m))
            + 10 * (2 * Z.pos m * union - 200 * shared * P)) as Hid by ring.
  assert (Z.abs (P * (2 * t * union - 2000 * shared)) <= union * P + 10 * union) as Hsum.
  { rewrite Hid. nia. }
  rewrite Z.abs_mul, (Z.abs_eq P) in Hsum by lia.
  nia.
Qed.

(** C3: the last cell of an overlap row prints [100 * shared / union],
    or 0 for an empty union, in tenths with one decimal digit.  The
    printed value lies between 0.0 and 100.0, it is within 0.05 of the
    exact percentage, it is 100.0 for two equal non-empty sets and 0.0
    for disjoint sets and for two empty sets. *)
Theorem jaccard_percentage (s1 s2 : gset string) :
  let shared := len (s1 ∩ s2) in
  let union := len (s1 ∪ s2) in
  let tenths := jaccard_tenths s1 s2 in
  overlap s1 s2
    = Ok [Int shared; Int union;
          Str (pretty (tenths / 10) +:+ "." +:+ pretty (tenths mod 10))]
  ∧ (union = 0 → tenths = 0)
  ∧ (0 < union →
       ∃ x, Float.true_divide (100 * shared) union = Ok x
            ∧ percent_float x
            ∧ tenths = Float.tenths_of x)
  ∧ (0 < union <= 2 ^ 41 → Z.abs (2 * tenths * union - 2000 * shared) <= union)
  ∧ 0 <= tenths <= 1000
  ∧ (s1 = s2 → s1 ≠ ∅ → tenths = 1000)
  ∧ (s1 ∩ s2 = ∅ → tenths = 0)
  ∧ (s1 = ∅ → s2 = ∅ → tenths = 0).
Proof.
  intros shared union tenths.
  destruct (overlap_cells s1 s2) as [Hcells Hbound].
  pose proof (len_shared_union s1 s2) as Hle. fold shared union in Hle.
  assert (0 < union →
          ∃ x, Float.true_divide (100 * shared) union = Ok x
               ∧ percent_float x ∧ tenths = Float.tenths_of x) as Hfloat.
  { intros Hpos. destruct (true_divide_percent shared union Hle Hpos) as (x & Hx & Hp).
    exists x. split; [done|]. split; [done|].
    unfold tenths, jaccard_tenths. fold shared union.
    rewrite bool_decide_eq_true_2 by by apply len_positive. by rewrite Hx. }
  assert (shared = 0 → tenths = 0) as Hzero.
  { intros Hz. unfold tenths, jaccard_tenths. fold shared union. rewrite Hz.
    destruct (bool_decide _); [|done].
    unfold Float.true_divide. by destruct (union =? 0), union. }
  split; [by rewrite <- fixed1_unsigned|].
  split.
  { intros Hz. unfold tenths, jaccard_tenths.
    rewrite bool_decide_eq_false_2; [done|].
    intros Hne. apply len_positive in Hne. fold union in Hne. lia. }
  split; [done|]. split.
  { intros [Hpos Hsmall].
    destruct (Z.eq_dec shared 0) as [Hz|Hnz]; [rewrite (Hzero Hz), Hz; lia|].
    destruct (true_divide_nearest shared union ltac:(lia) Hsmall)
      as (m & e & Hx & He & Hm & Hhalf).
    destruct (Hfloat Hpos) as (x & Hx' & Hp & ->).
    rewrite Hx in Hx'. injection Hx' as <-.
    destruct Hp as [?|(m' & e' & [= <- <-] & _ & Hm')]; [done|].
    cbn [Float.tenths_of]. apply tenths_nearest; try done; lia. }
  split; [done|]. split.
  { intros <- Hne. unfold tenths, jaccard_tenths.
    rewrite intersection_self, union_self.
    rewrite bool_decide_eq_true_2 by done.
    by rewrite true_divide_whole by by apply len_positive. }
  split.
  { intros Hdisj. apply Hzero. unfold shared. by rewrite Hdisj. }
  intros -> ->. apply Hzero. unfold shared.
  by rewrite intersection_self.
Qed.

Lemma jaccard_percentage_witness :
  overlap {[ "1"; "2"; "3" ]} {[ "2"; "3"; "4" ]} = Ok [Int 2; Int 4; Str "50.0"]
  ∧ jaccard_tenths {[ "7" ]} {[ "7" ]} = 1000
  ∧ jaccard_tenths {[ "1" ]} {[ "2" ]} = 0
  ∧ jaccard_tenths ∅ ∅ = 0.
Proof.
  split; [|split; [|split]].
  - destruct (jaccard_percentage {[ "1"; "2"; "3" ]} {[ "2"; "3"; "4" ]}) as (Hrow & _).
    rewrite Hrow. vm_compute. reflexivity.
  - destruct (jaccard_percentage {[ "7" ]} {[ "7" ]}) as (_ & _ & _ & _ & _ & Hsame & _).
    apply Hsame; [reflexivity|]. apply (bool_decide_unpack _). vm_compute. exact I.
  - destruct (jaccard_percentage {[ "1" ]} {[ "2" ]}) as (_ & _ & _ & _ & _ & _ & Hdisj & _).
    apply Hdisj. apply (bool_decide_unpack _). vm_compute. exact I.
  - destruct (jaccard_percentage ∅ ∅) as (_ & _ & _ & _ & _ & _ & _ & Hempty).
    by apply Hempty.
Defined.

(** ** Combinations *)

Section subsequences.
Context {A : Type}.
Implicit Types (pool c : list A) (r : nat).

Lemma subsequences_cons x pool r :
Py.subsequences (x :: pool) (S r)
= map (cons x) (Py.subsequences pool r) ++ Py.subsequences pool (S r).
Proof. reflexivity. Qed.

Lemma subsequences_0 pool : Py.subsequences pool 0 = [[]].
Proof. by destruct pool. Qed.

Lemma subsequences_elem pool r c :
c ∈ Py.subsequences pool r → length c = r ∧ c `sublist_of` pool.
Proof.
revert r c. induction pool as [|x pool IH]; intros [|r] c Hc.
- apply list_elem_of_singleton in Hc as ->. split; [done|constructor].
- inversion Hc.
- apply list_elem_of_singleton in Hc as ->. split; [done|apply sublist_nil_l].
- rewrite subsequences_cons in Hc. apply elem_of_app in Hc as [Hc|Hc].
  + apply list_elem_of_fmap in Hc as (c' & -> & Hc').
    destruct (IH _ _ Hc') as [Hlen Hsub]. split; [by rewrite <- Hlen|].
    by apply sublist_skip.
  + destruct (IH _ _ Hc) as [Hlen Hsub]. split; [done|]. by apply sublist_cons.
Qed.

Lemma subsequences_complete pool c :
c `sublist_of` pool → c ∈ Py.subsequences pool (length c).
Proof.
induction 1 as [|x c pool Hsub IH|x c pool Hsub IH].
- left.
- cbn [length]. rewrite subsequences_cons. apply elem_of_app. left.
  apply list_elem_of_fmap. eauto.
- destruct c as [|y c]; [rewrite subsequences_0; left|].
  cbn [length] in *. rewrite subsequences_cons. apply elem_of_app. by right.
Qed.

Lemma subsequences_count pool r :
length (Py.subsequences pool r) = binomial (length pool) r.
Proof.
revert r. induction pool as [|x pool IH]; intros [|r]; try done.
rewrite subsequences_cons, length_app, length_map, !IH. reflexivity.
Qed.

Lemma subsequences_NoDup pool r :
NoDup pool → NoDup (Py.subsequences pool r).
Proof.
intros Hnd. revert r. induction Hnd as [|x pool Hx Hnd IH]; intros [|r].
- apply NoDup_singleton.
- constructor.
- apply NoDup_singleton.
- rewrite subsequences_cons. apply NoDup_app. split; [|split].
  + apply (NoDup_fmap_2 (cons x)), IH.
  + intros c Hc Hc'. apply list_elem_of_fmap in Hc as (c' & -> & _).
    apply subsequences_elem in Hc' as [_ Hsub]. apply Hx.
    apply (elem_of_sublist (x :: c')); [left|done].
  + apply IH.
Qed.

End subsequences.

Lemma subsequences_fmap {A B : Type} (f : A → B) (pool : list A) (r : nat) :
  Py.subsequences (map f pool) r = map (map f) (Py.subsequences pool r).
Proof.
  revert r. induction pool as [|x pool IH]; intros [|r]; try done.
  cbn [map]. rewrite !subsequences_cons, map_app, !IH, !map_map. reflexivity.
Qed.

Lemma binomial_0_r n : binomial n 0 = 1%nat.
Proof. by destruct n. Qed.

Lemma binomial_beyond n r : (n < r)%nat → binomial n r = 0%nat.
Proof.
  revert r. induction n as [|n IH]; intros [|r] Hlt; try done; try lia.
  cbn [binomial]. rewrite !IH by lia. reflexivity.
Qed.

(** *** Index positions *)

Lemma lex_lt_cons_lt i j a b : (i < j)%nat → lex_lt (i :: a) (j :: b).
Proof. intros. by left. Qed.

Lemma subsequences_lex_sorted (pool : list nat) (r : nat) :
  StronglySorted lt pool → StronglySorted lex_lt (Py.subsequences pool r).
Proof.
  intros Hsorted. revert r.
  induction Hsorted as [|x pool Hsorted IH Hx]; intros [|r].
  - repeat constructor.
  - constructor.
  - repeat constructor.
  - rewrite subsequences_cons. apply StronglySorted_app_2.
    + intros c1 c2 Hc1 Hc2.
      apply list_elem_of_fmap in Hc1 as (c1' & -> & _).
      apply subsequences_elem in Hc2 as [Hlen Hsub].
      destruct c2 as [|y c2]; [done|]. apply lex_lt_cons_lt.
      rewrite Forall_forall in Hx. apply Hx.
      apply (elem_of_sublist (y :: c2)); [left|done].
    + clear Hx. specialize (IH r).
      induction IH as [|c cs _ IHcs Hc]; [constructor|].
      cbn [map]. constructor; [done|].
      apply Forall_forall. intros c' Hc'.
      apply list_elem_of_fmap in Hc' as (c'' & -> & Hc'').
      right. split; [done|]. rewrite Forall_forall in Hc. by apply Hc.
    + apply IH.
Qed.

Lemma seq_sorted (a n : nat) : StronglySorted lt (seq a n).
Proof.
  revert a. induction n as [|n IH]; intros a; cbn [seq]; constructor; [done|].
  apply Forall_forall. intros i Hi. apply list_elem_of_In, in_seq in Hi. lia.
Qed.

Lemma sublist_sorted (c l : list nat) :
  c `sublist_of` l → StronglySorted lt l → StronglySorted lt c.
Proof.
  induction 1 as [|x c l Hsub IH|x c l Hsub IH]; intros Hl; [done| |].
  - apply StronglySorted_inv in Hl as [Hl Hx]. constructor; [by apply IH|].
    apply Forall_forall. intros i Hi. rewrite Forall_forall in Hx. apply Hx.
    by eapply elem_of_sublist.
  - apply StronglySorted_inv in Hl as [Hl _]. by apply IH.
Qed.

Lemma sorted_sublist_seq (c : list nat) (a n : nat) :
  StronglySorted lt c → Forall (fun i => (a <= i < a + n)%nat) c →
  c `sublist_of` seq a n.
Proof.
  revert a c. induction n as [|n IH]; intros a c Hc Hin.
  - destruct c as [|i c]; [constructor|]. apply Forall_inv in Hin. lia.
  - cbn [seq]. destruct c as [|i c]; [apply sublist_nil_l|].
    apply StronglySorted_inv in Hc as [Hc Hi].
    pose proof (Forall_inv Hin) as Hi0. cbn beta in Hi0. apply Forall_inv_tail in Hin.
    assert (Forall (fun j => (S a <= j < S a + n)%nat) c) as Hin'.
    { rewrite Forall_forall in *. intros j Hj.
      specialize (Hi j Hj). specialize (Hin j Hj). cbn beta in *. lia. }
    destruct (decide (i = a)) as [->|Hne].
    + apply sublist_skip. by apply IH.
    + apply sublist_cons. apply IH; [by constructor|].
      constructor; [lia|done].
Qed.

Lemma index_combinations_spec (n r : nat) (idx : list nat) :
  idx ∈ index_combinations n r
  ↔ length idx = r ∧ StronglySorted lt idx ∧ Forall (fun i => (i < n)%nat) idx.
Proof.
  unfold index_combinations. split.
  - intros Hidx. apply subsequences_elem in Hidx as [Hlen Hsub].
    split; [done|]. split; [by eapply sublist_sorted, seq_sorted|].
    apply Forall_forall. intros i Hi.
    pose proof (elem_of_sublist _ _ _ Hi Hsub) as Hseq.
    apply list_elem_of_In, in_seq in Hseq. lia.
  - intros (<- & Hsorted & Hbound). apply subsequences_complete.
    apply sorted_sublist_seq; [done|].
    eapply Forall_impl; [exact Hbound|]. cbn beta. intros; lia.
Qed.

Lemma index_combinations_sorted (n r : nat) :
  StronglySorted lex_lt (index_combinations n r).
Proof. apply subsequences_lex_sorted, seq_sorted. Qed.

Lemma pick_all {A : Type} (d : A) (pool : list A) :
  pick d pool (seq 0 (length pool)) = pool.
Proof.
  unfold pick. induction pool as [|x pool IH]; [done|].
  cbn [length seq map nth]. f_equal.
  rewrite <- seq_shift, map_map. exact IH.
Qed.

Lemma subsequences_by_index {A : Type} (d : A) (pool : list A) (r : nat) :
  Py.subsequences pool r = map (pick d pool) (index_combinations (length pool) r).
Proof.
  unfold index_combinations, pick.
  rewrite <- (subsequences_fmap (fun i => nth i pool d)).
  f_equal. symmetry. apply pick_all.
Qed.

(** C1: with AND or OR in any spelling, the generator lists sizes 1 to K
    in increasing order; within a size it follows the index combinations,
    which are the increasing index lists in lexicographic order; every
    query wraps each phrase in double quotes and joins them with the
    uppercase operator between single spaces.  For ["a"; "b"], K = 2 and
    AND the output is "a", "b", "a" AND "b". *)
Theorem combinations_in_generation_order
    (phrases : list string) (k : Z) (operator : string) :
  Py.upper operator = "AND" ∨ Py.upper operator = "OR" →
  let n := length phrases in
  generate_phrase_combinations phrases k operator
  = Ok (flat_map
          (fun r =>
             map (fun idx =>
                    let combo := pick "" phrases idx in
                    (Py.join (" " +:+ Py.upper operator +:+ " ") (map quoted combo),
                     combo))
                 (index_combinations n r))
          (seq 1 (Z.to_nat k)))
  ∧ (∀ r : nat,
       StronglySorted lex_lt (index_combinations n r)
       ∧ ∀ idx, idx ∈ index_combinations n r
                ↔ length idx = r ∧ StronglySorted lt idx
                  ∧ Forall (fun i => (i < n)%nat) idx)
  ∧ (∀ p, quoted p = String Py.dquote (p +:+ String Py.dquote ""))
  ∧ generate_phrase_combinations ["a"; "b"] 2 "AND"
    = Ok [ (quoted "a", ["a"]); (quoted "b", ["b"]);
           (quoted "a" +:+ " AND " +:+ quoted "b", ["a"; "b"]) ].
Proof.
  intros Hop n. split; [|split; [|split]].
  - rewrite generate_unfold by by apply valid_operator_spec.
    f_equal. apply flat_map_ext. intros r. unfold combos_of_size.
    rewrite (subsequences_by_index "" phrases r), map_map. reflexivity.
  - intros r. split; [apply index_combinations_sorted|].
    intros idx. apply index_combinations_spec.
  - reflexivity.
  - reflexivity.
Qed.

Lemma combinations_in_generation_order_witness :
  generate_phrase_combinations ["x"; "y"; "z"] 2 "or"
  = Ok [ (quoted "x", ["x"]); (quoted "y", ["y"]); (quoted "z", ["z"]);
         (quoted "x" +:+ " OR " +:+ quoted "y", ["x"; "y"]);
         (quoted "x" +:+ " OR " +:+ quoted "z", ["x"; "z"]);
         (quoted "y" +:+ " OR " +:+ quoted "z", ["y"; "z"]) ].
Proof.
  destruct (combinations_in_generation_order ["x"; "y"; "z"] 2 "or") as (Hgen & _).
  - right. reflexivity.
  - rewrite Hgen. reflexivity.
Defined.

(** ** Distinct queries *)

Lemma append_nil (b : string) : "" +:+ b = b.
Proof. reflexivity. Qed.

Lemma append_cons (x : ascii) (a b : string) :
  String x a +:+ b = String x (a +:+ b).
Proof. reflexivity. Qed.

Lemma append_assoc (a b c : string) : (a +:+ b) +:+ c = a +:+ (b +:+ c).
Proof.
  induction a as [|x a IH]; [done|]. rewrite !append_cons. by f_equal.
Qed.

Lemma append_empty_r (a : string) : a +:+ "" = a.
Proof. induction a as [|x a IH]; [done|]. rewrite append_cons. by f_equal. Qed.

Lemma quoted_append p rest :
  quoted p +:+ rest = String Py.dquote (p +:+ String Py.dquote rest).
Proof.
  unfold quoted. by rewrite append_cons, append_assoc, append_cons, append_nil.
Qed.

Lemma quote_free_split p p' rest rest' :
  quote_free p = true → quote_free p' = true →
  p +:+ String Py.dquote rest = p' +:+ String Py.dquote rest' →
  p = p' ∧ rest = rest'.
Proof.
  revert p'. induction p as [|c p IH]; intros [|c' p'] Hp Hp' Heq;
    rewrite ?append_cons, ?append_nil in Heq; cbn [quote_free] in *.
  - by injection Heq as ->.
  - injection Heq as <- _. apply andb_true_iff in Hp' as [Hc _].
    by rewrite Ascii.eqb_refl in Hc.
  - injection Heq as -> _. apply andb_true_iff in Hp as [Hc _].
    by rewrite Ascii.eqb_refl in Hc.
  - injection Heq as -> Heq.
    apply andb_true_iff in Hp as [_ Hp]. apply andb_true_iff in Hp' as [_ Hp'].
    destruct (IH _ Hp Hp' Heq) as [-> ->]. done.
Qed.

Lemma query_of_cons operator p combo :
  query_of operator (p :: combo)
  = quoted p +:+ match combo with
                 | [] => ""
                 | _ :: _ => spaced operator +:+ query_of operator combo
                 end.
Proof.
  unfold query_of. destruct combo as [|p' combo]; cbn [map Py.join].
  - by rewrite append_empty_r.
  - reflexivity.
Qed.

Lemma query_of_inj operator (c1 c2 : list string) :
  Forall (fun p => quote_free p = true) c1 →
  Forall (fun p => quote_free p = true) c2 →
  query_of operator c1 = query_of operator c2 → c1 = c2.
Proof.
  intros Hc1. revert c2. induction Hc1 as [|p1 c1 Hp1 Hc1 IH]; intros c2 Hc2 Heq.
  - destruct c2 as [|p2 c2]; [done|]. rewrite query_of_cons, quoted_append in Heq.
    discriminate.
  - destruct Hc2 as [|p2 c2 Hp2 Hc2].
    { rewrite query_of_cons, quoted_append in Heq. discriminate. }
    rewrite !query_of_cons, !quoted_append in Heq. injection Heq as Heq.
    destruct (quote_free_split _ _ _ _ Hp1 Hp2 Heq) as [-> Htail]. f_equal.
    destruct c1 as [|q1 c1], c2 as [|q2 c2]; try done;
      unfold spaced in Htail; rewrite ?append_cons, ?append_nil in Htail;
      try discriminate.
    injection Htail as Htail. apply (inj (String.append _)) in Htail.
    by apply IH.
Qed.

Lemma subsequences_range_NoDup {A : Type} (pool : list A) (a n : nat) :
  NoDup pool → NoDup (flat_map (Py.subsequences pool) (seq a n)).
Proof.
  intros Hnd. revert a. induction n as [|n IH]; intros a; cbn [seq flat_map].
  - constructor.
  - apply NoDup_app. split; [by apply subsequences_NoDup|]. split; [|apply IH].
    intros c Hc Hc'. apply subsequences_elem in Hc as [Hlen _].
    apply list_elem_of_In, in_flat_map in Hc' as (r & Hr & Hc').
    apply list_elem_of_In, subsequences_elem in Hc' as [Hlen' _].
    apply in_seq in Hr. lia.
Qed.

Lemma map_flat_map {A B C : Type} (g : B → C) (f : A → list B) (l : list A) :
  map g (flat_map f l) = flat_map (fun x => map g (f x)) l.
Proof.
  induction l as [|x l IH]; [done|]. cbn [flat_map]. by rewrite map_app, IH.
Qed.

Lemma length_flat_map_sum {A B : Type} (f : A → list B) (l : list A) :
  length (flat_map f l) = sum_list (map (fun x => length (f x)) l).
Proof.
  induction l as [|x l IH]; [done|]. cbn [flat_map map sum_list].
  by rewrite length_app, IH.
Qed.

Lemma sum_list_append (l1 l2 : list nat) :
  sum_list (l1 ++ l2) = (sum_list l1 + sum_list l2)%nat.
Proof. induction l1 as [|x l1 IH]; cbn [app sum_list sum_list_with]; [done|]. cbn. rewrite IH. lia. Qed.

Lemma sum_binomial_beyond (n a m : nat) :
  (n < a)%nat → sum_list (map (binomial n) (seq a m)) = 0%nat.
Proof.
  revert a. induction m as [|m IH]; intros a Ha; [done|].
  cbn [seq map sum_list]. rewrite binomial_beyond by lia. rewrite IH by lia. done.
Qed.

Lemma sum_binomial_capped (n k : nat) :
  sum_list (map (binomial n) (seq 1 k))
  = sum_list (map (binomial n) (seq 1 (Nat.min k n))).
Proof.
  destruct (Nat.le_gt_cases k n) as [Hle|Hgt]; [by rewrite Nat.min_l|].
  rewrite Nat.min_r by lia.
  replace k with (n + (k - n))%nat at 1 by lia.
  rewrite seq_app, map_app, sum_list_append.
  rewrite (sum_binomial_beyond n (1 + n)) by lia. lia.
Qed.

Lemma combos_of_size_beyond operator (phrases : list string) (r : nat) :
  (length phrases < r)%nat → combos_of_size operator phrases r = [].
Proof.
  intros Hlt. unfold combos_of_size.
  assert (Py.subsequences phrases r = []) as ->; [|done].
  apply length_zero_iff_nil. rewrite subsequences_count. by apply binomial_beyond.
Qed.

Lemma combos_capped operator (phrases : list string) (k : nat) :
  (length phrases <= k)%nat →
  flat_map (combos_of_size operator phrases) (seq 1 k)
  = flat_map (combos_of_size operator phrases) (seq 1 (length phrases)).
Proof.
  intros Hle. replace k with (length phrases + (k - length phrases))%nat at 1 by lia.
  rewrite seq_app, flat_map_app.
  assert (flat_map (combos_of_size operator phrases)
            (seq (1 + length phrases) (k - length phrases)) = []) as ->.
  { generalize (k - length phrases)%nat. intros m.
    assert (∀ a, (length phrases < a)%nat →
                 flat_map (combos_of_size operator phrases) (seq a m) = []) as Hnil.
    { induction m as [|m IH]; intros a Ha; [done|]. cbn [seq flat_map].
      rewrite combos_of_size_beyond by done. apply IH. lia. }
    apply Hnil. lia. }
  by rewrite app_nil_r.
Qed.

(** C2, the claim as stated fails: three distinct phrases, one of which
    contains the quote-operator-quote text, give the same query twice. *)
Lemma distinct_phrases_equal_queries :
  let phrases := ["a"; "b"; "a" +:+ quoted " AND " +:+ "b"] in
  NoDup phrases
  ∧ ∃ combos,
      generate_phrase_combinations phrases 2 "AND" = Ok combos
      ∧ ¬ NoDup (map fst combos).
Proof.
  intros phrases. split.
  - apply (bool_decide_unpack _). vm_compute. exact I.
  - eexists. split; [reflexivity|].
    apply (bool_decide_unpack _). vm_compute. exact I.
Qed.

(** C2, amended: the generator returns the sum over r from 1 to
    min(K, |P|) of C(|P|, r) combinations, each a subsequence of P of
    size 1 to K paired with its query; sizes above |P| add nothing and
    raise nothing; and when the phrases are distinct and none contains a
    double-quote character, no two queries are equal. *)
Theorem combination_count_and_distinct_queries
    (phrases : list string) (k : Z) (operator : string) :
  Py.upper operator = "AND" ∨ Py.upper operator = "OR" →
  1 <= k →
  let n := length phrases in
  ∃ combos,
    generate_phrase_combinations phrases k operator = Ok combos
    ∧ length combos
      = sum_list (map (binomial n) (seq 1 (Nat.min (Z.to_nat k) n)))
    ∧ Forall (fun c : Combo =>
                (1 <= length c.2 <= Z.to_nat k)%nat
                ∧ c.2 `sublist_of` phrases
                ∧ c.1 = query_of (Py.upper operator) c.2) combos
    ∧ (Z.of_nat n < k →
         generate_phrase_combinations phrases (Z.of_nat n) operator = Ok combos)
    ∧ (NoDup phrases → Forall (fun p => quote_free p = true) phrases →
         NoDup (map fst combos)).
Proof.
  intros Hop Hk n. apply valid_operator_spec in Hop.
  eexists. split; [by apply generate_unfold|].
  set (op := Py.upper operator). split; [|split; [|split]].
  - rewrite length_flat_map_sum, <- sum_binomial_capped. f_equal.
    apply map_ext. intros r. unfold combos_of_size.
    by rewrite length_map, subsequences_count.
  - apply Forall_forall. intros [query combo] Hc.
    apply list_elem_of_In, in_flat_map in Hc as (r & Hr & Hc).
    apply in_seq in Hr. unfold combos_of_size in Hc.
    apply in_map_iff in Hc as (c & [= <- <-] & Hc).
    apply list_elem_of_In, subsequences_elem in Hc as [Hlen Hsub].
    cbn [fst snd]. split; [lia|done].
  - intros Hbig. rewrite generate_unfold by done. f_equal. fold op.
    rewrite Nat2Z.id. symmetry. apply combos_capped. fold n. lia.
  - intros Hnd Hfree.
    assert (map fst (flat_map (combos_of_size op phrases) (seq 1 (Z.to_nat k)))
            = map (query_of op) (flat_map (Py.subsequences phrases) (seq 1 (Z.to_nat k))))
      as ->.
    { rewrite !map_flat_map. apply flat_map_ext. intros r.
      unfold combos_of_size. by rewrite map_map. }
    apply NoDup_fmap_2_strong; [|by apply subsequences_range_NoDup].
    intros c1 c2 Hc1 Hc2. apply query_of_inj.
    + apply list_elem_of_In, in_flat_map in Hc1 as (r & _ & Hc1).
      apply list_elem_of_In, subsequences_elem in Hc1 as [_ Hsub].
      rewrite Forall_forall in *. intros p Hp. apply Hfree.
      by eapply elem_of_sublist.
    + apply list_elem_of_In, in_flat_map in Hc2 as (r & _ & Hc2).
      apply list_elem_of_In, subsequences_elem in Hc2 as [_ Hsub].
      rewrite Forall_forall in *. intros p Hp. apply Hfree.
      by eapply elem_of_sublist.
Qed.

Lemma combination_count_and_distinct_queries_witness :
  ∃ combos,
    generate_phrase_combinations ["a"; "b"; "c"] 5 "and" = Ok combos
    ∧ length combos = 7%nat
    ∧ NoDup (map fst combos).
Proof.
  destruct (combination_count_and_distinct_queries ["a"; "b"; "c"] 5 "and")
    as (combos & Hgen & Hlen & _ & _ & Hnd).
  - left. reflexivity.
  - lia.
  - exists combos. split; [exact Hgen|]. split; [exact Hlen|].
    apply Hnd.
    + apply (bool_decide_unpack _). vm_compute. exact I.
    + repeat constructor.
Defined.

(** ** Recovering the phrases from a query *)

Section recover.
Variable sep : string.
Hypothesis sep_quote_free : quote_free sep = true.
Hypothesis sep_nonempty : sep ≠ "".

Lemma prefix_quote (rest : string) :
String.prefix sep (String Py.dquote rest) = false.
Proof.
destruct sep as [|a sep']; [done|]. cbn [String.prefix].
destruct (ascii_dec a Py.dquote) as [->|_]; [|done].
cbn [quote_free] in sep_quote_free. by rewrite Ascii.eqb_refl in sep_quote_free.
Qed.

Lemma prefix_empty : String.prefix sep "" = false.
Proof. by destruct sep. Qed.

Lemma prefix_self (rest : string) : String.prefix sep (sep +:+ rest) = true.
Proof.
clear. induction sep as [|a s IH]; [by destruct rest|].
rewrite append_cons. cbn [String.prefix].
destruct (ascii_dec a a) as [_|Hne]; [exact IH|by destruct Hne].
Qed.

Lemma drop_self (rest : string) :
Recover.drop (String.length sep) (sep +:+ rest) = rest.
Proof. clear. induction sep as [|a s IH]; [by destruct rest|]. exact IH. Qed.

Lemma partition_clear (u tail : string) :
Recover.clear_of sep u tail →
Recover.partition sep (u +:+ tail)
= (u +:+ (Recover.partition sep tail).1, (Recover.partition sep tail).2).
Proof.
induction u as [|c u IH]; intros Hclear.
- rewrite !append_nil. by destruct (Recover.partition sep tail).
- destruct Hclear as [Hhere Hclear]. rewrite append_cons in *.
  cbn [Recover.partition]. rewrite Hhere, (IH Hclear). reflexivity.
Qed.

Lemma partition_at_sep (rest : string) :
Recover.partition sep (sep +:+ rest) = ("", Some rest).
Proof.
destruct (sep +:+ rest) eqn:Heq; cbn [Recover.partition];
  rewrite <- Heq, prefix_self, drop_self; reflexivity.
Qed.

Lemma partition_empty : Recover.partition sep "" = ("", None).
Proof. cbn [Recover.partition]. by rewrite prefix_empty. Qed.

Lemma prefix_before_quote (s p rest : string) :
quote_free s = true →
String.prefix s (p +:+ String Py.dquote rest) = true → String.prefix s p = true.
Proof.
clear. revert p. induction s as [|a s IH]; intros p Hfree Hpre; [by destruct p|].
cbn [quote_free] in Hfree. apply andb_true_iff in Hfree as [Ha Hfree].
destruct p as [|b p].
- rewrite append_nil in Hpre. cbn [String.prefix] in Hpre.
  destruct (ascii_dec a Py.dquote) as [->|_]; [|done].
  by rewrite Ascii.eqb_refl in Ha.
- rewrite append_cons in Hpre. cbn [String.prefix] in *.
  destruct (ascii_dec a b); [by apply IH|done].
Qed.

Lemma clear_phrase (p tail : string) :
Recover.contains sep p = false →
Recover.clear_of sep (p +:+ String Py.dquote "") tail.
Proof.
induction p as [|c p IH]; intros Hfree.
- rewrite append_nil. cbn [Recover.clear_of]. rewrite append_cons. by rewrite prefix_quote.
- cbn [Recover.contains] in Hfree. apply orb_false_iff in Hfree as [Hhere Hfree].
  rewrite append_cons. cbn [Recover.clear_of]. split; [|by apply IH].
  rewrite <- append_cons, append_assoc, (append_cons Py.dquote "" tail), append_nil.
  destruct (String.prefix sep (String c p +:+ String Py.dquote tail)) eqn:Hpre;
    [|done].
  apply prefix_before_quote in Hpre; [|done]. by rewrite Hpre in Hhere.
Qed.

Lemma clear_quoted (p tail : string) :
Recover.contains sep p = false → Recover.clear_of sep (quoted p) tail.
Proof.
intros Hfree. unfold quoted. cbn [Recover.clear_of]. split.
- rewrite append_cons. apply prefix_quote.
- by apply clear_phrase.
Qed.

Lemma partition_quoted_last (p : string) :
Recover.contains sep p = false →
Recover.partition sep (quoted p) = (quoted p, None).
Proof.
intros Hfree. rewrite <- (append_empty_r (quoted p)) at 1.
rewrite partition_clear by by apply clear_quoted.
rewrite partition_empty. cbn [fst snd]. by rewrite append_empty_r.
Qed.

Lemma partition_quoted_more (p rest : string) :
Recover.contains sep p = false →
Recover.partition sep (quoted p +:+ sep +:+ rest) = (quoted p, Some rest).
Proof.
intros Hfree. rewrite partition_clear by by apply clear_quoted.
rewrite partition_at_sep. cbn [fst snd]. by rewrite append_empty_r.
Qed.

Lemma split_fuel_joined (fuel : nat) (combo : list string) :
combo ≠ [] → (length combo <= S fuel)%nat →
Forall (fun p => Recover.contains sep p = false) combo →
Recover.split_fuel fuel sep (Py.join sep (map quoted combo)) = map quoted combo.
Proof.
revert fuel. induction combo as [|p combo IH]; intros fuel Hne Hfuel Hfree; [done|].
apply Forall_cons in Hfree as [Hp Hfree].
destruct combo as [|p' combo].
- cbn [map Py.join]. destruct fuel; cbn [Recover.split_fuel];
    by rewrite partition_quoted_last.
- change (Py.join sep (map quoted (p :: p' :: combo)))
    with (quoted p +:+ sep +:+ Py.join sep (map quoted (p' :: combo))).
  destruct fuel as [|fuel]; [cbn [length] in Hfuel; lia|].
  cbn [Recover.split_fuel]. rewrite partition_quoted_more by done.
  cbn [map]. f_equal. apply IH; [done|cbn [length] in *; lia|done].
Qed.

End recover.

Lemma length_append (a b : string) :
  String.length (a +:+ b) = (String.length a + String.length b)%nat.
Proof.
  induction a as [|x a IH]; [done|]. rewrite append_cons. cbn [String.length].
  by rewrite IH.
Qed.

Lemma query_length operator (combo : list string) :
  (length combo <= String.length (query_of operator combo))%nat.
Proof.
  induction combo as [|p combo IH]; [done|].
  rewrite query_of_cons, quoted_append. cbn [String.length length].
  rewrite length_append. cbn [String.length].
  destruct combo as [|p' combo]; [cbn [length]; lia|].
  rewrite length_append. lia.
Qed.

Lemma unquote_quoted (p : string) : Recover.unquote (quoted p) = p.
Proof.
  unfold quoted. cbn [Recover.unquote]. rewrite Ascii.eqb_refl.
  induction p as [|c p IH].
  - rewrite append_nil. cbn [Recover.drop_closing_quote]. by rewrite Ascii.eqb_refl.
  - rewrite append_cons. cbn [Recover.drop_closing_quote].
    destruct (p +:+ String Py.dquote "") eqn:Heq.
    + destruct p; discriminate.
    + by rewrite IH.
Qed.

Lemma recover_query operator (combo : list string) :
  quote_free (spaced operator) = true →
  combo ≠ [] →
  Forall (fun p => Recover.contains (spaced operator) p = false) combo →
  Recover.recover operator (query_of operator combo) = combo.
Proof.
  intros Hfree Hne Hclear. unfold Recover.recover, Recover.split.
  unfold query_of at 2. rewrite split_fuel_joined; try done.
  - rewrite map_map. rewrite <- (map_id combo) at 2. apply map_ext.
    intros p. apply unquote_quoted.
  - pose proof (query_length operator combo). lia.
Qed.

(** C8, the claim as stated fails: with the phrases a, b and a" AND "b
    two different combinations share one query, so no decoder at all can
    return the components of both; and splitting on the operator breaks a
    phrase that contains it. *)
Lemma components_not_recoverable :
  (¬ ∃ decode : string → list string,
       ∀ combos query combo,
         generate_phrase_combinations
           ["a"; "b"; "a" +:+ quoted " AND " +:+ "b"] 2 "AND" = Ok combos →
         (query, combo) ∈ combos → decode query = combo)
  ∧ generate_phrase_combinations ["salt AND pepper"] 1 "AND"
    = Ok [(quoted "salt AND pepper", ["salt AND pepper"])]
  ∧ Recover.recover "AND" (quoted "salt AND pepper") = ["salt"; "pepper"].
Proof.
  split; [|split; reflexivity].
  intros [decode Hdecode].
  set (long := "a" +:+ quoted " AND " +:+ "b").
  set (query := quoted "a" +:+ " AND " +:+ quoted "b").
  set (combos := [ (quoted "a", ["a"]); (quoted "b", ["b"]); (quoted long, [long]);
                   (query, ["a"; "b"]);
                   (quoted "a" +:+ " AND " +:+ quoted long, ["a"; long]);
                   (quoted "b" +:+ " AND " +:+ quoted long, ["b"; long]) ] : list Combo).
  assert (decode query = ["a"; "b"]) as H1.
  { apply (Hdecode combos); [reflexivity|]. do 3 right. left. }
  assert (decode query = [long]) as H2.
  { apply (Hdecode combos); [reflexivity|]. do 2 right. left. }
  rewrite H1 in H2. discriminate.
Qed.

(** C8, amended: for every combination the generator produces whose
    phrases do not contain the space-surrounded operator, splitting the
    query on the space-surrounded operator and taking away the quote on
    each side of every piece returns the component phrases. *)
Theorem components_recovered_from_query
    (phrases : list string) (k : Z) (operator : string)
    (combos : list Combo) (query : string) (combo : list string) :
  Py.upper operator = "AND" ∨ Py.upper operator = "OR" →
  generate_phrase_combinations phrases k operator = Ok combos →
  (query, combo) ∈ combos →
  Forall (fun p => Recover.contains (spaced (Py.upper operator)) p = false) combo →
  Recover.recover (Py.upper operator) query = combo.
Proof.
  intros Hop Hgen Hin Hclear.
  rewrite generate_unfold in Hgen by by apply valid_operator_spec.
  injection Hgen as <-.
  apply list_elem_of_In, in_flat_map in Hin as (r & Hr & Hin).
  apply in_seq in Hr. unfold combos_of_size in Hin.
  apply in_map_iff in Hin as (c & [= <- <-] & Hc).
  apply list_elem_of_In, subsequences_elem in Hc as [Hlen _].
  apply recover_query; [|by destruct c; [cbn in Hlen; lia|]|done].
  by destruct Hop as [-> | ->].
Qed.

Lemma components_recovered_from_query_witness :
  Recover.recover "AND" (quoted "heart attack" +:+ " AND " +:+ quoted "aspirin")
  = ["heart attack"; "aspirin"].
Proof.
  apply (components_recovered_from_query ["heart attack"; "aspirin"] 2 "and"
           [ (quoted "heart attack", ["heart attack"]);
             (quoted "aspirin", ["aspirin"]);
             (quoted "heart attack" +:+ " AND " +:+ quoted "aspirin",
              ["heart attack"; "aspirin"]) ]).
  - left. reflexivity.
  - reflexivity.
  - apply list_elem_of_In. cbn [In]. tauto.
  - repeat constructor.
Defined.

(** ** The overlap reporter *)

Lemma dict_getitem_ok (d : Dict) (k : string) (v : Entry) :
  NoDup (keys d) → (k, v) ∈ d → dict_getitem d k = Ok v.
Proof.
  unfold keys. induction d as [|[k' v'] d IH]; intros Hnd Hin; [inversion Hin|].
  cbn [map fst] in Hnd. apply NoDup_cons in Hnd as [Hk' Hnd].
  cbn [dict_getitem]. apply elem_of_cons in Hin as [[= -> ->]|Hin].
  - by rewrite decide_True.
  - rewrite decide_False; [by apply IH|]. intros ->. apply Hk'.
    apply list_elem_of_fmap. by exists (k', v).
Qed.

Lemma write_overlap_rows_ok (d : Dict) {I : Type} (pair_of : I → list string)
    (row_of : I → Row) (idxs : list I) (written : list Row) :
  Forall (fun idx => overlap_row d (pair_of idx) = Ok (row_of idx)) idxs →
  write_overlap_rows d (map pair_of idxs) written
  = (written ++ map row_of idxs, None).
Proof.
  intros Hrows. revert written.
  induction Hrows as [|idx idxs Hrow _ IH]; intros written; cbn [map write_overlap_rows].
  - by rewrite app_nil_r.
  - rewrite Hrow, IH, <- app_assoc. reflexivity.
Qed.

Lemma index_pairs (n : nat) (idx : list nat) :
  idx ∈ index_combinations n 2 ↔ ∃ i j, idx = [i; j] ∧ (i < j < n)%nat.
Proof.
  rewrite index_combinations_spec. split.
  - intros (Hlen & Hsorted & Hbound).
    destruct idx as [|i [|j [|? ?]]]; try done. exists i, j. split; [done|].
    apply StronglySorted_inv in Hsorted as [_ Hij].
    apply Forall_inv in Hij. apply Forall_inv_tail, Forall_inv in Hbound.
    cbn beta in *. lia.
  - intros (i & j & -> & Hij). split; [done|]. split.
    + repeat constructor. lia.
    + repeat constructor; lia.
Qed.

Lemma binomial_1 (n : nat) : binomial n 1 = n.
Proof.
  induction n as [|n IH]; [done|]. cbn [binomial]. rewrite IH, binomial_0_r. lia.
Qed.

Lemma binomial_2 (n : nat) : (2 * binomial n 2 = n * (n - 1))%nat.
Proof.
  induction n as [|n IH]; [done|]. cbn [binomial]. rewrite binomial_1.
  destruct n as [|n]; [done|]. cbn [Nat.sub] in *. lia.
Qed.

Lemma overlap_row_of_items (d : Dict) (first second : string * Entry) :
  NoDup (keys d) → first ∈ d → second ∈ d →
  overlap_row d [first.1; second.1] = Ok (overlap_cells_row first second).
Proof.
  intros Hnd Hfirst Hsecond. destruct first as [t1 e1], second as [t2 e2].
  cbn [overlap_row fst snd]. unfold mbind, result_bind.
  rewrite (dict_getitem_ok d t1 e1), (dict_getitem_ok d t2 e2) by done.
  destruct (overlap_cells (pmids e1) (pmids e2)) as [-> _]. reflexivity.
Qed.

Lemma overlap_row_by_index (d : Dict) (i j : nat) :
  NoDup (keys d) → (i < j < length d)%nat →
  overlap_row d (pick "" (keys d) [i; j]) = Ok (overlap_row_at d [i; j]).
Proof.
  intros Hnd Hij. unfold overlap_row_at, pick, keys. cbn [map].
  change "" with (fst no_item). rewrite !map_nth.
  apply overlap_row_of_items; [done| |]; apply list_elem_of_In, nth_In; lia.
Qed.

Lemma save_overlap_matrix_rows (d : Dict) (filename : string) (w : World) :
  NoDup (keys d) →
  save_overlap_matrix d filename w
  = (w ++ [Wrote filename
             (overlap_header
              :: map (overlap_row_at d) (index_combinations (length d) 2))],
     None).
Proof.
  intros Hnd. unfold save_overlap_matrix.
  change (Py.combinations (keys d) 2) with (Ok (Py.subsequences (keys d) 2)).
  cbv iota beta.
  rewrite (subsequences_by_index "" (keys d) 2).
  replace (length (keys d)) with (length d) by (unfold keys; by rewrite length_map).
  rewrite (write_overlap_rows_ok d (pick "" (keys d)) (overlap_row_at d)).
  - reflexivity.
  - apply Forall_forall. intros idx Hidx.
    apply index_pairs in Hidx as (i & j & -> & Hij).
    by apply overlap_row_by_index.
Qed.

(** C6: for a store with distinct keys, the overlap file is the fixed
    header followed by one row per index pair (i, j) with i < j, in
    lexicographic order of positions in the store; the row names the two
    keys and gives the shared count, the union count and the Jaccard
    percentage.  No pair is listed twice, there are n (n - 1) / 2 rows,
    and a store of zero or one query gives the header alone.  The store
    the query loop builds has distinct keys. *)
Theorem overlap_report_rows (results_dict : Dict) (filename : string) (w : World) :
  NoDup (keys results_dict) →
  let n := length results_dict in
  save_overlap_matrix results_dict filename w
    = (w ++ [Wrote filename
               (overlap_header
                :: map (overlap_row_at results_dict) (index_combinations n 2))],
       None)
  ∧ overlap_header
    = [Str "Term 1"; Str "Term 2"; Str "Shared Count"; Str "Union Count";
       Str "Jaccard %"]
  ∧ (∀ idx, idx ∈ index_combinations n 2 ↔ ∃ i j, idx = [i; j] ∧ (i < j < n)%nat)
  ∧ StronglySorted lex_lt (index_combinations n 2)
  ∧ NoDup (index_combinations n 2)
  ∧ (2 * length (index_combinations n 2) = n * (n - 1))%nat
  ∧ (∀ i j first second,
       (i < j)%nat →
       results_dict !! i = Some first → results_dict !! j = Some second →
       first.1 ≠ second.1
       ∧ overlap_row_at results_dict [i; j]
         = [Str first.1; Str second.1;
            Int (len (pmids first.2 ∩ pmids second.2));
            Int (len (pmids first.2 ∪ pmids second.2));
            Str (Float.fixed1 false (jaccard_tenths (pmids first.2) (pmids second.2)))])
  ∧ ((n <= 1)%nat →
       save_overlap_matrix results_dict filename w
       = (w ++ [Wrote filename [overlap_header]], None))
  ∧ (∀ (S : Service) (cfg : Config) (all_combos : list Combo) (w0 : World),
       ∃ w' results raised,
         query_loop cfg all_combos [] w0 = (w', results, raised)
         ∧ NoDup (keys results)).
Proof.
  intros Hnd n.
  split; [by apply save_overlap_matrix_rows|]. split; [done|].
  split; [apply index_pairs|]. split; [apply index_combinations_sorted|].
  split; [apply subsequences_NoDup, NoDup_seq|].
  split.
  { unfold index_combinations. rewrite subsequences_count, length_seq.
    apply binomial_2. }
  split.
  { intros i j first second Hij Hi Hj. split.
    - intros Heq. unfold keys in Hnd.
      assert ((fst <$> results_dict) !! i = Some first.1) as Hki
        by by rewrite list_lookup_fmap, Hi.
      assert ((fst <$> results_dict) !! j = Some second.1) as Hkj
        by by rewrite list_lookup_fmap, Hj.
      rewrite <- Heq in Hkj.
      pose proof (NoDup_lookup _ _ _ _ Hnd Hki Hkj). lia.
    - unfold overlap_row_at, pick. cbn [map].
      by rewrite (nth_lookup_Some _ _ _ _ Hi), (nth_lookup_Some _ _ _ _ Hj). }
  split.
  { intros Hsmall. rewrite save_overlap_matrix_rows by done. fold n.
    assert (index_combinations n 2 = []) as ->; [|done].
    apply length_zero_iff_nil. unfold index_combinations.
    rewrite subsequences_count, length_seq. apply binomial_beyond. lia. }
  intros S cfg all_combos w0.
  destruct (query_loop cfg all_combos [] w0) as [[w' results] raised] eqn:Hrun.
  exists w', results, raised. split; [done|].
  eapply query_loop_NoDup; [|exact Hrun]. constructor.
Qed.

Lemma overlap_report_rows_witness :
  let store : Dict :=
    [ ("x", {| components := ["x"]; pmids := {[ "1"; "2"; "3" ]} |});
      ("y", {| components := ["y"]; pmids := {[ "2"; "3"; "4" ]} |});
      ("z", {| components := ["z"]; pmids := ∅ |}) ] in
  save_overlap_matrix store "overlap.csv" []
  = ([Wrote "overlap.csv"
        [ overlap_header;
          [Str "x"; Str "y"; Int 2; Int 4; Str "50.0"];
          [Str "x"; Str "z"; Int 0; Int 3; Str "0.0"];
          [Str "y"; Str "z"; Int 0; Int 3; Str "0.0"] ]],
     None).
Proof.
  intros store.
  destruct (overlap_report_rows store "overlap.csv" []) as (Hrows & _).
  - apply (bool_decide_unpack _). vm_compute. exact I.
  - rewrite Hrows. vm_compute. reflexivity.
Defined.

(** * Further properties of the generator *)

Lemma generate_ok phrases k operator :
  Py.upper operator = "AND" ∨ Py.upper operator = "OR" →
  generate_phrase_combinations phrases k operator
  = Ok (flat_map (combos_of_size (Py.upper operator) phrases) (seq 1 (Z.to_nat k))).
Proof. intros Hop. apply generate_unfold. by apply valid_operator_spec. Qed.

Lemma combos_of_size_elem operator phrases r (c : Combo) :
  c ∈ combos_of_size operator phrases r
  ↔ length c.2 = r ∧ c.2 `sublist_of` phrases ∧ c.1 = query_of operator c.2.
Proof.
  unfold combos_of_size. split.
  - intros Hin. apply list_elem_of_fmap in Hin as (combo & -> & Hin).
    apply subsequences_elem in Hin as [Hlen Hsub]. by simpl.
  - intros (Hlen & Hsub & Hq). apply list_elem_of_fmap.
    exists c.2. split.
    + destruct c as [q combo]. simpl in *. by rewrite Hq.
    + rewrite <- Hlen. by apply subsequences_complete.
Qed.

Lemma generate_elem phrases k operator combos (c : Combo) :
  Py.upper operator = "AND" ∨ Py.upper operator = "OR" →
  generate_phrase_combinations phrases k operator = Ok combos →
  c ∈ combos
  ↔ 1 <= Z.of_nat (length c.2) <= k
    ∧ c.2 `sublist_of` phrases
    ∧ c.1 = query_of (Py.upper operator) c.2.
Proof.
  intros Hop Hgen. rewrite (generate_ok _ _ _ Hop) in Hgen.
  injection Hgen as <-. rewrite list_elem_of_In, in_flat_map. split.
  - intros (r & Hr & Hin). apply in_seq in Hr.
    apply list_elem_of_In, combos_of_size_elem in Hin as (Hlen & Hsub & Hq).
    split; [lia|done].
  - intros (Hlen & Hsub & Hq). exists (length c.2). split.
    + apply in_seq. lia.
    + apply list_elem_of_In, combos_of_size_elem. done.
Qed.

Lemma subsequences_1 {A : Type} (pool : list A) :
  Py.subsequences pool 1 = map (fun x => [x]) pool.
Proof.
  induction pool as [|x pool IH]; [done|].
  simpl. rewrite IH. by destruct pool.
Qed.

Lemma subsequences_all {A : Type} (pool : list A) :
  Py.subsequences pool (length pool) = [pool].
Proof.
  induction pool as [|x pool IH]; [done|].
  simpl. rewrite IH. simpl.
  assert (Py.subsequences pool (S (length pool)) = []) as ->; [|done].
  apply length_zero_iff_nil. rewrite subsequences_count.
  apply binomial_beyond. lia.
Qed.

Lemma combos_of_size_1 operator phrases :
  combos_of_size operator phrases 1 = map single phrases.
Proof.
  unfold combos_of_size. rewrite subsequences_1, map_map. done.
Qed.

Lemma combos_of_size_all operator phrases :
  combos_of_size operator phrases (length phrases)
  = [(query_of operator phrases, phrases)].
Proof. unfold combos_of_size. by rewrite subsequences_all. Qed.

(** X1: raising the maximum size only appends: the output for a
    maximum [k] is the beginning of the output for any larger maximum
    [k'], and what follows it are the combinations of more than [k] and
    at most [k'] phrases. *)
Theorem larger_maximum_appends (phrases : list string) (k k' : Z) (operator : string) :
  Py.upper operator = "AND" ∨ Py.upper operator = "OR" →
  k <= k' →
  ∃ combos more,
    generate_phrase_combinations phrases k operator = Ok combos
    ∧ generate_phrase_combinations phrases k' operator = Ok (combos ++ more)
    ∧ Forall (fun c : Combo => k < Z.of_nat (length c.2) <= k') more.
Proof.
  intros Hop Hle.
  rewrite !(generate_ok _ _ _ Hop).
  replace (Z.to_nat k') with (Z.to_nat k + (Z.to_nat k' - Z.to_nat k))%nat by lia.
  rewrite seq_app, flat_map_app.
  eexists _, _. split; [done|]. split; [done|].
  apply Forall_forall. intros c Hin.
  apply list_elem_of_In, in_flat_map in Hin as (r & Hr & Hin).
  apply in_seq in Hr.
  apply list_elem_of_In, combos_of_size_elem in Hin as (Hlen & _).
  lia.
Qed.

Lemma larger_maximum_appends_witness :
  ∃ combos more,
    generate_phrase_combinations ["a"; "b"; "c"] 1 "or" = Ok combos
    ∧ generate_phrase_combinations ["a"; "b"; "c"] 3 "or" = Ok (combos ++ more)
    ∧ Forall (fun c : Combo => 1 < Z.of_nat (length c.2) <= 3) more.
Proof.
  apply (larger_maximum_appends ["a"; "b"; "c"] 1 3 "or"); [by right|lia].
Defined.

(** X2: the generator does not remove duplicates: when the maximum size
    is at least one and the queries it returns are pairwise different,
    the phrases were pairwise different.  A phrase listed twice is
    searched twice. *)
Theorem repeated_phrase_repeats_query
    (phrases : list string) (k : Z) (operator : string) (combos : list Combo) :
  Py.upper operator = "AND" ∨ Py.upper operator = "OR" →
  1 <= k →
  generate_phrase_combinations phrases k operator = Ok combos →
  NoDup (map fst combos) → NoDup phrases.
Proof.
  intros Hop Hk Hgen Hnd.
  rewrite (generate_ok _ _ _ Hop) in Hgen. injection Hgen as <-.
  replace (Z.to_nat k) with (1 + (Z.to_nat k - 1))%nat in Hnd by lia.
  rewrite seq_app, flat_map_app, map_app in Hnd.
  apply NoDup_app in Hnd as (Hnd & _).
  simpl in Hnd. rewrite app_nil_r, combos_of_size_1, map_map in Hnd.
  by apply (NoDup_fmap_1 (fun p => (single p).1)).
Qed.

Lemma repeated_phrase_repeats_query_witness :
  NoDup ["a"; "b"].
Proof.
  apply (repeated_phrase_repeats_query ["a"; "b"] 2 "AND"
           [ (quoted "a", ["a"]); (quoted "b", ["b"]);
             (quoted "a" +:+ " AND " +:+ quoted "b", ["a"; "b"]) ]).
  - by left.
  - lia.
  - reflexivity.
  - apply (bool_decide_unpack _). vm_compute. exact I.
Defined.

(** X3: with a valid operator, a pair is in the output exactly when its
    components are a subsequence of the phrase list of size 1 to K and
    its query is the quoted components joined by the operator: nothing
    else is produced and no such subsequence is left out. *)
Theorem combination_membership
    (phrases : list string) (k : Z) (operator : string)
    (combos : list Combo) (query : string) (combo : list string) :
  Py.upper operator = "AND" ∨ Py.upper operator = "OR" →
  generate_phrase_combinations phrases k operator = Ok combos →
  (query, combo) ∈ combos
  ↔ 1 <= Z.of_nat (length combo) <= k
    ∧ combo `sublist_of` phrases
    ∧ query = Py.join (" " +:+ Py.upper operator +:+ " ") (map quoted combo).
Proof.
  intros Hop Hgen. apply (generate_elem _ _ _ _ (query, combo) Hop Hgen).
Qed.

Lemma combination_membership_witness :
  (quoted "a" +:+ " AND " +:+ quoted "c", ["a"; "c"])
    ∈ [ (quoted "a", ["a"]); (quoted "b", ["b"]); (quoted "c", ["c"]);
        (quoted "a" +:+ " AND " +:+ quoted "b", ["a"; "b"]);
        (quoted "a" +:+ " AND " +:+ quoted "c", ["a"; "c"]);
        (quoted "b" +:+ " AND " +:+ quoted "c", ["b"; "c"]) ].
Proof.
  apply (combination_membership ["a"; "b"; "c"] 2 "and"); [by left|reflexivity|].
  split; [simpl; lia|]. split; [|reflexivity].
  apply sublist_skip. apply sublist_cons. apply sublist_skip. apply sublist_nil.
Defined.

(** X4: with a valid operator the output is empty exactly when there is
    no phrase or the maximum size is zero or less. *)
Theorem no_combinations_iff
    (phrases : list string) (k : Z) (operator : string) (combos : list Combo) :
  Py.upper operator = "AND" ∨ Py.upper operator = "OR" →
  generate_phrase_combinations phrases k operator = Ok combos →
  combos = [] ↔ phrases = [] ∨ k <= 0.
Proof.
  intros Hop Hgen. split.
  - intros ->. destruct phrases as [|p rest]; [by left|]. right.
    destruct (Z_le_gt_dec k 0) as [|Hk]; [done|]. exfalso.
    assert (single p ∈ ([] : list Combo)) as Hin; [|by apply elem_of_nil in Hin].
    apply (generate_elem _ _ _ _ (single p) Hop Hgen). simpl.
    split; [lia|]. split; [|done].
    apply sublist_skip. apply sublist_nil_l.
  - intros Hempty. destruct combos as [|c rest]; [done|]. exfalso.
    assert (c ∈ c :: rest) as Hin by apply list_elem_of_here.
    apply (generate_elem _ _ _ _ c Hop Hgen) in Hin as (Hlen & Hsub & _).
    destruct Hempty as [-> | Hk]; [|lia].
    apply sublist_nil_r in Hsub. rewrite Hsub in Hlen. simpl in Hlen. lia.
Qed.

Lemma no_combinations_iff_witness :
  ([] : list Combo) = [] ↔ ([] : list string) = [] ∨ 5 <= 0.
Proof.
  apply (no_combinations_iff [] 5 "OR" []); [by right|reflexivity].
Defined.

(** X5: the single-phrase combinations come first, one per phrase in
    the order of the phrase list, each with the quoted phrase as its
    query; everything after them combines two phrases or more, and with
    a maximum size of one there is nothing after them. *)
Theorem single_phrases_first (phrases : list string) (k : Z) (operator : string) :
  Py.upper operator = "AND" ∨ Py.upper operator = "OR" →
  1 <= k →
  ∃ larger,
    generate_phrase_combinations phrases k operator
    = Ok (map (fun p => (String Py.dquote (p +:+ String Py.dquote ""), [p])) phrases
          ++ larger)
    ∧ Forall (fun c : Combo => (2 <= length c.2)%nat) larger
    ∧ (k = 1 → larger = []).
Proof.
  intros Hop Hk. rewrite (generate_ok _ _ _ Hop).
  replace (Z.to_nat k) with (1 + (Z.to_nat k - 1))%nat by lia.
  rewrite seq_app, flat_map_app. simpl flat_map at 1.
  rewrite app_nil_r, combos_of_size_1.
  eexists. split; [done|]. split.
  - apply Forall_forall. intros c Hin.
    apply list_elem_of_In, in_flat_map in Hin as (r & Hr & Hin).
    apply in_seq in Hr.
    apply list_elem_of_In, combos_of_size_elem in Hin as (Hlen & _). lia.
  - intros ->. done.
Qed.

Lemma single_phrases_first_witness :
  ∃ larger,
    generate_phrase_combinations ["a"; "b"] 2 "AND"
    = Ok (map (fun p => (String Py.dquote (p +:+ String Py.dquote ""), [p])) ["a"; "b"]
          ++ larger)
    ∧ Forall (fun c : Combo => (2 <= length c.2)%nat) larger
    ∧ ((2 : Z) = 1 → larger = []).
Proof.
  apply (single_phrases_first ["a"; "b"] 2 "AND"); [by left|lia].
Defined.

(** X6: when the maximum size reaches the number of phrases and there
    is at least one phrase, the last combination is the whole phrase
    list, all phrases joined in one query. *)
Theorem all_phrases_last (phrases : list string) (k : Z) (operator : string) :
  Py.upper operator = "AND" ∨ Py.upper operator = "OR" →
  phrases ≠ [] →
  Z.of_nat (length phrases) <= k →
  ∃ front,
    generate_phrase_combinations phrases k operator
    = Ok (front ++ [(Py.join (" " +:+ Py.upper operator +:+ " ") (map quoted phrases),
                     phrases)]).
Proof.
  intros Hop Hne Hk. rewrite (generate_ok _ _ _ Hop).
  rewrite combos_capped by lia.
  destruct phrases as [|p rest]; [done|].
  assert (seq 1 (length (p :: rest))
          = seq 1 (length rest) ++ [length (p :: rest)]) as ->
    by (simpl length; by rewrite seq_S).
  rewrite flat_map_app. cbn [flat_map].
  rewrite app_nil_r, combos_of_size_all.
  eexists. done.
Qed.

Lemma all_phrases_last_witness :
  ∃ front,
    generate_phrase_combinations ["a"; "b"] 5 "or"
    = Ok (front ++ [(Py.join (" " +:+ Py.upper "or" +:+ " ") (map quoted ["a"; "b"]),
                     ["a"; "b"])]).
Proof.
  apply (all_phrases_last ["a"; "b"] 5 "or"); [by right|done|simpl; lia].
Defined.

Lemma query_of_length operator (combo : list string) :
  (String.length (query_of operator combo) + String.length operator + 2
   = phrase_chars combo + length combo * (String.length operator + 4)
     + match combo with [] => String.length operator + 2 | _ => 0 end)%nat.
Proof.
  induction combo as [|p rest IH]; [simpl; lia|].
  rewrite query_of_cons. unfold phrase_chars in *. 
  destruct rest as [|p' rest].
  - rewrite length_append. unfold quoted. simpl. rewrite length_append. simpl. lia.
  - rewrite !length_append. unfold quoted, spaced. simpl String.length.
    rewrite !length_append. simpl String.length.
    simpl map. simpl sum_list. simpl length in *. simpl map in IH. simpl sum_list in IH.
    lia.
Qed.

(** X7: the length of a produced query is the number of characters of
    its phrases, plus two quotes for each phrase, plus the operator and
    its two spaces between consecutive phrases. *)
Theorem query_length_formula
    (phrases : list string) (k : Z) (operator : string)
    (combos : list Combo) (query : string) (combo : list string) :
  Py.upper operator = "AND" ∨ Py.upper operator = "OR" →
  generate_phrase_combinations phrases k operator = Ok combos →
  (query, combo) ∈ combos →
  let r := length combo in
  let op := String.length (Py.upper operator) in
  String.length query = (phrase_chars combo + 2 * r + (r - 1) * (op + 2))%nat
  ∧ (op = if decide (Py.upper operator = "AND") then 3 else 2)%nat.
Proof.
  intros Hop Hgen Hin r op.
  apply (generate_elem _ _ _ _ (query, combo) Hop Hgen) in Hin as (Hlen & _ & Hq).
  simpl in Hlen, Hq. split.
  - pose proof (query_of_length (Py.upper operator) combo) as Hl.
    rewrite <- Hq in Hl. fold op in Hl. fold r in Hl.
    destruct combo as [|p rest]; [simpl in Hlen; lia|].
    subst r. simpl length in *. nia.
  - subst op. destruct Hop as [-> | ->]; done.
Qed.

Lemma query_length_formula_witness :
  String.length (quoted "ab" +:+ " AND " +:+ quoted "c")
  = (phrase_chars ["ab"; "c"] + 2 * 2 + (2 - 1) * (3 + 2))%nat.
Proof.
  apply (query_length_formula ["ab"; "c"] 2 "AND"
           [ (quoted "ab", ["ab"]); (quoted "c", ["c"]);
             (quoted "ab" +:+ " AND " +:+ quoted "c", ["ab"; "c"]) ]);
    [by left|reflexivity|].
  apply list_elem_of_In. simpl. right. right. left. reflexivity.
Defined.
(** * Further properties of the query loop and the main script *)

Lemma main_invalid `{Service} cfg w :
  valid_operator (Py.upper (OPERATOR cfg)) = false →
  main cfg w
  = (w ++ [Printed "🔍 Generating search phrase combinations..."],
     Some (AssertionError "Operator must be 'AND' or 'OR'.")).
Proof. intros Hop. unfold main. by rewrite generate_invalid. Qed.

Lemma main_unfold `{Service} cfg w combos w1 results :
  generate_phrase_combinations (PHRASES cfg) (MAX_COMBO_SIZE cfg) (OPERATOR cfg)
    = Ok combos →
  query_loop cfg combos []
    (w ++ [Printed "🔍 Generating search phrase combinations...";
           Printed ("🔎 Running " +:+ pretty (Z.of_nat (length combos))
                      +:+ " PubMed searches...")])
    = (w1, results, None) →
  NoDup (keys results) →
  main cfg w
  = (w1 ++ [Printed "💾 Saving term counts...";
            Wrote (OUTPUT_PREFIX cfg +:+ "_counts.csv")
              (counts_header :: map counts_row results);
            Printed "💾 Saving overlap matrix...";
            Wrote (OUTPUT_PREFIX cfg +:+ "_overlap.csv")
              (overlap_header
               :: map (overlap_row_at results)
                    (index_combinations (length results) 2));
            Printed (newline +:+ "✅ Done! You can now explore:");
            Printed ("  • " +:+ OUTPUT_PREFIX cfg
                       +:+ "_counts.csv — Number of results per phrase");
            Printed ("  • " +:+ OUTPUT_PREFIX cfg
                       +:+ "_overlap.csv — Overlap between search results (pairwise)")],
     None).
Proof.
  intros Hgen Hloop Hnd. unfold main. rewrite Hgen.
  rewrite <- app_assoc. cbn [app]. rewrite Hloop.
  rewrite save_term_counts_rows, save_overlap_matrix_rows by done.
  f_equal. rewrite <- !app_assoc. done.
Qed.

Lemma main_stops `{Service} cfg w combos w1 results e :
  generate_phrase_combinations (PHRASES cfg) (MAX_COMBO_SIZE cfg) (OPERATOR cfg)
    = Ok combos →
  query_loop cfg combos []
    (w ++ [Printed "🔍 Generating search phrase combinations...";
           Printed ("🔎 Running " +:+ pretty (Z.of_nat (length combos))
                      +:+ " PubMed searches...")])
    = (w1, results, Some e) →
  main cfg w = (w1, Some e).
Proof.
  intros Hgen Hloop. unfold main. rewrite Hgen.
  rewrite <- app_assoc. cbn [app]. by rewrite Hloop.
Qed.






(** ** What the script sends *)

Lemma request_params_cells cfg query :
  ("db", Str "pubmed") ∈ request_params cfg query
  ∧ ("term", Str query) ∈ request_params cfg query
  ∧ ("retmax", Int 1000) ∈ request_params cfg query
  ∧ ("retmode", Str "json") ∈ request_params cfg query
  ∧ ("api_key" ∈ map fst (request_params cfg query) ↔ USE_API_KEY cfg = true)
  ∧ (∀ v, ("api_key", v) ∈ request_params cfg query → v = Str (API_KEY cfg))
  ∧ (∀ v, ("term", v) ∈ request_params cfg query → v = Str query).
Proof.
  unfold request_params.
  destruct (USE_API_KEY cfg); cbn [app]; split_and!;
    try (apply list_elem_of_In; simpl; tauto);
    try (intros v Hin; apply list_elem_of_In in Hin; simpl in Hin;
         repeat destruct Hin as [Hin|Hin]; by simplify_eq).
  - split; [done|]. intros _. apply list_elem_of_In. simpl. tauto.
  - split; [|done]. intros Hin. apply list_elem_of_In in Hin. simpl in Hin.
    repeat destruct Hin as [Hin|Hin]; by simplify_eq.
Qed.

(** X10: whatever the configuration, every request the script adds to
    the trace goes to the esearch endpoint, searches the pubmed database
    for one of the generated queries, asks for at most 1000 ids in JSON,
    and carries an API key only when [USE_API_KEY] is set, in which case
    the key is [API_KEY]. *)
Theorem requests_go_to_esearch_only
    (S : Service) (cfg : Config) (w : World)
    (url : string) (params : list (string * value)) :
  Requested url params ∈ (main cfg w).1 →
  Requested url params ∉ w →
  url = "https://eutils.ncbi.nlm.nih.gov/entrez/eutils/esearch.fcgi"
  ∧ (∃ combos query,
       generate_phrase_combinations (PHRASES cfg) (MAX_COMBO_SIZE cfg) (OPERATOR cfg)
         = Ok combos
       ∧ query ∈ map fst combos
       ∧ ("term", Str query) ∈ params
       ∧ ∀ v, ("term", v) ∈ params → v = Str query)
  ∧ ("db", Str "pubmed") ∈ params
  ∧ ("retmax", Int 1000) ∈ params
  ∧ ("retmode", Str "json") ∈ params
  ∧ ("api_key" ∈ map fst params ↔ USE_API_KEY cfg = true)
  ∧ (∀ v, ("api_key", v) ∈ params → v = Str (API_KEY cfg)).
Proof.
  intros Hin Hnew.
  destruct (valid_operator (Py.upper (OPERATOR cfg))) eqn:Hop.
  - apply valid_operator_spec in Hop.
    pose proof (generate_ok (PHRASES cfg) (MAX_COMBO_SIZE cfg) _ Hop) as Hgen.
    match type of Hgen with _ = Ok ?l => set (combos := l) in * end.
    destruct (query_loop cfg combos []
                (w ++ [Printed "🔍 Generating search phrase combinations...";
                       Printed ("🔎 Running " +:+ pretty (Z.of_nat (length combos))
                                  +:+ " PubMed searches...")]))
      as [[w1 results] raised] eqn:Hloop.
    assert (NoDup (keys results)) as Hnd.
    { eapply query_loop_NoDup; [|exact Hloop]. constructor. }
    assert (Requested url params ∈ w1) as Hin1.
    { destruct raised as [e|].
      - by rewrite (main_stops cfg w _ w1 results e Hgen Hloop) in Hin.
      - rewrite (main_unfold cfg w _ w1 results Hgen Hloop Hnd) in Hin.
        cbn [fst] in Hin. apply elem_of_app in Hin as [Hin|Hin]; [done|].
        apply list_elem_of_In in Hin. cbn [In] in Hin.
        repeat destruct Hin as [Hin|Hin]; done. }
    destruct (query_loop_requests cfg combos [] _ w1 results raised url params
                Hloop Hin1) as [Hold|([query combo] & Hc & -> & ->)].
    { apply elem_of_app in Hold as [Hold|Hold]; [done|].
      apply list_elem_of_In in Hold. cbn [In] in Hold.
      repeat destruct Hold as [Hold|Hold]; done. }
    destruct (request_params_cells cfg query)
      as (Hdb & Hterm & Hmax & Hmode & Hkey & Hval & Honly).
    split; [done|]. split; [|done].
    exists combos, query. split; [done|]. split; [|done].
    apply list_elem_of_In, in_map_iff. exists (query, combo). split; [done|].
    by apply list_elem_of_In.
  - rewrite (main_invalid cfg w Hop) in Hin. cbn [fst] in Hin.
    apply elem_of_app in Hin as [Hin|Hin]; [done|].
    apply list_elem_of_In in Hin. simpl in Hin. by destruct Hin.
Qed.

Lemma requests_go_to_esearch_only_witness :
  let S := Canned.service Canned.answers in
  let cfg := {| PHRASES := ["a"]; TOOL_NAME := "t"; EMAIL := "e";
                USE_API_KEY := false; API_KEY := "secret";
                MAX_COMBO_SIZE := 1; OPERATOR := "AND";
                SLEEP_BETWEEN_CALLS := (34 # 100)%Q; OUTPUT_PREFIX := "out" |} in
  ("api_key" ∈ map fst (request_params cfg (quoted "a")) ↔ false = true).
Proof.
  intros S cfg.
  apply (requests_go_to_esearch_only S cfg [] base_url (request_params cfg (quoted "a"))).
  - apply list_elem_of_In. vm_compute. right. right. left. reflexivity.
  - apply not_elem_of_nil.
Defined.
(** * What the store holds after the loop *)

(** X11: when several combinations have the same query, the store
    keeps what the last of them wrote: its components, and the set the
    client returned when it was called for that combination, that is, at
    the trace reached after the combinations before it.  That set is the
    answer of the service to that very request, or the empty set when
    the request failed.  (The pause is one that [time.sleep] accepts.) *)
Theorem last_combination_wins
    (S : Service) (cfg : Config) (before after : list Combo)
    (query : string) (combo : list string) (results : Dict) (w : World) :
  (0 <= SLEEP_BETWEEN_CALLS cfg)%Q →
  (SLEEP_BETWEEN_CALLS cfg <= 9223372036854775807 # 1000000000)%Q →
  query ∉ map fst after →
  let asked := Requested base_url (request_params cfg query) in
  ∃ w1 results1 w2 ids w' results',
    query_loop cfg before results w = (w1, results1, None)
    ∧ fetch_pmids cfg query w1 = (w2, Ok ids)
    ∧ (esearch_idlist (w1 ++ [asked]) base_url (request_params cfg query) = Ok ids
       ∧ w2 = w1 ++ [asked]
       ∨ ∃ e, esearch_idlist (w1 ++ [asked]) base_url (request_params cfg query)
              = Raise e
              ∧ ids = ∅
              ∧ w2 = w1 ++ [asked;
                             Printed ("Error fetching for term: " +:+ query
                                        +:+ String (ascii_of_nat 10) (exception_str e))])
    ∧ query_loop cfg (before ++ (query, combo) :: after) results w
      = (w', results', None)
    ∧ dict_getitem results' query = Ok {| components := combo; pmids := ids |}.
Proof.
  intros Hlo Hhi Hafter asked.
  destruct (query_loop_last cfg before query combo after results w Hlo Hhi Hafter)
    as (w1 & results1 & w' & results' & ids & said & Hbefore & Hrun & Hget
        & Hfetch & Hsaid & _).
  exists w1, results1, (w1 ++ asked :: said), ids, w', results'.
  split; [done|]. split; [done|]. split; [|done].
  destruct Hsaid as [[-> Hok]|(e & -> & -> & Hfail)]; [by left|].
  right. by exists e.
Qed.

Lemma last_combination_wins_witness :
  let S := Canned.service Canned.answers in
  let before := [(quoted "b", ["b"]); (quoted "a", ["first"])] in
  let after := [(quoted "b", ["later"])] in
  ∃ w' results',
    query_loop default_config (before ++ (quoted "a", ["second"]) :: after) [] []
    = (w', results', None)
    ∧ dict_getitem results' (quoted "a")
      = Ok {| components := ["second"];
              pmids := {[ "11" ]} ∪ ({[ "12" ]} ∪ ({[ "13" ]} ∪ ∅)) |}
    ∧ keys results' = [quoted "b"; quoted "a"].
Proof.
  intros S before after.
  destruct (last_combination_wins S default_config before after
              (quoted "a") ["second"] [] [])
    as (w1 & results1 & w2 & ids & w' & results' & Hbefore & Hfetch & _ & Hrun & Hget).
  - by vm_compute.
  - by vm_compute.
  - apply (bool_decide_unpack _). vm_compute. exact I.
  - exists w', results'. split; [exact Hrun|].
    vm_compute in Hbefore. injection Hbefore as <- <-.
    vm_compute in Hfetch. injection Hfetch as <- <-.
    split; [rewrite Hget; vm_compute; reflexivity|].
    vm_compute in Hrun. injection Hrun as _ <-. reflexivity.
Defined.

Lemma jaccard_tenths_zero (s1 s2 : gset string) :
  len (s1 ∩ s2) = 0 → jaccard_tenths s1 s2 = 0.
Proof.
  intros Hz. unfold jaccard_tenths. rewrite Hz.
  destruct (bool_decide _); [|done].
  unfold Float.true_divide. by destruct (len (s1 ∪ s2) =? 0), (len (s1 ∪ s2)).
Qed.

Lemma overlap_empty_l (s : gset string) :
  overlap ∅ s = Ok [Int 0; Int (len s); Str "0.0"].
Proof.
  destruct (overlap_cells ∅ s) as [-> _].
  assert ((∅ : gset string) ∩ s = ∅) as Hi by apply (left_absorb_L _ _).
  assert ((∅ : gset string) ∪ s = s) as Hu by apply (left_id_L _ _).
  rewrite jaccard_tenths_zero by (by rewrite Hi).
  by rewrite Hi, Hu.
Qed.

(** X12: a search that fails is recorded like a search without
    results.  When every request for a query fails, the store holds the
    empty set for it, its row of the counts report shows 0, any overlap
    computed with it is 0 shared and 0.0 percent, and the failure was
    printed.  (The pause is one that [time.sleep] accepts, so that the
    loop runs through every combination.) *)
Theorem failed_search_reads_as_empty
    (S : Service) (cfg : Config) (all_combos : list Combo) (query : string) (w : World) :
  (0 <= SLEEP_BETWEEN_CALLS cfg)%Q →
  (SLEEP_BETWEEN_CALLS cfg <= 9223372036854775807 # 1000000000)%Q →
  query ∈ map fst all_combos →
  (∀ w, ∃ e, esearch_idlist w base_url (request_params cfg query) = Raise e) →
  ∃ w' results combo,
    query_loop cfg all_combos [] w = (w', results, None)
    ∧ dict_getitem results query = Ok {| components := combo; pmids := ∅ |}
    ∧ counts_row (query, {| components := combo; pmids := ∅ |})
      = [Str query; Str (Py.join "; " combo); Int 0]
    ∧ (∀ ids, overlap ∅ ids = Ok [Int 0; Int (len ids); Str "0.0"])
    ∧ ∃ e, Printed ("Error fetching for term: " +:+ query
                      +:+ newline +:+ exception_str e) ∈ w'.
Proof.
  intros Hlo Hhi Hin Hfail.
  destruct (last_occurrence all_combos query Hin) as (before & c & after & -> & Hafter).
  destruct (query_loop_last cfg before query c after [] w Hlo Hhi Hafter)
    as (w1 & r1 & w' & results' & ids & said & _ & Hrun & Hget & _ & Hsaid & tail & Hw').
  destruct Hsaid as [[_ Hok] | (e & -> & -> & _)].
  { destruct (Hfail (w1 ++ [Requested base_url (request_params cfg query)]))
      as [e He]. congruence. }
  exists w', results', c. split; [done|]. split; [done|]. split; [done|].
  split; [apply overlap_empty_l|].
  exists e. rewrite Hw'. apply elem_of_app. right.
  apply elem_of_cons. right. apply elem_of_app. left. apply list_elem_of_here.
Qed.

Lemma failed_search_reads_as_empty_witness :
  let S := Canned.service Canned.answers in
  ∃ w' results combo,
    query_loop default_config
      [(quoted "a", ["a"]); (quoted "down", ["down"])] [] [] = (w', results, None)
    ∧ dict_getitem results (quoted "down") = Ok {| components := combo; pmids := ∅ |}
    ∧ counts_row (quoted "down", {| components := combo; pmids := ∅ |})
      = [Str (quoted "down"); Str (Py.join "; " combo); Int 0]
    ∧ (∀ ids, overlap ∅ ids = Ok [Int 0; Int (len ids); Str "0.0"])
    ∧ ∃ e, Printed ("Error fetching for term: " +:+ quoted "down"
                      +:+ newline +:+ exception_str e) ∈ w'.
Proof.
  intros S.
  apply (failed_search_reads_as_empty S default_config
           [(quoted "a", ["a"]); (quoted "down", ["down"])] (quoted "down") []).
  - by vm_compute.
  - by vm_compute.
  - apply list_elem_of_In. simpl. right. left. reflexivity.
  - intros w. exists (RequestException "connection refused"). reflexivity.
Defined.

(** X13: when the service gives the same id list for a query at every
    request, the store holds that set for the query and the counts
    report shows the number of distinct ids in it.  (The pause is one
    that [time.sleep] accepts, so that the loop runs through every
    combination.) *)
Theorem stable_answer_is_counted
    (S : Service) (cfg : Config) (all_combos : list Combo)
    (query : string) (ids : gset string) (w : World) :
  (0 <= SLEEP_BETWEEN_CALLS cfg)%Q →
  (SLEEP_BETWEEN_CALLS cfg <= 9223372036854775807 # 1000000000)%Q →
  query ∈ map fst all_combos →
  (∀ w, esearch_idlist w base_url (request_params cfg query) = Ok ids) →
  ∃ w' results combo,
    query_loop cfg all_combos [] w = (w', results, None)
    ∧ dict_getitem results query = Ok {| components := combo; pmids := ids |}
    ∧ (query, combo) ∈ all_combos
    ∧ counts_row (query, {| components := combo; pmids := ids |})
      = [Str query; Str (Py.join "; " combo); Int (Z.of_nat (size ids))].
Proof.
  intros Hlo Hhi Hin Hstable.
  destruct (last_occurrence all_combos query Hin) as (before & c & after & -> & Hafter).
  destruct (query_loop_last cfg before query c after [] w Hlo Hhi Hafter)
    as (w1 & r1 & w' & results' & ids' & said & _ & Hrun & Hget & _ & Hsaid & _).
  assert (ids' = ids) as ->.
  { destruct Hsaid as [[_ Hok] | (e & _ & _ & He)];
      rewrite Hstable in *; congruence. }
  exists w', results', c. split; [done|]. split; [done|].
  split; [|done].
  apply elem_of_app. right. apply list_elem_of_here.
Qed.

Lemma stable_answer_is_counted_witness :
  let S := Canned.service Canned.answers in
  ∃ w' results combo,
    query_loop default_config
      [(quoted "a", ["a"]); (quoted "b", ["b"])] [] [] = (w', results, None)
    ∧ dict_getitem results (quoted "b")
      = Ok {| components := combo; pmids := {[ "12" ]} ∪ ({[ "13" ]} ∪ ({[ "14" ]} ∪ ∅)) |}
    ∧ (quoted "b", combo) ∈ [(quoted "a", ["a"]); (quoted "b", ["b"])]
    ∧ counts_row (quoted "b",
                  {| components := combo;
                     pmids := {[ "12" ]} ∪ ({[ "13" ]} ∪ ({[ "14" ]} ∪ ∅)) |})
      = [Str (quoted "b"); Str (Py.join "; " combo);
         Int (Z.of_nat (size ({[ "12" ]} ∪ ({[ "13" ]} ∪ ({[ "14" ]} ∪ ∅)) : gset string)))].
Proof.
  intros S.
  apply (stable_answer_is_counted S default_config
           [(quoted "a", ["a"]); (quoted "b", ["b"])] (quoted "b")).
  - by vm_compute.
  - by vm_compute.
  - apply list_elem_of_In. simpl. right. left. reflexivity.
  - intros w. reflexivity.
Defined.

(** * Further properties of the overlap statistics *)

Lemma len_inclusion_exclusion (s1 s2 : gset string) :
  len (s1 ∩ s2) + len (s1 ∪ s2) = len s1 + len s2.
Proof.
  unfold len.
  pose proof (size_union_alt s1 s2) as Hu.
  pose proof (size_difference_alt s2 s1) as Hd.
  pose proof (subseteq_size (s2 ∩ s1) s2 (intersection_subseteq_l s2 s1)) as Hle.
  rewrite (comm_L (∩) s1 s2). lia.
Qed.

Lemma len_subseteq (s1 s2 : gset string) : s1 ⊆ s2 → len s1 <= len s2.
Proof. intros Hsub. unfold len. apply inj_le. by apply subseteq_size. Qed.

Lemma len_nonneg (s : gset string) : 0 <= len s.
Proof. unfold len. lia. Qed.

(** X14: the overlap cells never fail to compute, and the two counts
    of a row fit the sizes of the two result sets: shared plus union is
    the sum of the sizes, the shared count is at most the smaller size
    and the union count at least the larger; when one set is contained
    in the other, the shared count is the size of the smaller set and
    the union count the size of the larger. *)
Theorem shared_and_union_counts (s1 s2 : gset string) :
  ∃ shared union text,
    overlap s1 s2 = Ok [Int shared; Int union; Str text]
    ∧ shared + union = len s1 + len s2
    ∧ 0 <= shared <= Z.min (len s1) (len s2)
    ∧ Z.max (len s1) (len s2) <= union
    ∧ (s1 ⊆ s2 → shared = len s1 ∧ union = len s2).
Proof.
  destruct (overlap_cells s1 s2) as [Hcells _].
  eexists _, _, _. split; [exact Hcells|].
  pose proof (len_inclusion_exclusion s1 s2) as Hsum.
  pose proof (len_subseteq _ _ (intersection_subseteq_l s1 s2)) as Hl.
  pose proof (len_subseteq _ _ (intersection_subseteq_r s1 s2)) as Hr.
  pose proof (len_nonneg (s1 ∩ s2)) as Hpos.
  split; [done|]. split; [lia|]. split; [lia|].
  intros Hsub.
  assert (s1 ∩ s2 = s1) as -> by by apply subseteq_intersection_1_L.
  assert (s1 ∪ s2 = s2) as -> by by apply subseteq_union_1_L.
  done.
Qed.

Lemma jaccard_tenths_nearest (s1 s2 : gset string) :
  0 < len (s1 ∪ s2) <= 2 ^ 41 →
  Z.abs (2 * jaccard_tenths s1 s2 * len (s1 ∪ s2) - 2000 * len (s1 ∩ s2))
  <= len (s1 ∪ s2).
Proof.
  intros [Hpos Hsmall].
  pose proof (len_shared_union s1 s2) as Hle.
  destruct (Z.eq_dec (len (s1 ∩ s2)) 0) as [Hz|Hnz].
  { rewrite (jaccard_tenths_zero _ _ Hz), Hz. lia. }
  assert (1 <= len (s1 ∩ s2) <= len (s1 ∪ s2)) as Hs by lia.
  destruct (true_divide_nearest (len (s1 ∩ s2)) (len (s1 ∪ s2)) Hs Hsmall)
    as (m & e & Hx & He & Hm & Hhalf).
  destruct (true_divide_percent _ _ Hle Hpos) as (x & Hx' & Hp).
  rewrite Hx in Hx'. injection Hx' as <-.
  destruct Hp as [?|(m' & e' & [= <- <-] & _ & Hm')]; [done|].
  unfold jaccard_tenths.
  rewrite bool_decide_eq_true_2 by by apply len_positive.
  rewrite Hx. cbn [Float.tenths_of]. apply tenths_nearest; try done; lia.
Qed.

Lemma jaccard_tenths_same (s : gset string) :
  s ≠ ∅ → jaccard_tenths s s = 1000.
Proof.
  intros Hne. unfold jaccard_tenths.
  rewrite intersection_self, union_self.
  rewrite bool_decide_eq_true_2 by done.
  by rewrite true_divide_whole by by apply len_positive.
Qed.

Lemma jaccard_tenths_empty_union (s1 s2 : gset string) :
  len (s1 ∪ s2) = 0 → jaccard_tenths s1 s2 = 0.
Proof.
  intros Hz. unfold jaccard_tenths.
  rewrite bool_decide_eq_false_2; [done|].
  intros Hne. apply len_positive in Hne. lia.
Qed.

(** Which of the tenths a percentage takes prints as a given text. *)
Lemma fixed1_reads (text : string) (v : Z) :
  forallb (fun n => implb (String.eqb (Float.fixed1 false (Z.of_nat n)) text)
                      (Z.of_nat n =? v))
    (seq 0 1001) = true →
  ∀ t, 0 <= t <= 1000 → Float.fixed1 false t = text → t = v.
Proof.
  intros Hall t Ht Htext.
  rewrite forallb_forall in Hall.
  assert (In (Z.to_nat t) (seq 0 1001)) as Hin by (apply in_seq; lia).
  apply Hall in Hin. rewrite Z2Nat.id, Htext, String.eqb_refl in Hin by lia.
  by apply Z.eqb_eq in Hin.
Qed.

Lemma shared_is_union (s1 s2 : gset string) :
  len (s1 ∪ s2) <= len (s1 ∩ s2) → s1 = s2.
Proof.
  unfold len. intros Hle.
  assert (s1 ∩ s2 = s1 ∪ s2) as Heq.
  { apply set_subseteq_size_eq; [|lia].
    etrans; [apply intersection_subseteq_l|apply union_subseteq_l]. }
  apply leibniz_equiv, (anti_symm (⊆)).
  - etrans; [apply union_subseteq_l|]. rewrite <- Heq.
    apply intersection_subseteq_r.
  - etrans; [apply union_subseteq_r|]. rewrite <- Heq.
    apply intersection_subseteq_l.
Qed.

(** X15: for result sets of at most 1000 ids each, which is what one
    request asks for at most, the last cell of a row reads 100.0
    exactly when the two sets are equal and not empty, and 0.0 exactly
    when they share no id. *)
Theorem jaccard_extremes (s1 s2 : gset string) :
  len s1 <= 1000 → len s2 <= 1000 →
  ((∃ shared union, overlap s1 s2 = Ok [Int shared; Int union; Str "100.0"])
   ↔ s1 = s2 ∧ s1 ≠ ∅)
  ∧ ((∃ shared union, overlap s1 s2 = Ok [Int shared; Int union; Str "0.0"])
     ↔ s1 ∩ s2 = ∅).
Proof.
  intros H1 H2.
  destruct (overlap_cells s1 s2) as [Hcells Hbound].
  pose proof (len_inclusion_exclusion s1 s2) as Hsum.
  pose proof (len_shared_union s1 s2) as Hle.
  assert (len (s1 ∪ s2) <= 2 ^ 41) as Hsmall.
  { change (2 ^ 41) with 2199023255552. lia. }
  split; split.
  - intros (shared & union & Hrow). rewrite Hcells in Hrow.
    injection Hrow as _ _ Htext.
    apply (fixed1_reads "100.0" 1000) in Htext; [|by vm_compute|done].
    destruct (Z.eq_dec (len (s1 ∪ s2)) 0) as [Hz|Hnz].
    { rewrite (jaccard_tenths_empty_union _ _ Hz) in Htext. done. }
    pose proof (jaccard_tenths_nearest s1 s2 ltac:(lia)) as Hnear.
    rewrite Htext in Hnear.
    assert (s1 = s2) as <- by (apply shared_is_union; lia).
    split; [done|]. rewrite union_self in Hnz.
    apply len_positive. lia.
  - intros [<- Hne]. rewrite Hcells, (jaccard_tenths_same _ Hne). eauto.
  - intros (shared & union & Hrow). rewrite Hcells in Hrow.
    injection Hrow as _ _ Htext.
    apply (fixed1_reads "0.0" 0) in Htext; [|by vm_compute|done].
    assert (len (s1 ∩ s2) = 0) as Hz.
    { destruct (Z.eq_dec (len (s1 ∪ s2)) 0) as [Hz|Hnz]; [lia|].
      pose proof (jaccard_tenths_nearest s1 s2 ltac:(lia)) as Hnear.
      rewrite Htext in Hnear. lia. }
    unfold len in Hz. apply leibniz_equiv, size_empty_inv. lia.
  - intros Hdisj. rewrite Hcells, jaccard_tenths_zero; [eauto|].
    by rewrite Hdisj.
Qed.

Lemma jaccard_extremes_witness :
  ((∃ shared union,
      overlap {[ "7" ]} {[ "8" ]} = Ok [Int shared; Int union; Str "0.0"])
   ↔ ({[ "7" ]} : gset string) ∩ {[ "8" ]} = ∅).
Proof.
  apply (jaccard_extremes {[ "7" ]} {[ "8" ]}); vm_compute; discriminate.
Defined.

(** X16: when a whole number of tenths of a percent is the exact
    Jaccard percentage, that number is what the row prints: no rounding
    error shows.  Half of the union shared prints 50.0. *)
Theorem exact_tenths_printed (s1 s2 : gset string) (t : Z) :
  0 < len (s1 ∪ s2) <= 2 ^ 41 →
  t * len (s1 ∪ s2) = 1000 * len (s1 ∩ s2) →
  overlap s1 s2
  = Ok [Int (len (s1 ∩ s2)); Int (len (s1 ∪ s2));
        Str (pretty (t / 10) +:+ "." +:+ pretty (t mod 10))].
Proof.
  intros Hu Ht.
  destruct (overlap_cells s1 s2) as [-> _].
  pose proof (jaccard_tenths_nearest s1 s2 Hu) as Hnear.
  assert (jaccard_tenths s1 s2 = t) as -> by nia.
  done.
Qed.

Lemma exact_tenths_printed_witness :
  overlap {[ "1"; "2"; "3" ]} {[ "2"; "3"; "4" ]}
  = Ok [Int (len ({[ "1"; "2"; "3" ]} ∩ {[ "2"; "3"; "4" ]}));
        Int (len ({[ "1"; "2"; "3" ]} ∪ {[ "2"; "3"; "4" ]}));
        Str (pretty (500 / 10) +:+ "." +:+ pretty (500 mod 10))].
Proof.
  apply (exact_tenths_printed {[ "1"; "2"; "3" ]} {[ "2"; "3"; "4" ]} 500).
  - split; vm_compute; [reflexivity|discriminate].
  - vm_compute. reflexivity.
Defined.

(** * The two reports together *)

Lemma overlap_row_at_length (d : Dict) (n : nat) (idx : list nat) :
  idx ∈ index_combinations n 2 → length (overlap_row_at d idx) = 5%nat.
Proof.
  intros Hin. apply index_pairs in Hin as (i & j & -> & _). done.
Qed.

(** X17: both reports are rectangular.  Every row of the counts file
    has the three cells of its header and there is one row per entry of
    the store; for a store with distinct keys every row of the overlap
    file has the five cells of its header and there is one row per
    unordered pair of entries. *)
Theorem report_rows_rectangular
    (results_dict : Dict) (counts_name overlap_name : string) (w : World) :
  NoDup (keys results_dict) →
  let n := length results_dict in
  ∃ counts overlaps,
    save_term_counts results_dict counts_name w = w ++ [Wrote counts_name counts]
    ∧ save_overlap_matrix results_dict overlap_name w
      = (w ++ [Wrote overlap_name overlaps], None)
    ∧ Forall (fun row => length row = 3%nat) counts
    ∧ Forall (fun row => length row = 5%nat) overlaps
    ∧ length counts = (1 + n)%nat
    ∧ (2 * length overlaps = 2 + n * (n - 1))%nat.
Proof.
  intros Hnd n.
  eexists _, _. split; [apply save_term_counts_rows|].
  split; [by apply save_overlap_matrix_rows|].
  split; [|split; [|split]].
  - constructor; [done|]. apply Forall_forall. intros row Hin.
    apply list_elem_of_fmap in Hin as (item & -> & _). done.
  - constructor; [done|]. apply Forall_forall. intros row Hin.
    apply list_elem_of_fmap in Hin as (idx & -> & Hin).
    by apply (overlap_row_at_length _ (length results_dict)).
  - simpl. by rewrite length_map.
  - simpl. rewrite length_map. unfold index_combinations.
    rewrite subsequences_count, length_seq.
    pose proof (binomial_2 (length results_dict)) as Hb. fold n in Hb |- *. lia.
Qed.

Lemma report_rows_rectangular_witness :
  let store : Dict :=
    [ ("x", {| components := ["x"]; pmids := {[ "1"; "2" ]} |});
      ("y", {| components := ["y"]; pmids := {[ "2" ]} |});
      ("z", {| components := ["z"]; pmids := ∅ |}) ] in
  ∃ counts overlaps,
    save_term_counts store "c.csv" [] = [] ++ [Wrote "c.csv" counts]
    ∧ save_overlap_matrix store "o.csv" [] = ([] ++ [Wrote "o.csv" overlaps], None)
    ∧ Forall (fun row => length row = 3%nat) counts
    ∧ Forall (fun row => length row = 5%nat) overlaps
    ∧ length counts = (1 + 3)%nat
    ∧ (2 * length overlaps = 2 + 3 * (3 - 1))%nat.
Proof.
  intros store. apply (report_rows_rectangular store "c.csv" "o.csv" []).
  apply (bool_decide_unpack _). vm_compute. exact I.
Defined.

(** * The query loop, turn by turn *)

(** X18: with a pause that [time.sleep] accepts, the trace of the
    query loop is one block per combination, in order: the request, the
    error line when the request failed, the progress line with the
    number of ids returned, and the pause.  The ids of a block are the
    answer of the service to the request of that block, asked at the
    trace made of the blocks before it; when that request fails the
    block has the error line with the text of the exception and its
    progress line reports 0 results. *)
Theorem loop_trace_by_turns
    (S : Service) (cfg : Config) (all_combos : list Combo) (results : Dict) (w : World) :
  (0 <= SLEEP_BETWEEN_CALLS cfg)%Q →
  (SLEEP_BETWEEN_CALLS cfg <= 9223372036854775807 # 1000000000)%Q →
  let block := fun ct : Combo * (list event * gset string) =>
    Requested base_url (request_params cfg ct.1.1)
    :: ct.2.1
    ++ [Printed ("✓ " +:+ ct.1.1 +:+ " → "
                  +:+ pretty (Z.of_nat (size ct.2.2)) +:+ " results");
        Slept (SLEEP_BETWEEN_CALLS cfg)] in
  ∃ w' results' (turns : list (list event * gset string)),
    query_loop cfg all_combos results w = (w', results', None)
    ∧ length turns = length all_combos
    ∧ w' = w ++ flat_map block (zip all_combos turns)
    ∧ ∀ (i : nat) (c : Combo) (t : list event * gset string),
        all_combos !! i = Some c → turns !! i = Some t →
        let asked :=
          w ++ flat_map block (take i (zip all_combos turns))
            ++ [Requested base_url (request_params cfg c.1)] in
        esearch_idlist asked base_url (request_params cfg c.1) = Ok t.2 ∧ t.1 = []
        ∨ ∃ e, esearch_idlist asked base_url (request_params cfg c.1) = Raise e
               ∧ t.1 = [Printed ("Error fetching for term: " +:+ c.1
                                   +:+ String (ascii_of_nat 10) (exception_str e))]
               ∧ t.2 = ∅.
Proof.
  intros Hlo Hhi block.
  revert results w. induction all_combos as [|[q c] rest IH]; intros results w.
  - exists w, results, []. split; [done|]. split; [done|].
    split; [simpl; by rewrite app_nil_r|]. intros i c t Hc. by destruct i.
  - destruct (query_loop_cons cfg q c rest results w Hlo Hhi)
      as (ids & said & _ & Hsaid & Hstep).
    destruct (IH (dict_setitem results q {| components := c; pmids := ids |})
                 (w ++ block ((q, c), (said, ids))))
      as (w' & results' & turns & Hrest & Hlen & Hw' & Hturns).
    exists w', results', ((said, ids) :: turns).
    split; [exact (eq_trans Hstep Hrest)|].
    split; [simpl; by rewrite Hlen|].
    split; [rewrite Hw'; cbn [zip zip_with flat_map]; by rewrite <- app_assoc|].
    intros [|i] c0 t Hc0 Ht.
    + injection Hc0 as <-. injection Ht as <-. cbn [take flat_map app fst snd].
      destruct Hsaid as [[-> Hok]|(e & -> & -> & Hfail)]; [by left|].
      right. by exists e.
    + cbn [lookup list_lookup] in Hc0, Ht.
      specialize (Hturns i c0 t Hc0 Ht). cbn zeta in Hturns.
      intros asked.
      assert (asked
              = (w ++ block ((q, c), (said, ids)))
                  ++ flat_map block (take i (zip rest turns))
                  ++ [Requested base_url (request_params cfg c0.1)]) as Hasked.
      { unfold asked. cbn [zip zip_with take flat_map]. by rewrite <- !app_assoc. }
      clearbody asked. subst asked. exact Hturns.
Qed.

Lemma loop_trace_by_turns_witness :
  let S := Canned.service Canned.answers in
  let q := String (ascii_of_nat 34) EmptyString in
  let asked := fun term =>
    Requested "https://eutils.ncbi.nlm.nih.gov/entrez/eutils/esearch.fcgi"
      [("db", Str "pubmed"); ("term", Str (q +:+ term +:+ q)); ("retmax", Int 1000);
       ("retmode", Str "json"); ("tool", Str "term_overlap_analyzer");
       ("email", Str "your_email@example.com")] in
  ∃ results',
    query_loop default_config
      [(q +:+ "a" +:+ q, ["a"]); (q +:+ "down" +:+ q, ["down"])] [] []
    = ([asked "a";
        Printed ("✓ " +:+ q +:+ "a" +:+ q +:+ " → 3 results");
        Slept (34 # 100)%Q;
        asked "down";
        Printed ("Error fetching for term: " +:+ q +:+ "down" +:+ q
                   +:+ String (ascii_of_nat 10) "connection refused");
        Printed ("✓ " +:+ q +:+ "down" +:+ q +:+ " → 0 results");
        Slept (34 # 100)%Q],
       results', None).
Proof.
  intros S q asked.
  destruct (loop_trace_by_turns S default_config
              [(quoted "a", ["a"]); (quoted "down", ["down"])] [] [])
    as (w' & results' & turns & Hrun & _); [by vm_compute|by vm_compute|].
  exists results'. etrans; [exact Hrun|].
  vm_compute in Hrun. injection Hrun as <- <-. reflexivity.
Defined.

(** * How many entries the store has *)

Lemma seen_length (l seen : list string) :
  NoDup seen →
  (length (fold_left (fun seen x => if decide (x ∈ seen) then seen else seen ++ [x])
             l seen)
   <= length seen + length l)%nat
  ∧ (length (fold_left (fun seen x => if decide (x ∈ seen) then seen else seen ++ [x])
               l seen)
     = (length seen + length l)%nat
     ↔ NoDup (seen ++ l)).
Proof.
  revert seen. induction l as [|x l IH]; intros seen Hnd; simpl.
  - rewrite app_nil_r. split; [lia|]. split; [done|lia].
  - destruct (decide (x ∈ seen)) as [Hin|Hout].
    + destruct (IH seen Hnd) as [Hle _]. split; [lia|]. split; [lia|].
      intros Hnd'. apply NoDup_app in Hnd' as (_ & Hdisj & _).
      exfalso. apply (Hdisj x Hin). apply list_elem_of_here.
    + assert (NoDup (seen ++ [x])) as Hnd'.
      { apply NoDup_app. split; [done|]. split; [|apply NoDup_singleton].
        intros y Hy Hy'. apply list_elem_of_singleton in Hy'. by subst. }
      destruct (IH (seen ++ [x]) Hnd') as [Hle Hiff].
      rewrite length_app in Hle, Hiff. simpl in Hle, Hiff.
      rewrite <- app_assoc in Hiff. simpl in Hiff.
      split; [lia|]. rewrite <- Hiff. lia.
Qed.

Lemma generate_queries_NoDup phrases k operator :
  NoDup phrases → Forall (fun p => quote_free p = true) phrases →
  NoDup (map fst (flat_map (combos_of_size operator phrases) (seq 1 k))).
Proof.
  intros Hnd Hfree.
  assert (map fst (flat_map (combos_of_size operator phrases) (seq 1 k))
          = map (query_of operator) (flat_map (Py.subsequences phrases) (seq 1 k)))
    as ->.
  { rewrite !map_flat_map. apply flat_map_ext. intros r.
    unfold combos_of_size. by rewrite map_map. }
  assert (∀ c, c ∈ flat_map (Py.subsequences phrases) (seq 1 k) →
               Forall (fun p => quote_free p = true) c) as Hsub.
  { intros c Hc. apply list_elem_of_In, in_flat_map in Hc as (r & _ & Hc).
    apply list_elem_of_In, subsequences_elem in Hc as [_ Hsub].
    rewrite Forall_forall in *. intros p Hp. apply Hfree.
    by eapply elem_of_sublist. }
  apply NoDup_fmap_2_strong; [|by apply subsequences_range_NoDup].
  intros c1 c2 Hc1 Hc2. apply query_of_inj; by apply Hsub.
Qed.

Lemma generate_length phrases k operator :
  length (flat_map (combos_of_size operator phrases) (seq 1 k))
  = sum_list (map (binomial (length phrases)) (seq 1 k)).
Proof.
  rewrite length_flat_map_sum. f_equal. apply map_ext. intros r.
  unfold combos_of_size. by rewrite length_map, subsequences_count.
Qed.

(** X19: the store never has more entries than there were searches,
    and it has one entry per search exactly when no two queries are
    equal.  For distinct phrases without double quotes that is the case:
    the store then lists the generated queries with their components in
    generation order, C(n,1) + ... + C(n,K) entries for n phrases.
    (The pause is one that [time.sleep] accepts, so that the loop runs
    through every combination.) *)
Theorem one_entry_per_distinct_query (S : Service) (cfg : Config) (w : World) :
  Py.upper (OPERATOR cfg) = "AND" ∨ Py.upper (OPERATOR cfg) = "OR" →
  (0 <= SLEEP_BETWEEN_CALLS cfg)%Q →
  (SLEEP_BETWEEN_CALLS cfg <= 9223372036854775807 # 1000000000)%Q →
  ∃ combos w' results,
    generate_phrase_combinations (PHRASES cfg) (MAX_COMBO_SIZE cfg) (OPERATOR cfg)
      = Ok combos
    ∧ query_loop cfg combos [] w = (w', results, None)
    ∧ (length results <= length combos)%nat
    ∧ (length results = length combos ↔ NoDup (map fst combos))
    ∧ (NoDup (PHRASES cfg) →
       Forall (fun p => quote_free p = true) (PHRASES cfg) →
       keys results = map fst combos
       ∧ map (fun item => components item.2) results = map snd combos
       ∧ length results
         = sum_list (map (binomial (length (PHRASES cfg)))
                       (seq 1 (Z.to_nat (MAX_COMBO_SIZE cfg))))).
Proof.
  intros Hop Hlo Hhi.
  pose proof (generate_ok (PHRASES cfg) (MAX_COMBO_SIZE cfg) _ Hop) as Hgen.
  match type of Hgen with _ = Ok ?l => set (combos := l) in * end.
  destruct (query_loop_ok cfg combos [] w Hlo Hhi)
    as (w' & results & Hrun & Hkeys & Hfresh).
  exists combos, w', results. split; [done|]. split; [done|].
  destruct (seen_length (map fst combos) [] (NoDup_nil_2)) as [Hle Hiff].
  simpl in Hkeys. rewrite <- Hkeys in Hle, Hiff.
  unfold keys in Hle, Hiff. rewrite !length_map in Hle, Hiff.
  simpl in Hle, Hiff.
  split; [done|]. split; [done|].
  intros Hnd Hfree.
  pose proof (generate_queries_NoDup _ (Z.to_nat (MAX_COMBO_SIZE cfg))
                (Py.upper (OPERATOR cfg)) Hnd Hfree) as Hq.
  fold combos in Hq.
  destruct (Hfresh Hq) as (fetched & Hf & ->).
  simpl. rewrite <- Hf. unfold keys. rewrite !map_map, !length_map.
  split; [|split].
  - apply map_ext. by intros [[q c] ids].
  - apply map_ext. by intros [[q c] ids].
  - transitivity (length (map fst fetched)); [symmetry; apply length_map|].
    rewrite Hf. apply generate_length.
Qed.

Lemma one_entry_per_distinct_query_witness :
  let S := Canned.service Canned.answers in
  ∃ combos w' results,
    generate_phrase_combinations (PHRASES default_config)
      (MAX_COMBO_SIZE default_config) (OPERATOR default_config) = Ok combos
    ∧ query_loop default_config combos [] [] = (w', results, None)
    ∧ keys results = map fst combos
    ∧ length results = 231%nat.
Proof.
  intros S.
  destruct (one_entry_per_distinct_query S default_config [])
    as (combos & w' & results & Hgen & Hrun & _ & _ & Hdistinct).
  - by left.
  - by vm_compute.
  - by vm_compute.
  - exists combos, w', results. split; [exact Hgen|]. split; [exact Hrun|].
    destruct Hdistinct as (Hkeys & _ & Hlen).
    + apply (bool_decide_unpack _). vm_compute. exact I.
    + repeat constructor.
    + split; [exact Hkeys|exact Hlen].
Defined.
